(** * SQL query plan visualizer: the plan parser, critical path and layout

    A shallow embedding of [src/utils/parser.ts] (with the types of
    [src/types]) and the proofs of the properties stated about it.

    Conventions of the embedding.
    - A JavaScript [Map] is a [gmap], a [Set] a [gset], an array a [list].
    - An optional field [f?: T] is an [option T]; truthiness tests
      ([if (x)], [x || y]) are written out with [truthy_*] functions.
    - The module-level counter [nodeIdCounter] is threaded explicitly: a
      function that calls [generateId] takes the counter and returns the
      new one.
    - Recursion over the emitted graph ([calculateCumulativeCost],
      [markPath], [calcWidth], [positionNode]) takes fuel and returns
      [None] when it runs out; the fuel given by the callers exceeds the
      number of nodes, so [None] stands for unbounded recursion on a cyclic
      graph.  Totality on every parser output is proved.
    - A string is the sequence of bytes of its UTF-8 encoding.
    - A cost is a binary64 number ([number]): sums and differences are
      rounded to the nearest value, ties to even, and overflow to an
      infinity ([round64]).  The two zeros are not told apart; nothing in
      the parser divides by a cost or prints one.
    - Row estimates and layout coordinates are integers ([Z]).  An integer
      of magnitude at most [2 ^ 53] is a binary64 value and a product of
      such integers that stays in this range is exact
      ([integer_product_exact]); the statements about a product of row
      estimates carry this bound.  Every width that the layout halves is
      even ([calcWidth_even], [child_offsets_exact]), so the quotient by
      [2] is exact. *)

From Stdlib Require Import ZArith QArith Qround Qpower Lia List Ascii Lqa.
From Stdlib Require String.
From stdpp Require Import gmap strings list fin_maps pretty sorting.

Local Open Scope Z_scope.
#[local] Set Warnings "-clear-no-such-hyp".

(** ** JavaScript numbers

    Costs are produced by [parseFloat] and may be [NaN] or infinite.  A
    finite binary64 value is kept as the rational it denotes; every
    operation rounds its exact result with [round64]. *)

Inductive number :=
| NaN
| PInf
| NInf
| Fin (q : Q).

Definition num_zero : number := Fin 0.

(** [-a] *)
Definition num_neg (a : number) : number :=
  match a with
  | NaN => NaN
  | PInf => NInf
  | NInf => PInf
  | Fin x => Fin (- x)
  end.

(** [2 ^ e] *)
Definition pow2 (e : Z) : Q := Qpower 2 e.

(** The integer nearest to [x], the even one of the two when [x] is half
    way between them. *)
Definition nearest_even (x : Q) : Z :=
  let f := Qfloor x in
  match Qcompare (x - inject_Z f)%Q (1 # 2) with
  | Lt => f
  | Gt => f + 1
  | Eq => if Z.even f then f else f + 1
  end.

(** The exponent of the last place of the binary64 values around [a > 0]:
    [floor (log2 a) - 52], and [-1074] in the subnormal range.  The
    logarithm is taken of the integer part of [a * 2 ^ 1126], which is at
    least [1] whenever the first case applies ([1126 = 1074 + 52]). *)
Definition exponent_of (a : Q) : Z :=
  Z.max (-1074) (Z.log2 (Qfloor (a * pow2 1126)%Q) - 1126 - 52).

(** [a > 0] rounded to the nearest multiple of its last place, and to
    [Infinity] when that is [2 ^ 1024] or more. *)
Definition round_magnitude (a : Q) : number :=
  let e := exponent_of a in
  let v := Qred (inject_Z (nearest_even (a / pow2 e)%Q) * pow2 e)%Q in
  if Qle_bool (pow2 1024) v then PInf else Fin v.

(** The binary64 value of a rational: round to nearest, ties to even. *)
Definition round64 (q : Q) : number :=
  let q := Qred q in
  match Qnum q with
  | Z0 => Fin 0
  | Zpos _ => round_magnitude q
  | Zneg _ => num_neg (round_magnitude (- q)%Q)
  end.

(** [a + b] *)
Definition num_add (a b : number) : number :=
  match a, b with
  | NaN, _ | _, NaN => NaN
  | PInf, NInf | NInf, PInf => NaN
  | PInf, _ | _, PInf => PInf
  | NInf, _ | _, NInf => NInf
  | Fin x, Fin y => round64 (x + y)
  end.

(** The sign of [a] given to the infinity [i]; [NaN] for a zero. *)
Definition times_infinity (x : Q) (i : number) : number :=
  match Qcompare x 0 with
  | Eq => NaN
  | Gt => i
  | Lt => num_neg i
  end.

(** [a * b] *)
Definition num_mul (a b : number) : number :=
  match a, b with
  | NaN, _ | _, NaN => NaN
  | Fin x, Fin y => round64 (x * y)
  | Fin x, PInf | PInf, Fin x => times_infinity x PInf
  | Fin x, NInf | NInf, Fin x => times_infinity x NInf
  | PInf, PInf | NInf, NInf => PInf
  | PInf, NInf | NInf, PInf => NInf
  end.

(** [a - b] *)
Definition num_sub (a b : number) : number := num_add a (num_neg b).

(** [a < b], false when either side is [NaN] *)
Definition num_ltb (a b : number) : bool :=
  match a, b with
  | NaN, _ | _, NaN => false
  | _, NInf => false
  | NInf, _ => true
  | PInf, _ => false
  | _, PInf => true
  | Fin x, Fin y => match x ?= y with Lt => true | _ => false end
  end%Q.

(** [a === b] *)
Definition num_eqb (a b : number) : bool :=
  match a, b with
  | PInf, PInf | NInf, NInf => true
  | Fin x, Fin y => Qeq_bool x y
  | _, _ => false
  end.

(** [Math.max(a, b)]: [NaN] as soon as one argument is [NaN]. *)
Definition num_max (a b : number) : number :=
  match a, b with
  | NaN, _ | _, NaN => NaN
  | _, _ => if num_ltb a b then b else a
  end.

(** [Math.max(init, ...l)] *)
Definition Math_max (init : number) (l : list number) : number :=
  fold_left num_max l init.

(** Truthiness of a number: [0] and [NaN] are falsy. *)
Definition truthy_number (a : number) : bool :=
  match a with
  | NaN => false
  | Fin x => negb (Qeq_bool x 0)
  | _ => true
  end.

(** [a || 0] on a possibly missing number. *)
Definition or_zero (a : option number) : number :=
  match a with
  | Some x => if truthy_number x then x else num_zero
  | None => num_zero
  end.

(** Truthiness of strings, booleans and integers. *)
Definition truthy_string (s : option string) : bool :=
  match s with
  | Some EmptyString | None => false
  | Some _ => true
  end.

Definition truthy_bool (b : option bool) : bool :=
  match b with
  | Some true => true
  | _ => false
  end.

Definition truthy_Z (z : option Z) : bool :=
  match z with
  | Some 0 | None => false
  | Some _ => true
  end.

(** ** [parseFloat]

    The built-in: leading white space is skipped, the longest prefix that is
    a [StrDecimalLiteral] is read and rounded, and [NaN] is returned when
    there is none. *)

(** The code points of [StrWhiteSpaceChar] (white space and line
    terminators) by the bytes of their encoding.  One byte: TAB, LF, VT, FF,
    CR and the space. *)
Definition is_space (a : ascii) : bool :=
  let n := nat_of_ascii a in
  ((n =? 32) || (n =? 9) || (n =? 10) || (n =? 11) || (n =? 12) || (n =? 13))%nat.

(** Two bytes: U+00A0. *)
Definition is_space2 (a b : ascii) : bool :=
  ((nat_of_ascii a =? 194) && (nat_of_ascii b =? 160))%nat.

(** Three bytes: U+1680, U+2000 to U+200A, U+2028, U+2029, U+202F, U+205F,
    U+3000 and U+FEFF. *)
Definition is_space3 (a b c : ascii) : bool :=
  let '(x, y, z) := (nat_of_ascii a, nat_of_ascii b, nat_of_ascii c) in
  ((x =? 225) && (y =? 154) && (z =? 128)
   || (x =? 226) && (y =? 128)
      && ((128 <=? z) && (z <=? 138) || (z =? 168) || (z =? 169) || (z =? 175))
   || (x =? 226) && (y =? 129) && (z =? 159)
   || (x =? 227) && (y =? 128) && (z =? 128)
   || (x =? 239) && (y =? 187) && (z =? 191))%nat.

Fixpoint trim_start (s : string) : string :=
  match s with
  | String a r =>
      if is_space a then trim_start r
      else match r with
           | String b r2 =>
               if is_space2 a b then trim_start r2
               else match r2 with
                    | String c r3 =>
                        if is_space3 a b c then trim_start r3 else s
                    | EmptyString => s
                    end
           | EmptyString => s
           end
  | EmptyString => s
  end.

Definition digit_of (a : ascii) : option Z :=
  let n := nat_of_ascii a in
  if ((48 <=? n) && (n <=? 57))%nat then Some (Z.of_nat (n - 48)) else None.

(** Reads a run of digits: value so far, number of digits read, the rest. *)
Fixpoint read_digits (s : string) (acc : Z) (cnt : nat) : Z * nat * string :=
  match s with
  | String a r =>
      match digit_of a with
      | Some d => read_digits r (10 * acc + d) (S cnt)
      | None => (acc, cnt, s)
      end
  | EmptyString => (acc, cnt, s)
  end.

(** The exponent part, read only when it is complete. *)
Definition read_exponent (s : string) : Z :=
  match s with
  | String e r =>
      if (Ascii.eqb e "e" || Ascii.eqb e "E")%char then
        let '(neg, r') :=
          match r with
          | String "-" r' => (true, r')
          | String "+" r' => (false, r')
          | _ => (false, r)
          end in
        let '(v, cnt, _) := read_digits r' 0 0 in
        match cnt with
        | O => 0
        | _ => if neg then - v else v
        end
      else 0
  | EmptyString => 0
  end.

(** [m * 10 ^ e] *)
Definition scale10 (m e : Z) : Q :=
  if 0 <=? e then inject_Z (m * 10 ^ e)
  else Qmake m (Z.to_pos (10 ^ (- e))).

(** The fraction after [icnt] integer digits of value [ip]: a dot and
    digits, where one of the two runs of digits may be empty. *)
Definition read_fraction (ip : Z) (icnt : nat) (r1 : string) : Z * nat * string :=
  match r1 with
  | String a r =>
      if Ascii.eqb a "." then
        let '(m, fcnt, r2) := read_digits r ip 0 in
        match icnt, fcnt with
        | O, O => (ip, O, r1)
        | _, _ => (m, fcnt, r2)
        end
      else (ip, O, r1)
  | EmptyString => (ip, O, r1)
  end.

Definition read_unsigned (s : string) : option Q :=
  let '(ip, icnt, r1) := read_digits s 0 0 in
  let '(m, fcnt, r2) := read_fraction ip icnt r1 in
  match icnt, fcnt with
  | O, O => None
  | _, _ => Some (scale10 m (read_exponent r2 - Z.of_nat fcnt))
  end.

(** An optional sign: whether it is [-], and what follows it. *)
Definition read_sign (s : string) : bool * string :=
  match s with
  | String "-" r => (true, r)
  | String "+" r => (false, r)
  | _ => (false, s)
  end.

Definition parseFloat (s : string) : number :=
  let '(neg, u) := read_sign (trim_start s) in
  if String.prefix "Infinity" u then (if neg then NInf else PInf)
  else match read_unsigned u with
       | Some q => round64 (if neg then (- q)%Q else q)
       | None => NaN
       end.

Definition starts_with_digit (s : string) : bool :=
  match s with
  | String a _ => match digit_of a with Some _ => true | None => false end
  | EmptyString => false
  end.

(** Whether a string begins, after white space, with a decimal literal:
    an optional sign, then [Infinity], a digit, or a dot and a digit. *)
Definition has_numeric_prefix (s : string) : bool :=
  let u := snd (read_sign (trim_start s)) in
  String.prefix "Infinity" u
  || starts_with_digit u
  || match u with
     | String a r => Ascii.eqb a "." && starts_with_digit r
     | EmptyString => false
     end.

(** ** The input plan ([src/types]) *)

Record CostInfo := mkCostInfo {
  query_cost : option string;
  read_cost : option string;
  eval_cost : option string;
  prefix_cost : option string;
  data_read_per_join : option string;
  sort_cost : option string }.

Inductive AccessType :=
| at_system | at_const | at_eq_ref | at_ref | at_fulltext | at_ref_or_null
| at_index_merge | at_unique_subquery | at_index_subquery | at_range
| at_index | at_ALL.

Scheme All for option.
Scheme All for list.
Scheme All for prod.

(** The records of the plan refer to each other; a field [f] of the
    interface [I] is the projection [i_f], the prefix being the initials of
    the interface.  Row estimates are the integers of the EXPLAIN output. *)
Inductive QueryBlock := mkQueryBlock {
  qb_select_id : option Z;
  qb_cost_info : option CostInfo;
  qb_table : option TableInfo;
  qb_nested_loop : option (list NestedLoopItem);
  qb_ordering_operation : option OrderingOperation;
  qb_grouping_operation : option GroupingOperation;
  qb_duplicates_removal : option DuplicatesRemoval;
  qb_query_block : option QueryBlock;
  qb_union_result : option UnionResult;
  qb_subqueries : option (list SubqueryInfo);
  qb_optimized_away_subqueries : option (list SubqueryInfo);
  qb_attached_subqueries : option (list SubqueryInfo);
  qb_message : option string }
with TableInfo := mkTableInfo {
  ti_table_name : string;
  ti_access_type : AccessType;
  ti_possible_keys : option (list string);
  ti_key : option string;
  ti_used_key_parts : option (list string);
  ti_key_length : option string;
  ti_ref : option (list string);
  ti_rows_examined_per_scan : option Z;
  ti_rows_produced_per_join : option Z;
  ti_filtered : option string;
  ti_cost_info : option CostInfo;
  ti_used_columns : option (list string);
  ti_attached_condition : option string;
  ti_using_index : option bool;
  ti_using_index_condition : option string;
  ti_using_temporary : option bool;
  ti_using_filesort : option bool;
  ti_materialized_from_subquery : option MaterializedFromSubquery;
  ti_insert : option bool;
  ti_message : option string }
with NestedLoopItem := mkNestedLoopItem {
  nl_table : TableInfo }
with OrderingOperation := mkOrderingOperation {
  oo_using_filesort : bool;
  oo_using_temporary_table : option bool;
  oo_cost_info : option CostInfo;
  oo_table : option TableInfo;
  oo_nested_loop : option (list NestedLoopItem);
  oo_grouping_operation : option GroupingOperation;
  oo_duplicates_removal : option DuplicatesRemoval;
  oo_buffer_result : option BufferResult }
with GroupingOperation := mkGroupingOperation {
  go_using_filesort : option bool;
  go_using_temporary_table : option bool;
  go_cost_info : option CostInfo;
  go_table : option TableInfo;
  go_nested_loop : option (list NestedLoopItem);
  go_buffer_result : option BufferResult }
with DuplicatesRemoval := mkDuplicatesRemoval {
  dr_using_filesort : option bool;
  dr_using_temporary_table : option bool;
  dr_cost_info : option CostInfo;
  dr_table : option TableInfo;
  dr_nested_loop : option (list NestedLoopItem) }
with BufferResult := mkBufferResult {
  br_using_temporary_table : option bool;
  br_table : option TableInfo;
  br_nested_loop : option (list NestedLoopItem) }
with UnionResult := mkUnionResult {
  ur_using_temporary_table : bool;
  ur_table_name : string;
  ur_access_type : string;
  ur_query_specifications : option (list QuerySpecification) }
with QuerySpecification := mkQuerySpecification {
  qs_dependent : bool;
  qs_cacheable : bool;
  qs_query_block : QueryBlock }
with SubqueryInfo := mkSubqueryInfo {
  sq_dependent : option bool;
  sq_cacheable : option bool;
  sq_using_temporary_table : option bool;
  sq_query_block : QueryBlock }
with MaterializedFromSubquery := mkMaterializedFromSubquery {
  mf_using_temporary_table : bool;
  mf_query_block : QueryBlock }.

Record MySQLExplainJSON := mkMySQLExplainJSON {
  query_block : QueryBlock }.

(** ** The emitted graph *)

Inductive NodeType :=
| nt_select | nt_table | nt_join | nt_sort | nt_group | nt_distinct
| nt_union | nt_subquery | nt_temp_table | nt_buffer.

(** [rawData] keeps the record a node was made from. *)
Inductive RawData :=
| RawTable (t : TableInfo)
| RawItems (items : list NestedLoopItem)
| RawOrdering (o : OrderingOperation)
| RawGrouping (g : GroupingOperation)
| RawDuplicates (d : DuplicatesRemoval)
| RawUnion (u : UnionResult)
| RawBuffer (b : BufferResult)
| RawBlock (b : QueryBlock).

Record PlanNode := mkPlanNode {
  id : string;
  type : NodeType;
  label : string;
  cost : number;
  rows : Z;
  table : option string;
  accessType : option AccessType;
  key : option string;
  keyParts : option (list string);
  condition : option string;
  extra : list string;
  children : list string;
  isCriticalPath : option bool;
  rawData : RawData }.

Record PlanEdge := mkPlanEdge {
  source : string;
  target : string }.

(** What each parse function returns: [{ nodes, edges }]. *)
Record ParseResult := mkParseResult {
  nodes : list PlanNode;
  edges : list PlanEdge }.

Definition no_result : ParseResult := mkParseResult [] [].

(** [nodes.push(...r.nodes); edges.push(...r.edges)] *)
Definition push_result (acc r : ParseResult) : ParseResult :=
  mkParseResult (nodes acc ++ nodes r) (edges acc ++ edges r).

(** [if (parentId) edges.push({ source, target: parentId })]; an id is never
    the empty string, but the test is on the string. *)
Definition edge_to (src : string) (parentId : option string) : list PlanEdge :=
  match parentId with
  | Some p => if truthy_string (Some p) then [mkPlanEdge src p] else []
  | None => []
  end.

(** ** The parser *)

(** [`node-${k}`] *)
Definition node_name (k : nat) : string := "node-" +:+ pretty k.

(** [generateId]: increments the counter and returns the name of its new
    value. *)
Definition generateId (counter : nat) : string * nat :=
  (node_name (S counter), S counter).

(** [costInfo.query_cost || costInfo.read_cost || costInfo.prefix_cost] *)
Definition cost_field (ci : CostInfo) : option string :=
  if truthy_string (query_cost ci) then query_cost ci
  else if truthy_string (read_cost ci) then read_cost ci
  else prefix_cost ci.

Definition parseCost (costInfo : option CostInfo) : number :=
  match costInfo with
  | None => num_zero
  | Some ci =>
      let cost := cost_field ci in
      if truthy_string cost then parseFloat (default EmptyString cost) else num_zero
  end.

Definition push_if {A} (b : bool) (x : A) (l : list A) : list A :=
  if b then l ++ [x] else l.

Definition getExtraInfo (t : TableInfo) : list string :=
  let extra := [] in
  let extra := push_if (truthy_bool (ti_using_index t)) "Using index" extra in
  let extra := push_if (truthy_bool (ti_using_temporary t)) "Using temporary" extra in
  let extra := push_if (truthy_bool (ti_using_filesort t)) "Using filesort" extra in
  let extra := push_if (truthy_string (ti_using_index_condition t))
                       "Using index condition" extra in
  match ti_message t with
  | Some m => push_if (truthy_string (Some m)) m extra
  | None => extra
  end.

(** [a || b || 0] on row estimates. *)
Definition first_truthy_Z (a b : option Z) : Z :=
  if truthy_Z a then default 0 a
  else if truthy_Z b then default 0 b
  else 0.

(** The row estimate of a table node: examined rows first. *)
Definition table_rows (t : TableInfo) : Z :=
  first_truthy_Z (ti_rows_examined_per_scan t) (ti_rows_produced_per_join t).

(** The row estimate a table contributes to a join: produced rows first. *)
Definition join_rows (t : TableInfo) : Z :=
  first_truthy_Z (ti_rows_produced_per_join t) (ti_rows_examined_per_scan t).

Definition ids_of (ns : list PlanNode) : list string := map id ns.

Section NestedLoop.
(** [parseNestedLoop] calls [parseTable], which is defined with the other
    parse functions below. *)
Variable parseTable : TableInfo -> option string -> nat -> ParseResult * nat.

(** One round of [items.forEach]: the accumulator is the result so far,
    the ids pushed to [joinNode.children], and the counter. *)
Definition join_step (joinId : string)
    (acc : ParseResult * list string * nat) (item : NestedLoopItem)
    : ParseResult * list string * nat :=
  let '(res, chs, c) := acc in
  let '(tableResult, c) := parseTable (nl_table item) (Some joinId) c in
  (push_result res tableResult, chs ++ ids_of (nodes tableResult), c).

(** [totalRows]: the reduction starts from [0] and a sum of [0] is
    replaced by the next estimate.  The product is the one of the
    integers, which is the binary64 product as long as it stays within
    [2 ^ 53] in magnitude ([integer_product_exact]). *)
Definition rows_step (sum : Z) (item : NestedLoopItem) : Z :=
  let rows := join_rows (nl_table item) in
  if sum =? 0 then rows else sum * rows.

Definition cost_step (sum : number) (item : NestedLoopItem) : number :=
  num_add sum (parseCost (ti_cost_info (nl_table item))).

(** The branch [items.length > 1]: the join node and a table per entry. *)
Definition parse_join (items : list NestedLoopItem)
    (parentId : option string) (counter : nat) : ParseResult * nat :=
  let '(joinId, c) := generateId counter in
  let totalCost := fold_left cost_step items num_zero in
  let totalRows := fold_left rows_step items 0 in
  let '(res, chs, c) :=
    fold_left (join_step joinId) items
      (mkParseResult [] (edge_to joinId parentId), [], c) in
  (* [joinNode] was pushed first and its [children] filled by the loop *)
  let joinNode :=
    mkPlanNode joinId nt_join "Nested Loop Join" totalCost totalRows
      None None None None None [] chs None (RawItems items) in
  (mkParseResult (joinNode :: nodes res) (edges res), c).

Definition parseNestedLoop_with (items : list NestedLoopItem)
    (parentId : option string) (counter : nat) : ParseResult * nat :=
  match items with
  | [] => (no_result, counter)
  | [item] => parseTable (nl_table item) parentId counter
  | _ => parse_join items parentId counter
  end.
End NestedLoop.

(** [if (x) { const r = f(x, parent); nodes.push(...); edges.push(...) }] *)
Definition parse_opt {A} (f : A -> option string -> nat -> ParseResult * nat)
    (x : option A) (parentId : option string)
    (acc : ParseResult) (c : nat) : ParseResult * nat :=
  match x with
  | Some a => let '(r, c) := f a parentId c in (push_result acc r, c)
  | None => (acc, c)
  end.

(** [l.forEach(x => { const r = f(x, parent); nodes.push(...); ... })] *)
Definition parse_each {A} (f : A -> option string -> nat -> ParseResult * nat)
    (l : list A) (parentId : option string)
    (acc : ParseResult) (c : nat) : ParseResult * nat :=
  fold_left (fun st x => let '(r, c) := f x parentId (snd st) in
                         (push_result (fst st) r, c)) l (acc, c).

Definition stage_extra (filesort temporary : bool) : list string :=
  push_if temporary "Using temporary table" (push_if filesort "Using filesort" []).

Fixpoint parseTable (t : TableInfo) (parentId : option string) (counter : nat)
    {struct t} : ParseResult * nat :=
  let '(nodeId, c) := generateId counter in
  let '(sub, c) :=
    match ti_materialized_from_subquery t with
    | Some m => parseQueryBlock (mf_query_block m) (Some nodeId) nt_subquery c
    | None => (no_result, c)
    end in
  (* [node] was pushed first and its [children] filled afterwards *)
  let node :=
    mkPlanNode nodeId nt_table
      (if truthy_string (Some (ti_table_name t)) then ti_table_name t
       else "Unknown Table")
      (parseCost (ti_cost_info t)) (table_rows t)
      (Some (ti_table_name t)) (Some (ti_access_type t)) (ti_key t)
      (ti_used_key_parts t) (ti_attached_condition t) (getExtraInfo t)
      (ids_of (nodes sub)) None (RawTable t) in
  (mkParseResult (node :: nodes sub) (edge_to nodeId parentId ++ edges sub), c)

with parseQueryBlock (block : QueryBlock) (parentId : option string)
    (blockType : NodeType) (counter : nat) {struct block} : ParseResult * nat :=
  let currentParent := parentId in
  match qb_ordering_operation block with
  | Some oo =>
      let '(sortId, c) := generateId counter in
      let extra := stage_extra (oo_using_filesort oo)
                               (truthy_bool (oo_using_temporary_table oo)) in
      let acc := mkParseResult [] (edge_to sortId currentParent) in
      let currentParent := Some sortId in
      let '(nested, c) :=
        match oo_nested_loop oo with
        | Some items => parseNestedLoop_with parseTable items currentParent c
        | None => (no_result, c)
        end in
      let acc := push_result acc nested in
      let '(acc, c) :=
        parse_opt parseGroupingOperation (oo_grouping_operation oo)
                  currentParent acc c in
      let '(acc, c) := parse_opt parseTable (oo_table oo) currentParent acc c in
      let sortNode :=
        mkPlanNode sortId nt_sort "ORDER BY" (parseCost (oo_cost_info oo)) 0
          None None None None None extra (ids_of (nodes nested)) None
          (RawOrdering oo) in
      (mkParseResult (sortNode :: nodes acc) (edges acc), c)
  | None =>
  match qb_grouping_operation block with
  | Some g => parseGroupingOperation g currentParent counter
  | None =>
  match qb_duplicates_removal block with
  | Some dr =>
      let '(distinctId, c) := generateId counter in
      let distinctNode :=
        mkPlanNode distinctId nt_distinct "DISTINCT"
          (parseCost (dr_cost_info dr)) 0 None None None None None
          (stage_extra (truthy_bool (dr_using_filesort dr))
                       (truthy_bool (dr_using_temporary_table dr)))
          [] None (RawDuplicates dr) in
      let acc := mkParseResult [distinctNode] (edge_to distinctId currentParent) in
      let currentParent := Some distinctId in
      let '(acc, c) :=
        parse_opt (parseNestedLoop_with parseTable) (dr_nested_loop dr)
                  currentParent acc c in
      parse_opt parseTable (dr_table dr) currentParent acc c
  | None =>
  match qb_union_result block with
  | Some ur =>
      let '(unionId, c) := generateId counter in
      let unionNode :=
        mkPlanNode unionId nt_union "UNION" num_zero 0 None None None None None
          (if ur_using_temporary_table ur then ["Using temporary table"] else [])
          [] None (RawUnion ur) in
      let acc := mkParseResult [unionNode] (edge_to unionId currentParent) in
      match ur_query_specifications ur with
      | Some specs =>
          parse_each
            (fun spec p => parseQueryBlock (qs_query_block spec) p nt_select)
            specs (Some unionId) acc c
      | None => (acc, c)
      end
  | None =>
      let '(acc, c) :=
        parse_opt (parseNestedLoop_with parseTable) (qb_nested_loop block)
                  currentParent no_result counter in
      let '(acc, c) := parse_opt parseTable (qb_table block) currentParent acc c in
      (* [allSubqueries.forEach]: the loop over the concatenation of the
         three lists is the three loops in turn ([parse_each_all]) *)
      let each_sub := fun (subs : option (list SubqueryInfo)) st =>
        match subs with
        | Some l =>
            parse_each
              (fun sub p => parseQueryBlock (sq_query_block sub) p nt_subquery)
              l currentParent (fst st) (snd st)
        | None => st
        end in
      let '(acc, c) :=
        each_sub (qb_attached_subqueries block)
          (each_sub (qb_optimized_away_subqueries block)
             (each_sub (qb_subqueries block) (acc, c))) in
      let '(acc, c) :=
        parse_opt (fun b p => parseQueryBlock b p nt_select)
                  (qb_query_block block) currentParent acc c in
      match qb_message block, nodes acc with
      | Some m, [] =>
          if truthy_string (Some m) then
            let '(msgId, c) := generateId c in
            let msgNode :=
              mkPlanNode msgId blockType m num_zero 0 None None None None None
                [] [] None (RawBlock block) in
            (push_result acc (mkParseResult [msgNode] (edge_to msgId currentParent)), c)
          else (acc, c)
      | _, _ => (acc, c)
      end
  end end end end

with parseGroupingOperation (groupOp : GroupingOperation)
    (parentId : option string) (counter : nat) {struct groupOp}
    : ParseResult * nat :=
  let '(groupId, c) := generateId counter in
  let groupNode :=
    mkPlanNode groupId nt_group "GROUP BY" (parseCost (go_cost_info groupOp)) 0
      None None None None None
      (stage_extra (truthy_bool (go_using_filesort groupOp))
                   (truthy_bool (go_using_temporary_table groupOp)))
      [] None (RawGrouping groupOp) in
  let acc := mkParseResult [groupNode] (edge_to groupId parentId) in
  let '(acc, c) :=
    parse_opt (parseNestedLoop_with parseTable) (go_nested_loop groupOp)
              (Some groupId) acc c in
  let '(acc, c) := parse_opt parseTable (go_table groupOp) (Some groupId) acc c in
  parse_opt parseBufferResult (go_buffer_result groupOp) (Some groupId) acc c

with parseBufferResult (buffer : BufferResult) (parentId : option string)
    (counter : nat) {struct buffer} : ParseResult * nat :=
  let '(bufferId, c) := generateId counter in
  let bufferNode :=
    mkPlanNode bufferId nt_buffer "Buffer Result" num_zero 0
      None None None None None
      (if truthy_bool (br_using_temporary_table buffer)
       then ["Using temporary table"] else [])
      [] None (RawBuffer buffer) in
  let acc := mkParseResult [bufferNode] (edge_to bufferId parentId) in
  let '(acc, c) :=
    parse_opt (parseNestedLoop_with parseTable) (br_nested_loop buffer)
              (Some bufferId) acc c in
  parse_opt parseTable (br_table buffer) (Some bufferId) acc c.

Definition parseNestedLoop := parseNestedLoop_with parseTable.

(** ** Loops with state that may not terminate *)

(** [l.forEach(x => ...)] on a state, [None] when a round runs out of fuel. *)
Fixpoint foldM {A S : Type} (f : S -> A -> option S) (l : list A) (s : S)
    : option S :=
  match l with
  | [] => Some s
  | x :: r => match f s x with
              | Some s' => foldM f r s'
              | None => None
              end
  end.

(** [l.map(x => ...)] where the callback also updates a state. *)
Fixpoint mapM_state {A B S : Type} (f : A -> S -> option (B * S))
    (l : list A) (s : S) : option (list B * S) :=
  match l with
  | [] => Some ([], s)
  | x :: r =>
      match f x s with
      | Some (b, s') =>
          match mapM_state f r s' with
          | Some (bs, s'') => Some (b :: bs, s'')
          | None => None
          end
      | None => None
      end
  end.

(** ** [Array.prototype.sort] with a comparator

    The built-in sort is stable; on a consistent comparator every stable
    sort returns the same array, here by insertion from the right.  [x] stays
    before [y] unless the comparator is positive. *)

Section Sort.
Context {A : Type} (compare : A -> A -> number).

Fixpoint sort_insert (x : A) (l : list A) : list A :=
  match l with
  | [] => [x]
  | y :: r => if num_ltb num_zero (compare x y) then y :: sort_insert x r
              else x :: l
  end.

Definition js_sort (l : list A) : list A := foldr sort_insert [] l.
End Sort.

(** [(a, b) => b.cost - a.cost] on [{ id, cost }] pairs. *)
Definition by_cost_desc (a b : string * number) : number :=
  num_sub (snd b) (snd a).

(** ** Critical path *)

(** [nodes.find(n => n.id === nodeId)] *)
Definition find_node (ns : list PlanNode) (nodeId : string) : option PlanNode :=
  List.find (fun n => String.eqb (id n) nodeId) ns.

Definition set_isCriticalPath (n : PlanNode) : PlanNode :=
  mkPlanNode (id n) (type n) (label n) (cost n) (rows n) (table n)
    (accessType n) (key n) (keyParts n) (condition n) (extra n) (children n)
    (Some true) (rawData n).

(** [node.isCriticalPath = true] on the node that [find] returns. *)
Fixpoint mark_node (ns : list PlanNode) (nodeId : string) : list PlanNode :=
  match ns with
  | [] => []
  | n :: r => if String.eqb (id n) nodeId then set_isCriticalPath n :: r
              else n :: mark_node r nodeId
  end.

Fixpoint calculateCumulativeCost (ns : list PlanNode) (fuel : nat)
    (nodeId : string) (nodeCosts : gmap string number)
    : option (number * gmap string number) :=
  match fuel with
  | O => None
  | S fuel =>
      match find_node ns nodeId with
      | None => Some (num_zero, nodeCosts)
      | Some node =>
          match mapM_state (calculateCumulativeCost ns fuel) (children node)
                           nodeCosts with
          | Some (childCosts, nodeCosts) =>
              let maxChildCost := Math_max num_zero childCosts in
              let totalCost := num_add (cost node) maxChildCost in
              Some (totalCost, <[nodeId := totalCost]> nodeCosts)
          | None => None
          end
      end
  end.

(** [{ id, cost: nodeCosts.get(id) || 0 }] *)
Definition cost_pair (nodeCosts : gmap string number) (i : string)
    : string * number :=
  (i, or_zero (nodeCosts !! i)).

Fixpoint markPath (nodeCosts : gmap string number) (fuel : nat)
    (nodeId : string) (ns : list PlanNode) : option (list PlanNode) :=
  match fuel with
  | O => None
  | S fuel =>
      match find_node ns nodeId with
      | None => Some ns
      | Some node =>
          let ns := mark_node ns nodeId in
          let childCostPairs := map (cost_pair nodeCosts) (children node) in
          match js_sort by_cost_desc childCostPairs with
          | first :: _ => markPath nodeCosts fuel (fst first) ns
          | [] => Some ns
          end
      end
  end.

Definition allChildren (ns : list PlanNode) : gset string :=
  list_to_set (flat_map children ns).

Definition rootNodes (ns : list PlanNode) : list PlanNode :=
  filter (fun n => id n ∉ allChildren ns) ns.

Definition markCriticalPath (ns : list PlanNode) : option (list PlanNode) :=
  match ns with
  | [] => Some ns
  | _ =>
      let fuel := S (length ns) in
      match foldM (fun m root =>
                     snd <$> calculateCumulativeCost ns fuel (id root) m)
                  (rootNodes ns) ∅ with
      | Some nodeCosts =>
          let rootCosts := map (fun n => cost_pair nodeCosts (id n)) (rootNodes ns) in
          match js_sort by_cost_desc rootCosts with
          | first :: _ => markPath nodeCosts fuel (fst first) ns
          | [] => Some ns
          end
      | None => None
      end
  end.

(** ** Layout *)

Record Position := mkPosition {
  pos_x : Z;
  pos_y : Z }.

(** A node handed to the renderer: [{ id, type, position, data }] with
    [data = { ...node, maxCost }]. *)
Record FlowNode := mkFlowNode {
  node_id : string;
  position : Position;
  data : PlanNode;
  maxCost : number }.

Definition nodeWidth : Z := 280.
Definition nodeHeight : Z := 120.
Definition horizontalGap : Z := 60.
Definition verticalGap : Z := 80.

(** One round of [edges.forEach] building [childrenMap] and [parentMap]. *)
Definition adjacency_step
    (maps : gmap string (list string) * gmap string string) (e : PlanEdge)
    : gmap string (list string) * gmap string string :=
  let '(childrenMap, parentMap) := maps in
  (<[target e := default [] (childrenMap !! target e) ++ [source e]]> childrenMap,
   <[source e := target e]> parentMap).

Definition adjacency (es : list PlanEdge)
    : gmap string (list string) * gmap string string :=
  fold_left adjacency_step es (∅, ∅).

(** [subtreeWidths.get(id) || nodeWidth] *)
Definition width_or_default (subtreeWidths : gmap string Z) (i : string) : Z :=
  match subtreeWidths !! i with
  | Some w => if w =? 0 then nodeWidth else w
  | None => nodeWidth
  end.

Fixpoint calcWidth (childrenMap : gmap string (list string)) (fuel : nat)
    (nodeId : string) (subtreeWidths : gmap string Z)
    : option (Z * gmap string Z) :=
  match fuel with
  | O => None
  | S fuel =>
      match default [] (childrenMap !! nodeId) with
      | [] => Some (nodeWidth, <[nodeId := nodeWidth]> subtreeWidths)
      | chs =>
          match foldM (fun st childId =>
                         match calcWidth childrenMap fuel childId (snd st) with
                         | Some (w, sw) => Some (fst st + w + horizontalGap, sw)
                         | None => None
                         end)
                      chs (- horizontalGap, subtreeWidths) with
          | Some (totalChildWidth, subtreeWidths) =>
              let width := Z.max nodeWidth totalChildWidth in
              Some (width, <[nodeId := width]> subtreeWidths)
          | None => None
          end
      end
  end.

(** [node.position = p] on the node that [find] returns. *)
Fixpoint set_position (ns : list FlowNode) (nodeId : string) (p : Position)
    : list FlowNode :=
  match ns with
  | [] => []
  | n :: r =>
      if String.eqb (node_id n) nodeId
      then mkFlowNode (node_id n) p (data n) (maxCost n) :: r
      else n :: set_position r nodeId p
  end.

(** The state of the second pass: the [positioned] set and the nodes. *)
Definition LayoutState : Type := gset string * list FlowNode.

Fixpoint positionNode (childrenMap : gmap string (list string))
    (subtreeWidths : gmap string Z) (fuel : nat)
    (nodeId : string) (x y : Z) (st : LayoutState) : option LayoutState :=
  match fuel with
  | O => None
  | S fuel =>
      let '(positioned, ns) := st in
      if decide (nodeId ∈ positioned) then Some st
      else
        let positioned := {[nodeId]} ∪ positioned in
        match List.find (fun n => String.eqb (node_id n) nodeId) ns with
        | None => Some (positioned, ns)
        | Some _ =>
            let ns := set_position ns nodeId (mkPosition x y) in
            match default [] (childrenMap !! nodeId) with
            | [] => Some (positioned, ns)
            | chs =>
                let totalChildWidth :=
                  fold_left (fun sum childId =>
                               sum + width_or_default subtreeWidths childId
                               + horizontalGap)
                            chs (- horizontalGap) in
                let childX := x + (nodeWidth - totalChildWidth) / 2 in
                snd <$>
                  foldM (fun acc childId =>
                           let '(childX, st) := acc in
                           let childWidth := width_or_default subtreeWidths childId in
                           let childCenterX := childX + childWidth / 2 - nodeWidth / 2 in
                           match positionNode childrenMap subtreeWidths fuel childId
                                   childCenterX (y + nodeHeight + verticalGap) st with
                           | Some st => Some (childX + childWidth + horizontalGap, st)
                           | None => None
                           end)
                        chs (childX, (positioned, ns))
            end
        end
  end.

(** One round of the last loop: a node that was never reached is stacked
    at [rootX]. *)
Definition orphan_step (positioned : gset string) (rootX : Z)
    (acc : list FlowNode * Z) (n : FlowNode) : list FlowNode * Z :=
  let '(out, orphanY) := acc in
  if decide (node_id n ∈ positioned) then (out ++ [n], orphanY)
  else (out ++ [mkFlowNode (node_id n) (mkPosition rootX orphanY) (data n) (maxCost n)],
        orphanY + nodeHeight + verticalGap).

Definition applyLayout (ns : list FlowNode) (es : list PlanEdge)
    : option (list FlowNode) :=
  let fuel := S (length ns + length es) in
  let '(childrenMap, parentMap) := adjacency es in
  let roots := filter (fun n => parentMap !! node_id n = None) ns in
  match foldM (fun sw root => snd <$> calcWidth childrenMap fuel (node_id root) sw)
              roots ∅ with
  | None => None
  | Some subtreeWidths =>
      match foldM (fun acc root =>
                     let '(rootX, st) := acc in
                     let width := width_or_default subtreeWidths (node_id root) in
                     match positionNode childrenMap subtreeWidths fuel
                             (node_id root) rootX 0 st with
                     | Some st => Some (rootX + width + horizontalGap * 2, st)
                     | None => None
                     end)
                  roots (0, (∅, ns)) with
      | None => None
      | Some (rootX, (positioned, ns)) =>
          Some (fst (fold_left (orphan_step positioned rootX) ns ([], 0)))
      end
  end.

(** ** [parseExplainJSON] *)

Record FlowEdge := mkFlowEdge {
  edge_id : string;
  edge_source : string;
  edge_target : string;
  edge_rows : Z;
  edge_isCriticalPath : bool }.

Record ExplainResult := mkExplainResult {
  flowNodes : list FlowNode;
  flowEdges : list FlowEdge;
  planNodes : list PlanNode;
  totalCost : number }.

Definition flow_edge (planNodes : list PlanNode) (index : nat) (e : PlanEdge)
    : FlowEdge :=
  let sourceNode := find_node planNodes (source e) in
  mkFlowEdge ("edge-" +:+ pretty index) (source e) (target e)
    (default 0 (rows <$> sourceNode))
    (truthy_bool (sourceNode ≫= isCriticalPath)).

(** The counter is reset first, so the incoming value is not read; the
    result is [None] when marking or layout does not terminate. *)
Definition parseExplainJSON (json : MySQLExplainJSON) (nodeIdCounter : nat)
    : option (ExplainResult * nat) :=
  let nodeIdCounter := O in
  let '(result, nodeIdCounter) :=
    parseQueryBlock (query_block json) None nt_select nodeIdCounter in
  match markCriticalPath (nodes result) with
  | None => None
  | Some planNodes =>
      let totalCost := fold_left (fun sum n => num_add sum (cost n)) planNodes num_zero in
      let maxCost := Math_max NInf (map cost planNodes ++ [Fin 1]) in
      let ns := map (fun n => mkFlowNode (id n) (mkPosition 0 0) n maxCost) planNodes in
      match applyLayout ns (edges result) with
      | None => None
      | Some ns =>
          Some (mkExplainResult ns (imap (flow_edge planNodes) (edges result))
                                planNodes totalCost,
                nodeIdCounter)
      end
  end.

(** ** Building plans

    Records with every optional field absent, and the field updates used by
    the examples. *)

Definition readCost (s : string) : CostInfo :=
  mkCostInfo None (Some s) None None None None.

Definition bareTable (name : string) (access : AccessType) : TableInfo :=
  mkTableInfo name access None None None None None None None None None None
    None None None None None None None None.

Definition table_with_cost (t : TableInfo) (ci : CostInfo) : TableInfo :=
  mkTableInfo (ti_table_name t) (ti_access_type t) (ti_possible_keys t)
    (ti_key t) (ti_used_key_parts t) (ti_key_length t) (ti_ref t)
    (ti_rows_examined_per_scan t) (ti_rows_produced_per_join t) (ti_filtered t)
    (Some ci) (ti_used_columns t) (ti_attached_condition t) (ti_using_index t)
    (ti_using_index_condition t) (ti_using_temporary t) (ti_using_filesort t)
    (ti_materialized_from_subquery t) (ti_insert t) (ti_message t).

Definition table_with_rows (t : TableInfo) (examined produced : option Z)
    : TableInfo :=
  mkTableInfo (ti_table_name t) (ti_access_type t) (ti_possible_keys t)
    (ti_key t) (ti_used_key_parts t) (ti_key_length t) (ti_ref t)
    examined produced (ti_filtered t)
    (ti_cost_info t) (ti_used_columns t) (ti_attached_condition t)
    (ti_using_index t) (ti_using_index_condition t) (ti_using_temporary t)
    (ti_using_filesort t) (ti_materialized_from_subquery t) (ti_insert t)
    (ti_message t).

Definition table_materialized_from (t : TableInfo) (b : QueryBlock) : TableInfo :=
  mkTableInfo (ti_table_name t) (ti_access_type t) (ti_possible_keys t)
    (ti_key t) (ti_used_key_parts t) (ti_key_length t) (ti_ref t)
    (ti_rows_examined_per_scan t) (ti_rows_produced_per_join t) (ti_filtered t)
    (ti_cost_info t) (ti_used_columns t) (ti_attached_condition t)
    (ti_using_index t) (ti_using_index_condition t) (ti_using_temporary t)
    (ti_using_filesort t)
    (Some (mkMaterializedFromSubquery true b)) (ti_insert t) (ti_message t).

Definition emptyBlock : QueryBlock :=
  mkQueryBlock None None None None None None None None None None None None None.

Definition block_of_table (t : TableInfo) : QueryBlock :=
  mkQueryBlock None None (Some t) None None None None None None None None None None.

Definition block_of_nested_loop (ts : list TableInfo) : QueryBlock :=
  mkQueryBlock None None None (Some (map mkNestedLoopItem ts)) None None None
    None None None None None None.

Definition block_of_grouping (g : GroupingOperation) : QueryBlock :=
  mkQueryBlock None None None None None (Some g) None None None None None None None.

Definition block_of_ordering (o : OrderingOperation) : QueryBlock :=
  mkQueryBlock None None None None (Some o) None None None None None None None None.

Definition block_with_subqueries (b : QueryBlock) (subs : list QueryBlock)
    : QueryBlock :=
  mkQueryBlock (qb_select_id b) (qb_cost_info b) (qb_table b) (qb_nested_loop b)
    (qb_ordering_operation b) (qb_grouping_operation b) (qb_duplicates_removal b)
    (qb_query_block b) (qb_union_result b)
    (Some (map (mkSubqueryInfo None None None) subs))
    (qb_optimized_away_subqueries b) (qb_attached_subqueries b) (qb_message b).

Definition grouping_of_table (t : TableInfo) : GroupingOperation :=
  mkGroupingOperation None None None (Some t) None None.

Definition ordering_of_table (filesort : bool) (t : TableInfo) : OrderingOperation :=
  mkOrderingOperation filesort None None (Some t) None None None None.

(** ** JSON values and [validateExplainJSON] *)

Inductive JSON :=
| JNull
| JBool (b : bool)
| JNumber (n : number)
| JString (s : string)
| JArray (items : list JSON)
| JObject (members : list (string * JSON)).

(** [v.name] on a parsed value that is not [null]: the last member of that
    name for an object, [undefined] ([None]) for anything else. *)
Fixpoint get_member (name : string) (members : list (string * JSON))
    : option JSON :=
  match members with
  | [] => None
  | (k, v) :: r =>
      match get_member name r with
      | Some v' => Some v'
      | None => if String.eqb k name then Some v else None
      end
  end.

Definition get_property (v : JSON) (name : string) : option JSON :=
  match v with
  | JObject members => get_member name members
  | _ => None
  end.

(** Truthiness of a property that may be [undefined]. *)
Definition truthy_JSON (v : option JSON) : bool :=
  match v with
  | None | Some JNull => false
  | Some (JBool b) => b
  | Some (JNumber n) => truthy_number n
  | Some (JString s) => truthy_string (Some s)
  | Some (JArray _) | Some (JObject _) => true
  end.

Record ValidationResult := mkValidationResult {
  valid : bool;
  error : option string;
  parsed_data : option JSON }.

Definition missing_query_block_error : string :=
  "Invalid MySQL EXPLAIN JSON: missing query_block".

Definition invalid_json_error (message : string) : string :=
  "Invalid JSON: " +:+ message.

(** The message of the [TypeError] raised by reading a property of [null]
    (the text of V8). *)
Definition null_property_message : string :=
  "Cannot read properties of null (reading 'query_block')".

Section Validate.
(** The built-in [JSON.parse]: the value, or the message of the
    [SyntaxError] it throws. *)
Variable JSON_parse : string -> JSON + string.

Definition validateExplainJSON (input : string) : ValidationResult :=
  match JSON_parse input with
  | inl parsed =>
      match parsed with
      | JNull =>
          (* [parsed.query_block] throws inside the [try] block *)
          mkValidationResult false
            (Some (invalid_json_error null_property_message)) None
      | _ =>
          if negb (truthy_JSON (get_property parsed "query_block"))
          then mkValidationResult false (Some missing_query_block_error) None
          else mkValidationResult true None (Some parsed)
      end
  | inr message =>
      mkValidationResult false (Some (invalid_json_error message)) None
  end.
End Validate.

(** *** A reader for JSON texts

    An instance of [JSON.parse] for closed examples: the grammar of RFC 8259
    on byte strings.  An escape [\uXXXX] is stored as the UTF-8 bytes of the
    code unit, and the message of a failure is a fixed text. *)

Definition dquote : ascii := "034"%char.
Definition backslash : ascii := "092"%char.

Definition is_json_space (a : ascii) : bool :=
  let n := nat_of_ascii a in
  ((n =? 32) || (n =? 9) || (n =? 10) || (n =? 13))%nat.

Fixpoint skip_ws (s : string) : string :=
  match s with
  | String a r => if is_json_space a then skip_ws r else s
  | EmptyString => s
  end.

Definition hex_of (a : ascii) : option nat :=
  let n := nat_of_ascii a in
  if ((48 <=? n) && (n <=? 57))%nat then Some (n - 48)%nat
  else if ((65 <=? n) && (n <=? 70))%nat then Some (n - 55)%nat
  else if ((97 <=? n) && (n <=? 102))%nat then Some (n - 87)%nat
  else None.

Definition utf8_of_code_unit (n : nat) : string :=
  if (n <? 128)%nat then String (ascii_of_nat n) EmptyString
  else if (n <? 2048)%nat then
    String (ascii_of_nat (192 + n / 64))
      (String (ascii_of_nat (128 + n mod 64)) EmptyString)
  else
    String (ascii_of_nat (224 + n / 4096))
      (String (ascii_of_nat (128 + (n / 64) mod 64))
         (String (ascii_of_nat (128 + n mod 64)) EmptyString)).

(** The characters after an opening quote, up to the closing one. *)
Fixpoint read_string (s : string) : option (string * string) :=
  match s with
  | EmptyString => None
  | String a r =>
      if Ascii.eqb a dquote then Some (EmptyString, r)
      else if Ascii.eqb a backslash then
        match r with
        | String e r' =>
            let simple (c : ascii) :=
              match read_string r' with
              | Some (body, rest) => Some (String c body, rest)
              | None => None
              end in
            if Ascii.eqb e dquote then simple dquote
            else if Ascii.eqb e backslash then simple backslash
            else if Ascii.eqb e "/" then simple "/"%char
            else if Ascii.eqb e "b" then simple "008"%char
            else if Ascii.eqb e "f" then simple "012"%char
            else if Ascii.eqb e "n" then simple "010"%char
            else if Ascii.eqb e "r" then simple "013"%char
            else if Ascii.eqb e "t" then simple "009"%char
            else if Ascii.eqb e "u" then
              match r' with
              | String h1 (String h2 (String h3 (String h4 r'')) as t3) =>
                  match hex_of h1, hex_of h2, hex_of h3, hex_of h4,
                        read_string r'' with
                  | Some d1, Some d2, Some d3, Some d4, Some (body, rest) =>
                      Some (utf8_of_code_unit
                              (((d1 * 16 + d2) * 16 + d3) * 16 + d4)
                            +:+ body, rest)
                  | _, _, _, _, _ => None
                  end
              | _ => None
              end
            else None
        | EmptyString => None
        end
      else if (nat_of_ascii a <? 32)%nat then None
      else match read_string r with
           | Some (body, rest) => Some (String a body, rest)
           | None => None
           end
  end.

(** [-? int frac? exp?] with no leading zero. *)
Definition read_json_number (s : string) : option (number * string) :=
  let '(neg, u) :=
    match s with
    | String "-" r => (true, r)
    | _ => (false, s)
    end in
  let '(ip, icnt, r1) := read_digits u 0 0 in
  let leading_zero :=
    match u, icnt with
    | String "0" _, S (S _) => true
    | _, _ => false
    end in
  match icnt with
  | O => None
  | _ =>
      if leading_zero then None
      else
        let frac :=
          match r1 with
          | String "." r =>
              let '(m, fcnt, r2) := read_digits r ip 0 in
              match fcnt with
              | O => None
              | _ => Some (m, fcnt, r2)
              end
          | _ => Some (ip, O, r1)
          end in
        match frac with
        | None => None
        | Some (m, fcnt, r2) =>
            let exponent :=
              match r2 with
              | String e r =>
                  if (Ascii.eqb e "e" || Ascii.eqb e "E")%char then
                    let '(eneg, r') :=
                      match r with
                      | String "-" r' => (true, r')
                      | String "+" r' => (false, r')
                      | _ => (false, r)
                      end in
                    let '(v, cnt, r3) := read_digits r' 0 0 in
                    match cnt with
                    | O => None
                    | _ => Some (if eneg then - v else v, r3)
                    end
                  else Some (0, r2)
              | EmptyString => Some (0, r2)
              end in
            match exponent with
            | None => None
            | Some (e, r3) =>
                let q := scale10 m (e - Z.of_nat fcnt) in
                Some (round64 (if neg then (- q)%Q else q), r3)
            end
        end
  end.

Definition read_literal (lit : string) (v : JSON) (s : string)
    : option (JSON * string) :=
  if String.prefix lit s
  then Some (v, String.substring (String.length lit)
                                 (String.length s - String.length lit) s)
  else None.

Fixpoint read_value (fuel : nat) (s : string) : option (JSON * string) :=
  match fuel with
  | O => None
  | S fuel =>
      match s with
      | EmptyString => None
      | String a r =>
          if Ascii.eqb a "n" then read_literal "null" JNull s
          else if Ascii.eqb a "t" then read_literal "true" (JBool true) s
          else if Ascii.eqb a "f" then read_literal "false" (JBool false) s
          else if Ascii.eqb a dquote then
            match read_string r with
            | Some (body, rest) => Some (JString body, rest)
            | None => None
            end
          else if Ascii.eqb a "[" then
            match skip_ws r with
            | String "]" rest => Some (JArray [], rest)
            | r' => match read_elements fuel r' with
                    | Some (l, rest) => Some (JArray l, rest)
                    | None => None
                    end
            end
          else if Ascii.eqb a "{" then
            match skip_ws r with
            | String "}" rest => Some (JObject [], rest)
            | r' => match read_members fuel r' with
                    | Some (l, rest) => Some (JObject l, rest)
                    | None => None
                    end
            end
          else match read_json_number s with
               | Some (n, rest) => Some (JNumber n, rest)
               | None => None
               end
      end
  end

with read_elements (fuel : nat) (s : string) : option (list JSON * string) :=
  match fuel with
  | O => None
  | S fuel =>
      match read_value fuel s with
      | Some (v, rest) =>
          match skip_ws rest with
          | String "," rest' =>
              match read_elements fuel (skip_ws rest') with
              | Some (l, rest'') => Some (v :: l, rest'')
              | None => None
              end
          | String "]" rest' => Some ([v], rest')
          | _ => None
          end
      | None => None
      end
  end

with read_members (fuel : nat) (s : string)
    : option (list (string * JSON) * string) :=
  match fuel with
  | O => None
  | S fuel =>
      match s with
      | String a r =>
          if Ascii.eqb a dquote then
            match read_string r with
            | Some (k, rest) =>
                match skip_ws rest with
                | String ":" rest1 =>
                    match read_value fuel (skip_ws rest1) with
                    | Some (v, rest2) =>
                        match skip_ws rest2 with
                        | String "," rest3 =>
                            match read_members fuel (skip_ws rest3) with
                            | Some (l, rest4) => Some ((k, v) :: l, rest4)
                            | None => None
                            end
                        | String "}" rest3 => Some ([(k, v)], rest3)
                        | _ => None
                        end
                    | None => None
                    end
                | _ => None
                end
            | None => None
            end
          else None
      | EmptyString => None
      end
  end.

Definition JSON_parse_text (input : string) : JSON + string :=
  match read_value (2 * String.length input + 2) (skip_ws input) with
  | Some (v, rest) =>
      match skip_ws rest with
      | EmptyString => inl v
      | _ => inr "Unexpected non-whitespace character after JSON"
      end
  | None => inr "Unexpected token in JSON"
  end.

(** * Notions used by the statements and the proofs *)

(** ** The shape of a parser result

    What a parse function started with counter [c] and attachment point
    [parentId] returns with counter [c']: the nodes carry the names
    [first .. c'] in order, the children of a node are names of later nodes,
    the edges leave distinct nodes, in increasing order, each for
    [parentId] or for an earlier node of the same result, and no node is
    marked yet. *)

Definition edge_ok (c : nat) (parentId : option string) (k : nat)
    (e : PlanEdge) : Prop :=
  source e = node_name k /\
  (parentId = Some (target e) \/
   exists i, target e = node_name i /\ (c < i < k)%nat).

Fixpoint increasing (lo : nat) (ks : list nat) (hi : nat) : Prop :=
  match ks with
  | [] => (lo <= hi)%nat
  | k :: r => (lo < k)%nat /\ increasing k r hi
  end.

Definition parse_ok_from (first c : nat) (parentId : option string)
    (r : ParseResult) (c' : nat) : Prop :=
  (c < first <= S c')%nat /\
  ids_of (nodes r) = node_name <$> seq first (S c' - first) /\
  (forall i n ch, nodes r !! i = Some n -> ch ∈ children n ->
     exists j, ch = node_name j /\ (first + i < j <= c')%nat) /\
  (exists ks, Forall2 (edge_ok c parentId) ks (edges r) /\ increasing c ks c') /\
  Forall (fun n => isCriticalPath n = None) (nodes r).

Definition parse_ok (c : nat) (parentId : option string)
    (out : ParseResult * nat) : Prop :=
  parse_ok_from (S c) c parentId (fst out) (snd out).

(** The graph of a whole parse: names [node-1 .. node-N] in order, children
    later in the list, every edge from a later node to an earlier one. *)
Definition plan_edge_ok (k : nat) (e : PlanEdge) : Prop :=
  source e = node_name k /\
  exists i, target e = node_name i /\ (0 < i < k)%nat.

Definition plan_graph (ns : list PlanNode) (es : list PlanEdge) : Prop :=
  ids_of ns = node_name <$> seq 1 (length ns) /\
  (forall i n ch, ns !! i = Some n -> ch ∈ children n ->
     exists j, ch = node_name j /\ (S i < j <= length ns)%nat) /\
  (exists ks, Forall2 plan_edge_ok ks es /\ increasing 0 ks (length ns)) /\
  Forall (fun n => isCriticalPath n = None) ns.

(** ** The critical path, as the specification words it *)

(** Numbers up to the representation of a rational. *)
Definition num_equiv (a b : number) : Prop :=
  match a, b with
  | NaN, NaN | PInf, PInf | NInf, NInf => True
  | Fin x, Fin y => (x == y)%Q
  | _, _ => False
  end.

(** A cost that is a number and not negative. *)
Definition cost_ok (a : number) : Prop :=
  match a with
  | Fin q => (0 <= q)%Q
  | PInf => True
  | _ => False
  end.

(** Every finite binary64 value is a multiple of [2 ^ -1074]. *)
Definition on_grid (q : Q) : Prop :=
  exists k : Z, (q == inject_Z k * pow2 (-1074))%Q.

Definition grid (a : number) : Prop :=
  match a with
  | Fin q => on_grid q
  | _ => True
  end.

(** [b] or more, possibly infinite. *)
Definition at_least (b : Q) (a : number) : Prop :=
  match a with
  | Fin v => (b <= v)%Q
  | PInf => True
  | _ => False
  end.

(** A binary64 value that is not negative. *)
Definition weight_ok (a : number) : Prop := cost_ok a /\ grid a.

(** The greatest of a list of values, [0] for the empty list. *)
Definition greatest (vs : list number) : number :=
  match vs with
  | [] => num_zero
  | v :: vs => fold_left num_max vs v
  end.

(** The cumulative cost of a node: its own cost plus the greatest
    cumulative cost among its children ([0] for a leaf). *)
Fixpoint cumulative_cost (ns : list PlanNode) (fuel : nat) (i : string)
    : number :=
  match fuel with
  | O => num_zero
  | S fuel =>
      match find_node ns i with
      | None => num_zero
      | Some n =>
          num_add (cost n)
                  (greatest (map (cumulative_cost ns fuel) (children n)))
      end
  end.

(** The first entry whose value no other entry exceeds. *)
Fixpoint first_greatest (l : list (string * number)) : option (string * number) :=
  match l with
  | [] => None
  | x :: r =>
      match first_greatest r with
      | Some y => if num_ltb (snd x) (snd y) then Some y else Some x
      | None => Some x
      end
  end.

(** A root is a node that is the child of no node. *)
Definition is_root (ns : list PlanNode) (n : PlanNode) : Prop :=
  Forall (fun m => id n ∉ children m) ns.

Definition roots_of (ns : list PlanNode) : list PlanNode :=
  filter (is_root ns) ns.

Definition with_value (cum : string -> number) (i : string) : string * number :=
  (i, cum i).

(** From a node, move to the first child of greatest cumulative cost until
    a leaf is reached. *)
Fixpoint greedy_path (ns : list PlanNode) (cum : string -> number)
    (fuel : nat) (i : string) : list string :=
  match fuel with
  | O => []
  | S fuel =>
      match find_node ns i with
      | None => []
      | Some n =>
          i :: match first_greatest (map (with_value cum) (children n)) with
               | Some first => greedy_path ns cum fuel (fst first)
               | None => []
               end
      end
  end.

Definition cumulative (ns : list PlanNode) : string -> number :=
  cumulative_cost ns (S (length ns)).

Definition best_root (ns : list PlanNode) : option (string * number) :=
  first_greatest (map (fun n => with_value (cumulative ns) (id n)) (roots_of ns)).

Definition critical_path (ns : list PlanNode) : list string :=
  match best_root ns with
  | Some first => greedy_path ns (cumulative ns) (S (length ns)) (fst first)
  | None => []
  end.

(** A path from [i] down to a leaf that takes, at each node, the first
    child of greatest cumulative cost. *)
Inductive greedy_chain (ns : list PlanNode) (cum : string -> number)
    : string -> list string -> Prop :=
| chain_leaf i n :
    find_node ns i = Some n -> children n = [] ->
    greedy_chain ns cum i [i]
| chain_step i n first rest :
    find_node ns i = Some n ->
    first_greatest (map (with_value cum) (children n)) = Some first ->
    greedy_chain ns cum (fst first) rest ->
    greedy_chain ns cum i (i :: rest).

(** The nodes of [ns'] are those of [ns], some of them marked. *)
Definition marked_of (ns ns' : list PlanNode) : Prop :=
  Forall2 (fun n n' => n' = n \/ n' = set_isCriticalPath n) ns ns'.

(** What the parser emits for a plan, before marking and layout. *)
Definition emitted (json : MySQLExplainJSON) : ParseResult :=
  fst (parseQueryBlock (query_block json) None nt_select 0).

(** The position given to the node of a name:
    [nodes.find(n => n.id === s)?.position]. *)
Definition nodepos (l : list FlowNode) (s : string) : option Position :=
  position <$> List.find (fun n => String.eqb (node_id n) s) l.

(** The horizontal spans of two nodes overlap. *)
Definition spans_overlap (p q : Position) : Prop :=
  pos_x p < pos_x q + nodeWidth /\ pos_x q < pos_x p + nodeWidth.

(** ** Induction over plans *)

Scheme QueryBlock_mut := Induction for QueryBlock Sort Prop
with TableInfo_mut := Induction for TableInfo Sort Prop
with NestedLoopItem_mut := Induction for NestedLoopItem Sort Prop
with OrderingOperation_mut := Induction for OrderingOperation Sort Prop
with GroupingOperation_mut := Induction for GroupingOperation Sort Prop
with DuplicatesRemoval_mut := Induction for DuplicatesRemoval Sort Prop
with BufferResult_mut := Induction for BufferResult Sort Prop
with UnionResult_mut := Induction for UnionResult Sort Prop
with QuerySpecification_mut := Induction for QuerySpecification Sort Prop
with SubqueryInfo_mut := Induction for SubqueryInfo Sort Prop
with MaterializedFromSubquery_mut :=
  Induction for MaterializedFromSubquery Sort Prop.

Combined Scheme plan_mutind from QueryBlock_mut, TableInfo_mut,
  NestedLoopItem_mut, OrderingOperation_mut, GroupingOperation_mut,
  DuplicatesRemoval_mut, BufferResult_mut, UnionResult_mut,
  QuerySpecification_mut, SubqueryInfo_mut, MaterializedFromSubquery_mut.

(** ** Auxiliary notions of the proofs *)

(** The attachment point of a nested call is the one of the caller or a
    node the caller has already emitted. *)
Definition attached (c0 c : nat) (parentId parentId' : option string) : Prop :=
  parentId' = parentId \/
  exists i, parentId' = Some (node_name i) /\ (c0 < i <= c)%nat.

Definition table_ok (t : TableInfo) : Prop :=
  forall pid c, parse_ok c pid (parseTable t pid c).

Definition block_ok (b : QueryBlock) : Prop :=
  forall pid bt c, parse_ok c pid (parseQueryBlock b pid bt c).

Definition grouping_ok (g : GroupingOperation) : Prop :=
  forall pid c, parse_ok c pid (parseGroupingOperation g pid c).

Definition buffer_ok (b : BufferResult) : Prop :=
  forall pid c, parse_ok c pid (parseBufferResult b pid c).

Definition item_rows (item : NestedLoopItem) : Z := join_rows (nl_table item).

Definition item_cost (item : NestedLoopItem) : number :=
  parseCost (ti_cost_info (nl_table item)).

(** The running values of the reduction of row estimates, from [sum] on,
    stay within [2 ^ 53] in magnitude, where the binary64 product of
    integers is exact. *)
Fixpoint rows_exact (sum : Z) (items : list NestedLoopItem) : Prop :=
  match items with
  | [] => True
  | item :: r =>
      Z.abs (rows_step sum item) <= 2 ^ 53 /\ rows_exact (rows_step sum item) r
  end.

Definition quoted (s : string) : string :=
  String dquote (s +:+ String dquote EmptyString).

(** The text [{"query_block":null}]. *)
Definition null_query_block_text : string :=
  "{" +:+ quoted "query_block" +:+ ":null}".

Definition same_entry (p q : string * number) : Prop :=
  fst p = fst q /\ num_equiv (snd p) (snd q).

Definition costs_ok (ns : list PlanNode) : Prop :=
  Forall (fun n => weight_ok (cost n)) ns.

Definition covers (ns : list PlanNode) (m : gmap string number) : Prop :=
  forall key n, is_Some (m !! key) -> find_node ns key = Some n ->
    forall ch, ch ∈ children n -> is_Some (m !! ch).

Definition entries_ok (ns : list PlanNode) (m : gmap string number) : Prop :=
  forall key w, m !! key = Some w -> num_equiv w (cumulative ns key).

Definition grows (m m' : gmap string number) : Prop :=
  forall key, is_Some (m !! key) -> is_Some (m' !! key).

Definition calc_post (ns : list PlanNode) (i : string)
    (m : gmap string number) (v : number) (m' : gmap string number) : Prop :=
  m' !! i = Some v /\ grows m m' /\ (covers ns m -> covers ns m') /\
  (costs_ok ns -> entries_ok ns m ->
   entries_ok ns m' /\ num_equiv v (cumulative ns i)).

Definition sources_to (es : list PlanEdge) (t : string) : list string :=
  map source (filter (fun e => target e = t) es).

Definition child_of (es : list PlanEdge) (c t : string) : Prop :=
  mkPlanEdge c t ∈ es.

Definition row_below (p q : Position) : Prop :=
  pos_y p = pos_y q + nodeHeight + verticalGap.

(** Every positioned producer has its consumer positioned one row above. *)
Definition lay_inv (ns : list FlowNode) (es : list PlanEdge)
    (st : LayoutState) : Prop :=
  map node_id (snd st) = map node_id ns /\
  map data (snd st) = map data ns /\
  forall c t, child_of es c t -> c ∈ fst st ->
    t ∈ fst st /\
    exists p q, nodepos (snd st) c = Some p /\ nodepos (snd st) t = Some q /\
                row_below p q.

(** Outside [S], the producers of a positioned node are positioned. *)
Definition closed_except (es : list PlanEdge) (S : gset string)
    (st : LayoutState) : Prop :=
  forall c t, child_of es c t -> t ∈ fst st -> t ∉ S -> c ∈ fst st.

Definition frame (st st' : LayoutState) : Prop :=
  fst st ⊆ fst st' /\
  forall s, s ∈ fst st -> nodepos (snd st') s = nodepos (snd st) s.

Definition ready (es : list PlanEdge) (st : LayoutState) (s : string)
    (y : Z) : Prop :=
  s ∉ fst st ->
  forall t, child_of es s t ->
    t ∈ fst st /\ exists q, nodepos (snd st) t = Some q /\
                             y = pos_y q + nodeHeight + verticalGap.

Definition position_post (ns : list FlowNode) (es : list PlanEdge)
    (S : gset string) (s : string) (st st' : LayoutState) : Prop :=
  lay_inv ns es st' /\ closed_except es S st' /\ frame st st' /\ s ∈ fst st'.

(** Every stored subtree width is even. *)
Definition all_even (subtreeWidths : gmap string Z) : Prop :=
  forall key w, subtreeWidths !! key = Some w -> Z.even w = true.

(** A table with both row estimates. *)
Definition orders_table : TableInfo :=
  table_with_rows (bareTable "orders" at_ALL) (Some 1000) (Some 10).

(** A join of a table without estimates with a table producing 7 rows. *)
Definition zero_then_seven : list NestedLoopItem :=
  [mkNestedLoopItem (bareTable "a" at_ALL);
   mkNestedLoopItem (table_with_rows (bareTable "b" at_ALL) None (Some 7))].

(** The join of the repository's test, two tables of cost 25 each, with row
    estimates: 100 examined and 10 produced, and 7 examined. *)
Definition two_quarters : list NestedLoopItem :=
  [mkNestedLoopItem
     (table_with_rows
        (table_with_cost (bareTable "a" at_ALL) (readCost "25.00"))
        (Some 100) (Some 10));
   mkNestedLoopItem
     (table_with_rows
        (table_with_cost (bareTable "b" at_eq_ref) (readCost "25.00"))
        (Some 7) None)].

(** A join of a table of cost 0.1 with a table of cost 0.2. *)
Definition tenth_and_fifth : list NestedLoopItem :=
  [mkNestedLoopItem (table_with_cost (bareTable "a" at_ALL) (readCost "0.1"));
   mkNestedLoopItem (table_with_cost (bareTable "b" at_ALL) (readCost "0.2"))].

Definition users_plan : MySQLExplainJSON :=
  mkMySQLExplainJSON
    (block_of_table
       (table_with_rows
          (table_with_cost (bareTable "users" at_ALL) (readCost "10.50"))
          (Some 100) (Some 100))).

Definition sorted_products_plan : MySQLExplainJSON :=
  mkMySQLExplainJSON
    (block_of_ordering (ordering_of_table true (bareTable "products" at_index))).

Definition empty_plan : MySQLExplainJSON := mkMySQLExplainJSON emptyBlock.

(** A table of cost 10 materialized from a table of cost -5, and beside it
    a subquery on a table of cost 7. *)
Definition negative_cost_plan : MySQLExplainJSON :=
  mkMySQLExplainJSON
    (block_with_subqueries
       (block_of_table
          (table_materialized_from
             (table_with_cost (bareTable "t0" at_ALL) (readCost "10"))
             (block_of_table
                (table_with_cost (bareTable "x" at_ALL) (readCost "-5")))))
       [block_of_table (table_with_cost (bareTable "r2" at_ALL) (readCost "7"))]).

(** A table whose cost is not a number, and beside it a subquery on a
    table of cost 5. *)
Definition corrupt_cost_plan : MySQLExplainJSON :=
  mkMySQLExplainJSON
    (block_with_subqueries
       (block_of_table (table_with_cost (bareTable "a" at_ALL) (readCost "abc")))
       [block_of_table (table_with_cost (bareTable "b" at_ALL) (readCost "5"))]).

(** The plan of the repository's test: a cheap table of cost 1 joined with
    an expensive one of cost 500. *)
Definition cheap_expensive_plan : MySQLExplainJSON :=
  mkMySQLExplainJSON
    (block_of_nested_loop
       [table_with_rows
          (table_with_cost (bareTable "cheap_table" at_const) (readCost "1.00"))
          (Some 1) None;
        table_with_rows
          (table_with_cost (bareTable "expensive_table" at_ALL) (readCost "500.00"))
          (Some 100000) None]).

(** A join of a table of cost 0.3 with a table of cost 0.1 that is
    materialized from a table of cost 0.2. *)
Definition rounding_plan : MySQLExplainJSON :=
  mkMySQLExplainJSON
    (block_of_nested_loop
       [table_with_cost (bareTable "a" at_ALL) (readCost "0.3");
        table_materialized_from
          (table_with_cost (bareTable "b" at_ALL) (readCost "0.1"))
          (block_of_table
             (table_with_cost (bareTable "c" at_ALL) (readCost "0.2")))]).

(** A join of two tables of cost 1e308 each, the second materialized from
    a table of cost 1e308: the cost of the join and the cumulative costs
    overflow. *)
Definition overflow_plan : MySQLExplainJSON :=
  mkMySQLExplainJSON
    (block_of_nested_loop
       [table_with_cost (bareTable "a" at_ALL) (readCost "1e308");
        table_materialized_from
          (table_with_cost (bareTable "b" at_ALL) (readCost "1e308"))
          (block_of_table
             (table_with_cost (bareTable "c" at_ALL) (readCost "1e308")))]).

Definition grouped_sales_plan : MySQLExplainJSON :=
  mkMySQLExplainJSON
    (block_of_grouping (grouping_of_table (bareTable "sales" at_ALL))).

Definition two_joins_plan : MySQLExplainJSON :=
  mkMySQLExplainJSON
    (block_with_subqueries
       (block_of_nested_loop [bareTable "a" at_ALL; bareTable "b" at_ALL])
       [block_of_nested_loop
          [bareTable "c" at_ALL; bareTable "d" at_ALL; bareTable "e" at_ALL]]).

(** * Further notions: the shape of nodes, paths, the geometry of the layout *)

(** ** What an emitted node looks like *)

(** The fields that only a table node fills. *)
Definition no_table_fields (n : PlanNode) : Prop :=
  table n = None /\ accessType n = None /\ key n = None /\
  keyParts n = None /\ condition n = None.

(** Per type, what the parse functions put in a node. *)
Definition node_kind_ok (n : PlanNode) : Prop :=
  match type n with
  | nt_table =>
      exists t, rawData n = RawTable t /\
                table n = Some (ti_table_name t) /\
                accessType n = Some (ti_access_type t) /\
                key n = ti_key t /\ condition n = ti_attached_condition t /\
                rows n = table_rows t /\ cost n = parseCost (ti_cost_info t) /\
                extra n = getExtraInfo t
  | nt_join =>
      (exists items, rawData n = RawItems items /\
                     cost n = fold_left cost_step items num_zero /\
                     rows n = fold_left rows_step items 0) /\
      label n = "Nested Loop Join" /\ extra n = [] /\ no_table_fields n
  | nt_sort =>
      (exists o, rawData n = RawOrdering o /\
                 cost n = parseCost (oo_cost_info o)) /\
      label n = "ORDER BY" /\ rows n = 0 /\ no_table_fields n
  | nt_group =>
      (exists g, rawData n = RawGrouping g /\
                 cost n = parseCost (go_cost_info g)) /\
      label n = "GROUP BY" /\ rows n = 0 /\ no_table_fields n
  | nt_distinct =>
      (exists d, rawData n = RawDuplicates d /\
                 cost n = parseCost (dr_cost_info d)) /\
      label n = "DISTINCT" /\ rows n = 0 /\ no_table_fields n
  | nt_union =>
      label n = "UNION" /\ cost n = num_zero /\ rows n = 0 /\ no_table_fields n
  | nt_buffer =>
      label n = "Buffer Result" /\ cost n = num_zero /\ rows n = 0 /\
      no_table_fields n
  | nt_select | nt_subquery =>
      label n <> EmptyString /\ cost n = num_zero /\ rows n = 0 /\
      extra n = [] /\ children n = [] /\ no_table_fields n
  | nt_temp_table => False
  end.

(** The block types that [parseQueryBlock] is called with. *)
Definition block_type_ok (bt : NodeType) : Prop :=
  bt = nt_select \/ bt = nt_subquery.

Definition table_kinds (t : TableInfo) : Prop :=
  forall pid c, Forall node_kind_ok (nodes (fst (parseTable t pid c))).

Definition block_kinds (b : QueryBlock) : Prop :=
  forall pid bt c, block_type_ok bt ->
    Forall node_kind_ok (nodes (fst (parseQueryBlock b pid bt c))).

Definition grouping_kinds (g : GroupingOperation) : Prop :=
  forall pid c, Forall node_kind_ok (nodes (fst (parseGroupingOperation g pid c))).

Definition buffer_kinds (b : BufferResult) : Prop :=
  forall pid c, Forall node_kind_ok (nodes (fst (parseBufferResult b pid c))).

(** ** What the layout leaves alone *)

(** A node without its position. *)
Definition content (n : FlowNode) : string * PlanNode * number :=
  (node_id n, data n, maxCost n).

(** ** Paths along [children] links *)

(** The ids that [markPath] visits from [nodeId] on: at each node the
    child that the sort by stored cost puts first. *)
Fixpoint visited (nodeCosts : gmap string number) (ns : list PlanNode)
    (fuel : nat) (nodeId : string) : list string :=
  match fuel with
  | O => []
  | S fuel =>
      match find_node ns nodeId with
      | None => []
      | Some node =>
          nodeId ::
          match js_sort by_cost_desc (map (cost_pair nodeCosts) (children node)) with
          | first :: _ => visited nodeCosts ns fuel (fst first)
          | [] => []
          end
      end
  end.

(** A path from [i] down to a node without children, each step to one of
    the children of the node before. *)
Inductive child_chain (ns : list PlanNode) : string -> list string -> Prop :=
| child_chain_leaf i n :
    find_node ns i = Some n -> children n = [] -> child_chain ns i [i]
| child_chain_step i n ch rest :
    find_node ns i = Some n -> ch ∈ children n -> child_chain ns ch rest ->
    child_chain ns i (i :: rest).

(** ** The geometry of the layout *)

(** The sum that [calcWidth] and [positionNode] reduce over the children:
    their widths with a gap between neighbours. *)
Definition children_width (sw : gmap string Z) (chs : list string) : Z :=
  fold_left (fun sum childId =>
               sum + width_or_default sw childId + horizontalGap)
            chs (- horizontalGap).

(** The widths and gaps of a run of children. *)
Fixpoint slot_width (sw : gmap string Z) (chs : list string) : Z :=
  match chs with
  | [] => 0
  | h :: r => width_or_default sw h + horizontalGap + slot_width sw r
  end.

(** Where the slot of child [c] starts, from the left edge of the row of
    children: the widths and gaps of the children before it. *)
Fixpoint slot_start (sw : gmap string Z) (chs : list string) (c : string) : Z :=
  match chs with
  | [] => 0
  | h :: r =>
      if String.eqb h c then 0
      else width_or_default sw h + horizontalGap + slot_start sw r c
  end.

(** The x-coordinate that [positionNode] gives to child [c] of a node
    placed at [x]: the row of children is centred under the node, and the
    child is centred in its slot. *)
Definition child_x (sw : gmap string Z) (chs : list string) (x : Z)
    (c : string) : Z :=
  x + (nodeWidth - children_width sw chs) / 2 + slot_start sw chs c
  + width_or_default sw c / 2 - nodeWidth / 2.

(** Positioned producers stand where [child_x] says, and positioned nodes
    without a consumer stand in the top row. *)
Definition geo_inv (es : list PlanEdge) (sw : gmap string Z)
    (st : LayoutState) : Prop :=
  (forall c t, child_of es c t -> c ∈ fst st ->
     exists p q, nodepos (snd st) c = Some p /\ nodepos (snd st) t = Some q /\
                 pos_x p = child_x sw (sources_to es t) (pos_x q) c) /\
  (forall s, s ∈ fst st -> s ∉ map source es ->
     exists p, nodepos (snd st) s = Some p /\ pos_y p = 0).

(** The coordinates passed for [s] fit the position of its consumer. *)
Definition geo_ready (es : list PlanEdge) (sw : gmap string Z)
    (st : LayoutState) (s : string) (x y : Z) : Prop :=
  s ∉ fst st ->
  (forall t, child_of es s t ->
     exists q, nodepos (snd st) t = Some q /\
               x = child_x sw (sources_to es t) (pos_x q) s) /\
  (s ∉ map source es -> y = 0).

(** Every stored subtree width is at least the width of a node. *)
Definition all_wide (subtreeWidths : gmap string Z) : Prop :=
  forall key w, subtreeWidths !! key = Some w -> nodeWidth <= w.

(** The roots of the layout and the subtree widths that its first pass
    stores, as [applyLayout] computes them. *)
Definition layout_roots (ns : list FlowNode) (es : list PlanEdge)
    : list FlowNode :=
  filter (fun n => snd (adjacency es) !! node_id n = None) ns.

Definition layout_widths (ns : list FlowNode) (es : list PlanEdge)
    : option (gmap string Z) :=
  foldM (fun sw root =>
           snd <$> calcWidth (fst (adjacency es)) (S (length ns + length es))
                     (node_id root) sw)
        (layout_roots ns es) ∅.

(** The width that [calcWidth] returns for a node, read off the edges: the
    width of a node for a node without producers, else the greater of that
    and the widths of its producers with a gap between neighbours. *)
Fixpoint subtree_width (es : list PlanEdge) (fuel : nat) (i : string) : Z :=
  match fuel with
  | O => nodeWidth
  | S fuel =>
      Z.max nodeWidth
        (fold_left (fun sum c => sum + subtree_width es fuel c + horizontalGap)
                   (sources_to es i) (- horizontalGap))
  end.

(** The stored widths are those of [subtree_width]. *)
Definition widths_ok (ns : list FlowNode) (es : list PlanEdge)
    (sw : gmap string Z) : Prop :=
  forall key w, sw !! key = Some w ->
    w = subtree_width es (S (length ns)) key.

(** The producers of a node that has a stored width have one too. *)
Definition widths_closed (es : list PlanEdge) (sw : gmap string Z) : Prop :=
  forall c t, child_of es c t -> is_Some (sw !! t) -> is_Some (sw !! c).

(** [d] is reached from [t] by [n] edges, against their direction. *)
Inductive descends (es : list PlanEdge) : nat -> string -> string -> Prop :=
| descends_here t : descends es 0 t t
| descends_step n d t' t :
    child_of es d t' -> descends es n t' t -> descends es (S n) d t.

(** The slot of a node placed at [p]: the span of its subtree width,
    centred on the node. *)
Definition slot_left (sw : gmap string Z) (s : string) (p : Position) : Z :=
  pos_x p + nodeWidth / 2 - width_or_default sw s / 2.

Definition slot_right (sw : gmap string Z) (s : string) (p : Position) : Z :=
  pos_x p + nodeWidth / 2 + width_or_default sw s / 2.

(** Two nodes of the same row stand apart, with a gap between them. *)
Definition apart (p q : Position) : Prop :=
  pos_x p + nodeWidth + horizontalGap <= pos_x q \/
  pos_x q + nodeWidth + horizontalGap <= pos_x p.

(** ** The details panel ([src/App.tsx]) *)

(** [handleNodeClick]: the plan node shown in the details panel when a
    flow node is clicked, [planNodes.find(n => n.id === node.id) || null]. *)
Definition handleNodeClick (planNodes : list PlanNode) (node : FlowNode)
    : option PlanNode :=
  find_node planNodes (node_id node).

(** * Proofs *)

(** * Binary64 arithmetic *)

Section Binary64.
Local Open Scope Q_scope.

Lemma pow2_pos (e : Z) : 0 < pow2 e.
Proof. apply Qpower_0_lt. reflexivity. Qed.

Lemma pow2_plus (a b : Z) : pow2 (a + b) == pow2 a * pow2 b.
Proof. unfold pow2. apply Qpower_plus. discriminate. Qed.

Lemma pow2_le (a b : Z) : (a <= b)%Z -> pow2 a <= pow2 b.
Proof. intros H. apply Qpower_le_compat_l; [exact H|]. discriminate. Qed.

Lemma pow2_inject (n : Z) : (0 <= n)%Z -> pow2 n == inject_Z (2 ^ n).
Proof. intros H. unfold pow2. symmetry. exact (Zpower_Qpower 2 n H). Qed.

Lemma div_pow2 (a : Q) (e : Z) : a / pow2 e == a * pow2 (- e).
Proof.
  unfold Qdiv. apply Qmult_comp; [reflexivity|]. unfold pow2.
  by rewrite Qpower_opp.
Qed.

Lemma floor_pow2 (x : Q) (n : Z) :
  (0 <= n)%Z -> pow2 n <= x -> (2 ^ n <= Qfloor x)%Z.
Proof.
  intros Hn H. rewrite pow2_inject in H by exact Hn.
  apply Qfloor_resp_le in H. by rewrite Qfloor_Z in H.
Qed.

Lemma nearest_even_floor (x : Q) : (Qfloor x <= nearest_even x)%Z.
Proof.
  unfold nearest_even. destruct (x - inject_Z (Qfloor x) ?= 1 # 2); try lia.
  destruct (Z.even (Qfloor x)); lia.
Qed.

Lemma exponent_of_min (a : Q) : (-1074 <= exponent_of a)%Z.
Proof. unfold exponent_of. lia. Qed.

(** Outside the subnormal range the exponent comes from the logarithm:
    [2 ^ (exponent_of a + 52) <= a]. *)
Lemma exponent_of_lower (a : Q) :
  0 < a -> (-1074 < exponent_of a)%Z -> pow2 (exponent_of a + 52) <= a.
Proof.
  intros Ha He. unfold exponent_of in *.
  set (s := Qfloor (a * pow2 1126)) in *.
  assert (Hs : (0 < s)%Z).
  { destruct (Z.lt_trichotomy s 0) as [H|[H|H]];
      [|rewrite H in He; simpl in He; lia|lia].
    rewrite (Z.log2_nonpos s) in He by lia. lia. }
  replace (Z.max (-1074) (Z.log2 s - 1126 - 52) + 52)%Z
    with (Z.log2 s + -1126)%Z by lia.
  rewrite pow2_plus.
  apply Qle_trans with (inject_Z s * pow2 (-1126)).
  - apply Qmult_le_compat_r; [|apply Qlt_le_weak, pow2_pos].
    rewrite pow2_inject by apply Z.log2_nonneg.
    rewrite <- Zle_Qle. by apply Z.log2_spec.
  - apply Qle_trans with (a * pow2 1126 * pow2 (-1126)).
    + apply Qmult_le_compat_r; [apply Qfloor_le|apply Qlt_le_weak, pow2_pos].
    + rewrite <- Qmult_assoc, <- pow2_plus.
      change (pow2 (1126 + -1126)) with 1. lra.
Qed.

Lemma round64_proper (p q : Q) : p == q -> round64 p = round64 q.
Proof. intros H. unfold round64. by rewrite (Qred_complete _ _ H). Qed.

(** What is rounded is a multiple of [2 ^ -1074]. *)
Lemma round_magnitude_grid (a : Q) : grid (round_magnitude a).
Proof.
  unfold round_magnitude.
  destruct (Qle_bool _ _); [exact I|]. cbn [grid].
  pose proof (exponent_of_min a) as He.
  set (e := exponent_of a) in *. set (m := nearest_even _).
  exists (m * 2 ^ (e + 1074))%Z.
  rewrite Qred_correct, inject_Z_mult, <- pow2_inject by lia.
  rewrite <- Qmult_assoc, <- pow2_plus.
  by replace (e + 1074 + -1074)%Z with e by lia.
Qed.

(** Rounding does not go below a power of two that the number reaches. *)
Lemma round_magnitude_lower (a : Q) (k : Z) :
  0 < a -> (-1074 <= k)%Z -> pow2 k <= a ->
  at_least (pow2 k) (round_magnitude a).
Proof.
  intros Ha Hk Hka. unfold round_magnitude.
  destruct (Qle_bool _ _); [exact I|]. cbn [at_least].
  pose proof (exponent_of_min a) as He.
  pose proof (exponent_of_lower a Ha) as Hlow.
  set (e := exponent_of a) in *.
  rewrite Qred_correct.
  pose proof (nearest_even_floor (a / pow2 e)) as Hm.
  set (m := nearest_even _) in *.
  destruct (Z_le_gt_dec e k) as [Hek|Hek].
  - assert (Hf : (2 ^ (k - e) <= Qfloor (a / pow2 e))%Z).
    { apply floor_pow2; [lia|]. rewrite div_pow2.
      replace (k - e)%Z with (k + - e)%Z by lia. rewrite pow2_plus.
      apply Qmult_le_compat_r; [exact Hka|apply Qlt_le_weak, pow2_pos]. }
    replace k with ((k - e) + e)%Z at 1 by lia. rewrite pow2_plus.
    apply Qmult_le_compat_r; [|apply Qlt_le_weak, pow2_pos].
    rewrite pow2_inject by lia. rewrite <- Zle_Qle. lia.
  - assert (Hf : (2 ^ 52 <= Qfloor (a / pow2 e))%Z).
    { apply floor_pow2; [lia|]. rewrite div_pow2.
      replace 52%Z with ((e + 52) + - e)%Z at 1 by lia. rewrite pow2_plus.
      apply Qmult_le_compat_r; [|apply Qlt_le_weak, pow2_pos].
      apply Hlow. lia. }
    apply Qle_trans with (pow2 e); [apply pow2_le; lia|].
    rewrite <- (Qmult_1_l (pow2 e)) at 1.
    apply Qmult_le_compat_r; [|apply Qlt_le_weak, pow2_pos].
    change 1 with (inject_Z 1). rewrite <- Zle_Qle. lia.
Qed.

Lemma round_magnitude_nonneg (a : Q) : 0 < a -> at_least 0 (round_magnitude a).
Proof.
  intros Ha. unfold round_magnitude.
  destruct (Qle_bool _ _); [exact I|]. cbn [at_least]. rewrite Qred_correct.
  set (e := exponent_of a).
  pose proof (nearest_even_floor (a / pow2 e)) as Hm.
  assert (H0 : (0 <= Qfloor (a / pow2 e))%Z).
  { change 0%Z with (Qfloor 0). apply Qfloor_resp_le.
    apply Qlt_le_weak, Qlt_shift_div_l; [apply pow2_pos|]. lra. }
  apply Qmult_le_0_compat; [|apply Qlt_le_weak, pow2_pos].
  change 0 with (inject_Z 0). rewrite <- Zle_Qle. lia.
Qed.

(** The three cases of [round64], by the sign of the number. *)
Lemma round64_cases (q : Q) :
  (q == 0 /\ round64 q = Fin 0) \/
  (0 < q /\ 0 < Qred q /\ round64 q = round_magnitude (Qred q)) \/
  (q < 0 /\ 0 < - Qred q /\ round64 q = num_neg (round_magnitude (- Qred q))).
Proof.
  unfold round64. pose proof (Qred_correct q) as H.
  destruct (Qred q) as [n d] eqn:E. destruct n as [|n|n]; cbn [Qnum].
  - left. split; [|done]. by rewrite <- H.
  - right. left. split; [|done]. by rewrite <- H.
  - right. right. split; [|done]. by rewrite <- H.
Qed.

Lemma round64_number (q : Q) : round64 q <> NaN.
Proof.
  assert (H : forall a, round_magnitude a <> NaN).
  { intros a. unfold round_magnitude. by destruct (Qle_bool _ _). }
  destruct (round64_cases q) as [[_ ->]|[(_ & _ & ->)|(_ & _ & ->)]];
    [done|apply H|].
  specialize (H (- Qred q)). by destruct (round_magnitude (- Qred q)).
Qed.

Lemma grid_neg (a : number) : grid a -> grid (num_neg a).
Proof.
  destruct a as [| | |x]; simpl; try done. intros [k Hk]. exists (- k)%Z.
  rewrite Hk, inject_Z_opp. ring.
Qed.

Lemma grid_zero : grid num_zero.
Proof. exists 0%Z. reflexivity. Qed.

Lemma round64_grid (q : Q) : grid (round64 q).
Proof.
  destruct (round64_cases q) as [[_ ->]|[(_ & _ & ->)|(_ & _ & ->)]].
  - apply grid_zero.
  - apply round_magnitude_grid.
  - apply grid_neg, round_magnitude_grid.
Qed.

Lemma round64_nonneg (q : Q) : 0 <= q -> cost_ok (round64 q).
Proof.
  intros Hq. destruct (round64_cases q) as [[_ ->]|[(_ & H & ->)|(H & _)]].
  - simpl. lra.
  - pose proof (round_magnitude_nonneg _ H) as Hr.
    by destruct (round_magnitude (Qred q)).
  - lra.
Qed.

(** A positive multiple of [2 ^ -1074] does not round to zero. *)
Lemma round64_positive (q : Q) :
  on_grid q -> 0 < q -> num_ltb num_zero (round64 q) = true.
Proof.
  intros [k Hk] Hq.
  destruct (round64_cases q) as [[H _]|[(_ & H & ->)|(H & _)]]; [lra| |lra].
  assert (Hlow : pow2 (-1074) <= Qred q).
  { rewrite Qred_correct, Hk. rewrite <- (Qmult_1_l (pow2 (-1074))) at 1.
    apply Qmult_le_compat_r; [|apply Qlt_le_weak, pow2_pos].
    change 1 with (inject_Z 1). rewrite <- Zle_Qle.
    destruct (Z_lt_le_dec k 1) as [Hk1|Hk1]; [|done].
    assert (inject_Z k <= 0) by (change 0 with (inject_Z 0); rewrite <- Zle_Qle; lia).
    pose proof (pow2_pos (-1074)). rewrite Hk in Hq. nra. }
  pose proof (round_magnitude_lower _ (-1074) H ltac:(lia) Hlow) as Hr.
  pose proof (pow2_pos (-1074)) as Hp.
  destruct (round_magnitude (Qred q)) as [| | |v]; simpl in *; try done.
  destruct (Qcompare_spec 0 v); try done; lra.
Qed.

Lemma round64_not_positive (q : Q) :
  q <= 0 -> num_ltb num_zero (round64 q) = false.
Proof.
  intros Hq. destruct (round64_cases q) as [[_ ->]|[(H & _)|(_ & H & ->)]].
  - done.
  - lra.
  - pose proof (round_magnitude_nonneg _ H) as Hr.
    destruct (round_magnitude (- Qred q)) as [| | |v]; simpl in *; try done.
    destruct (Qcompare_spec 0 (- v)); try done; lra.
Qed.

Lemma on_grid_sub (x y : Q) : on_grid x -> on_grid y -> on_grid (y + - x).
Proof.
  intros [k Hk] [j Hj]. exists (j - k)%Z. unfold Z.sub.
  rewrite Hk, Hj, inject_Z_plus, inject_Z_opp. ring.
Qed.

(** *** Integers up to [2 ^ 53] *)

Lemma Qred_inject_Z (n : Z) : Qred (inject_Z n) = inject_Z n.
Proof.
  unfold Qred, inject_Z.
  pose proof (Z.ggcd_gcd n 1) as Hg.
  pose proof (Z.ggcd_correct_divisors n 1) as Hd.
  change (Z.pos 1) with 1%Z.
  destruct (Z.ggcd n 1) as [g [aa bb]]. simpl in *.
  rewrite Z.gcd_1_r in Hg. subst g. destruct Hd as [Ha Hb].
  rewrite !Z.mul_1_l in *. by subst.
Qed.

Lemma nearest_even_integer (x : Q) (n : Z) :
  x == inject_Z n -> nearest_even x = n.
Proof.
  intros H. unfold nearest_even. rewrite (Qfloor_comp _ _ H), Qfloor_Z.
  destruct (Qcompare_spec (x - inject_Z n) (1 # 2)) as [E|E|E];
    [lra|done|lra].
Qed.

Lemma exponent_of_integer (n : Z) :
  (0 < n < 2 ^ 53)%Z ->
  exponent_of (inject_Z n) = (Z.log2 n - 52)%Z /\ (Z.log2 n - 52 <= 0)%Z.
Proof.
  intros Hn. unfold exponent_of.
  assert (E : inject_Z n * pow2 1126 == inject_Z (n * 2 ^ 1126)).
  { by rewrite inject_Z_mult, <- pow2_inject. }
  rewrite E, Qfloor_Z, Z.log2_mul_pow2 by lia.
  assert (Hl : (Z.log2 n < 53)%Z) by (apply Z.log2_lt_pow2; lia).
  pose proof (Z.log2_nonneg n). split; lia.
Qed.

Lemma round_magnitude_integer (n : Z) :
  (0 < n <= 2 ^ 53)%Z -> round_magnitude (inject_Z n) = Fin (inject_Z n).
Proof.
  intros Hn. destruct (Z.eq_dec n (2 ^ 53)%Z) as [->|Hne].
  { vm_compute. reflexivity. }
  destruct (exponent_of_integer n) as [He Hle]; [lia|].
  pose proof (Z.log2_nonneg n) as Hl0.
  unfold round_magnitude. rewrite He. set (e := (Z.log2 n - 52)%Z) in *.
  assert (Hx : inject_Z n / pow2 e == inject_Z (n * 2 ^ (- e))).
  { rewrite div_pow2, inject_Z_mult, <- pow2_inject by lia. reflexivity. }
  rewrite (nearest_even_integer _ _ Hx).
  assert (Hv : inject_Z (n * 2 ^ (- e)) * pow2 e == inject_Z n).
  { rewrite inject_Z_mult, <- pow2_inject by lia.
    rewrite <- Qmult_assoc, <- pow2_plus.
    replace (- e + e)%Z with 0%Z by lia. change (pow2 0) with 1. ring. }
  rewrite (Qred_complete _ _ Hv), Qred_inject_Z.
  destruct (Qle_bool (pow2 1024) (inject_Z n)) eqn:Hb; [|done].
  apply Qle_bool_iff in Hb. rewrite pow2_inject in Hb by lia.
  rewrite <- Zle_Qle in Hb.
  assert ((2 ^ 53 < 2 ^ 1024)%Z) by (apply Z.pow_lt_mono_r; lia). lia.
Qed.

(** An integer of magnitude at most [2 ^ 53] is a binary64 value. *)
Lemma integer_exact (n : Z) :
  (Z.abs n <= 2 ^ 53)%Z -> round64 (inject_Z n) = Fin (inject_Z n).
Proof.
  intros Hn. unfold round64. rewrite Qred_inject_Z.
  destruct n as [|p|p]; cbn [Qnum inject_Z].
  - done.
  - apply (round_magnitude_integer (Z.pos p)). lia.
  - change (round_magnitude _) with (round_magnitude (inject_Z (Z.pos p))).
    rewrite round_magnitude_integer by lia. done.
Qed.
End Binary64.

(** The binary64 product of two integers is their product when that is of
    magnitude at most [2 ^ 53]. *)
Lemma integer_product_exact (a b : Z) :
  Z.abs (a * b) <= 2 ^ 53 ->
  num_mul (Fin (inject_Z a)) (Fin (inject_Z b)) = Fin (inject_Z (a * b)).
Proof.
  intros H. cbn [num_mul].
  rewrite (round64_proper _ (inject_Z (a * b))); [by apply integer_exact|].
  by rewrite inject_Z_mult.
Qed.

Lemma grid_add (a b : number) : grid (num_add a b).
Proof.
  destruct a as [| | |x], b as [| | |y]; simpl; try done. apply round64_grid.
Qed.

(** On binary64 values, [b - a] is positive exactly when [a < b]: the
    difference of two distinct values does not round to zero. *)
Lemma num_ltb_sub (a b : number) :
  grid a -> grid b -> num_ltb num_zero (num_sub b a) = num_ltb a b.
Proof.
  destruct a as [| | |x], b as [| | |y]; simpl; try done. intros Hx Hy.
  destruct (Qcompare_spec x y) as [H|H|H].
  - apply round64_not_positive. lra.
  - apply round64_positive; [by apply on_grid_sub|lra].
  - apply round64_not_positive. lra.
Qed.

(** ** What [parseFloat] and [parseCost] return *)

Lemma parseFloat_grid (s : string) : grid (parseFloat s).
Proof.
  unfold parseFloat. destruct (read_sign (trim_start s)) as [neg u].
  destruct (String.prefix "Infinity" u); [by destruct neg|].
  destruct (read_unsigned u) as [q|]; [apply round64_grid|done].
Qed.

Lemma parseCost_grid (ci : option CostInfo) : grid (parseCost ci).
Proof.
  destruct ci as [ci|]; simpl; [|apply grid_zero].
  destruct (truthy_string (cost_field ci)); [apply parseFloat_grid|apply grid_zero].
Qed.

(** * Properties *)

(** ** Node names *)

Lemma node_name_inj (j k : nat) : node_name j = node_name k -> j = k.
Proof.
  unfold node_name. intros H.
  apply (inj (String.append "node-")) in H.
  by apply (inj pretty) in H.
Qed.

Lemma node_name_truthy (k : nat) : truthy_string (Some (node_name k)) = true.
Proof. reflexivity. Qed.

Lemma edge_to_node (src : string) (k : nat) :
  edge_to src (Some (node_name k)) = [mkPlanEdge src (node_name k)].
Proof. reflexivity. Qed.

(** ** Increasing sequences of counter values *)

Lemma increasing_le lo ks hi : increasing lo ks hi -> (lo <= hi)%nat.
Proof.
  revert lo. induction ks as [|k r IH]; simpl; intros lo H; [lia|].
  destruct H as [H1 H2]. apply IH in H2. lia.
Qed.

Lemma increasing_lower lo lo' ks hi :
  (lo' <= lo)%nat -> increasing lo ks hi -> increasing lo' ks hi.
Proof. destruct ks; simpl; intros; [lia | intuition lia]. Qed.

Lemma increasing_upper lo ks hi hi' :
  (hi <= hi')%nat -> increasing lo ks hi -> increasing lo ks hi'.
Proof.
  revert lo. induction ks as [|k r IH]; simpl; intros lo Hle H; [lia|].
  destruct H; split; auto.
Qed.

Lemma increasing_app lo ks1 mid ks2 hi :
  increasing lo ks1 mid -> increasing mid ks2 hi ->
  increasing lo (ks1 ++ ks2) hi.
Proof.
  revert lo. induction ks1 as [|k r IH]; simpl; intros lo H1 H2.
  - by apply (increasing_lower mid).
  - destruct H1; split; auto.
Qed.

Lemma increasing_bounds lo ks hi k :
  increasing lo ks hi -> k ∈ ks -> (lo < k <= hi)%nat.
Proof.
  revert lo. induction ks as [|k' r IH]; simpl; intros lo H Hin.
  - by apply elem_of_nil in Hin.
  - destruct H as [H1 H2]. apply elem_of_cons in Hin as [->|Hin].
    + apply increasing_le in H2. lia.
    + apply (IH _ H2) in Hin. lia.
Qed.

Lemma increasing_NoDup lo ks hi : increasing lo ks hi -> NoDup ks.
Proof.
  revert lo. induction ks as [|k r IH]; simpl; intros lo H; [constructor|].
  destruct H as [H1 H2]. constructor; [|by eapply IH].
  intros Hin. apply (increasing_bounds _ _ _ _ H2) in Hin. lia.
Qed.

(** A loop over a concatenation is the loops over its parts in turn, and a
    loop over [x || []] with [x] absent does nothing. *)
Lemma parse_each_app {A} (f : A -> option string -> nat -> ParseResult * nat)
    (l1 l2 : list A) (pid : option string) (acc : ParseResult) (c : nat) :
  parse_each f (l1 ++ l2) pid acc c
  = parse_each f l2 pid (fst (parse_each f l1 pid acc c))
                        (snd (parse_each f l1 pid acc c)).
Proof.
  unfold parse_each. rewrite fold_left_app.
  by destruct (fold_left _ l1 (acc, c)).
Qed.

(** [allSubqueries.forEach] over [[...(a || []), ...(b || []), ...(c || [])]]
    is the three guarded loops of [parseQueryBlock]. *)
Lemma parse_each_all {A} (f : A -> option string -> nat -> ParseResult * nat)
    (a b c : option (list A)) (pid : option string) (st : ParseResult * nat) :
  let each := fun (x : option (list A)) (st : ParseResult * nat) =>
    match x with
    | Some l => parse_each f l pid (fst st) (snd st)
    | None => st
    end in
  parse_each f (default [] a ++ default [] b ++ default [] c) pid (fst st) (snd st)
  = each c (each b (each a st)).
Proof.
  simpl. rewrite !parse_each_app.
  assert (H : forall (x : option (list A)) (s : ParseResult * nat),
            parse_each f (default [] x) pid (fst s) (snd s)
            = match x with
              | Some l => parse_each f l pid (fst s) (snd s)
              | None => s
              end).
  { intros [l|] s; [done|]. by destruct s. }
  by rewrite !H.
Qed.

(** ** Composition of parser results *)

Lemma edge_ok_attached c0 c lo hi pid pid' ks es :
  attached c0 c pid pid' -> (c0 <= c)%nat -> (c <= lo)%nat ->
  increasing lo ks hi ->
  Forall2 (edge_ok c pid') ks es -> Forall2 (edge_ok c0 pid) ks es.
Proof.
  intros Hat Hc0 Hlo Hinc HF. revert lo Hlo Hinc.
  induction HF as [|k e ks es [Hs Ht] HF IH]; intros lo Hlo Hinc; [constructor|].
  destruct Hinc as [Hk Hinc]. constructor.
  - split; [done|]. destruct Ht as [Ht|(i & Hi & Hb)].
    + destruct Hat as [->|(i & -> & Hi)]; [by left|].
      right. exists i. inversion Ht; subst. split; [done|lia].
    + right. exists i. split; [done|lia].
  - apply (IH k); [lia|done].
Qed.

Lemma edge_to_ok c pid :
  exists ks, Forall2 (edge_ok c pid) ks (edge_to (node_name (S c)) pid)
             /\ increasing c ks (S c).
Proof.
  unfold edge_to. destruct pid as [p|].
  - destruct (truthy_string (Some p)).
    + exists [S c]. split; [|simpl; lia].
      constructor; [|constructor]. split; [done|by left].
    + exists []. split; [constructor|simpl; lia].
  - exists []. split; [constructor|simpl; lia].
Qed.

Lemma parse_ok_empty c pid : parse_ok_from (S c) c pid no_result c.
Proof.
  split; [lia|]. split; [by rewrite Nat.sub_diag|].
  split; [intros i n ch H; by destruct i|].
  split; [|constructor].
  exists []. split; [constructor|simpl; lia].
Qed.

Lemma parse_ok_pending c pid :
  parse_ok_from (S (S c)) c pid
    (mkParseResult [] (edge_to (node_name (S c)) pid)) (S c).
Proof.
  split; [lia|]. split; [by rewrite Nat.sub_diag|].
  split; [intros i n ch H; by destruct i|].
  split; [apply edge_to_ok|constructor].
Qed.

Lemma parse_ok_push first c0 pid acc c pid' r c' :
  parse_ok_from first c0 pid acc c ->
  parse_ok_from (S c) c pid' r c' ->
  attached c0 c pid pid' ->
  parse_ok_from first c0 pid (push_result acc r) c'.
Proof.
  intros (Hb1 & Hid1 & Hch1 & (ks1 & HF1 & Hi1) & Hm1)
         (Hb2 & Hid2 & Hch2 & (ks2 & HF2 & Hi2) & Hm2) Hat.
  assert (Hlen : length (nodes acc) = (S c - first)%nat).
  { unfold ids_of in Hid1. apply (f_equal length) in Hid1.
    by rewrite length_map, length_fmap, length_seq in Hid1. }
  assert (Hcc : (c0 <= c)%nat) by (by apply increasing_le in Hi1).
  split; [lia|]. split; [|split; [|split]].
  4: { simpl. by apply Forall_app. }
  - unfold ids_of, push_result in *; simpl. rewrite map_app, Hid1, Hid2.
    rewrite <- fmap_app. f_equal.
    replace (S c' - first)%nat with ((S c - first) + (S c' - S c))%nat by lia.
    rewrite seq_app. do 2 f_equal. lia.
  - intros i n ch Hn Hin. simpl in Hn. apply lookup_app_Some in Hn as [Hn|[Hge Hn]].
    + destruct (Hch1 _ _ _ Hn Hin) as (j & -> & Hj). exists j. split; [done|lia].
    + destruct (Hch2 _ _ _ Hn Hin) as (j & -> & Hj). exists j. split; [done|lia].
  - exists (ks1 ++ ks2). simpl. split.
    + apply Forall2_app; [done|].
      by apply (edge_ok_attached c0 c c c' pid pid').
    + by eapply increasing_app.
Qed.

Lemma parse_ok_cons c pid n acc c' :
  parse_ok_from (S (S c)) c pid acc c' ->
  id n = node_name (S c) ->
  (forall ch, ch ∈ children n ->
     exists j, ch = node_name j /\ (S c < j <= c')%nat) ->
  isCriticalPath n = None ->
  parse_ok_from (S c) c pid (mkParseResult (n :: nodes acc) (edges acc)) c'.
Proof.
  intros (Hb & Hid & Hch & Hes & Hum) Hn Hchn Hnm.
  split; [lia|]. split; [|split; [|split; [done|by constructor]]].
  - unfold ids_of in *. simpl. rewrite Hid, Hn.
    replace (c' - c)%nat with (S (S c' - S (S c)))%nat by lia. done.
  - intros [|i] m ch Hm Hin; simpl in Hm.
    + inversion Hm; subst m. destruct (Hchn _ Hin) as (j & -> & Hj).
      exists j. split; [done|lia].
    + destruct (Hch _ _ _ Hm Hin) as (j & -> & Hj). exists j. split; [done|lia].
Qed.

Lemma parse_ok_single c pid n :
  id n = node_name (S c) -> children n = [] -> isCriticalPath n = None ->
  parse_ok_from (S c) c pid
    (mkParseResult [n] (edge_to (node_name (S c)) pid)) (S c).
Proof.
  intros Hn Hch Hm.
  apply (parse_ok_cons c pid n (mkParseResult [] _) (S c) (parse_ok_pending c pid) Hn);
    [|done].
  intros ch Hin. rewrite Hch in Hin. by apply elem_of_nil in Hin.
Qed.

Lemma attached_self c pid : attached c (S c) pid (Some (node_name (S c))).
Proof. right. exists (S c). split; [done|lia]. Qed.

Lemma attached_later c0 c c' pid pid' :
  (c <= c')%nat -> attached c0 c pid pid' -> attached c0 c' pid pid'.
Proof.
  intros Hle [->|(i & -> & Hi)]; [by left|]. right. exists i. split; [done|lia].
Qed.

Lemma parse_ok_counter first c pid r c' :
  parse_ok_from first c pid r c' -> (c <= c')%nat.
Proof. intros (_ & _ & _ & (ks & _ & Hi) & _). by apply increasing_le in Hi. Qed.

Lemma parse_opt_ok {A} (f : A -> option string -> nat -> ParseResult * nat)
    (x : option A) first c0 pid pid' acc c :
  parse_ok_from first c0 pid acc c ->
  attached c0 c pid pid' ->
  (forall a, x = Some a -> forall c1, parse_ok c1 pid' (f a pid' c1)) ->
  parse_ok_from first c0 pid (fst (parse_opt f x pid' acc c))
                (snd (parse_opt f x pid' acc c)) /\
  (c <= snd (parse_opt f x pid' acc c))%nat.
Proof.
  intros Hacc Hat Hf. destruct x as [a|]; simpl; [|done].
  specialize (Hf a eq_refl c). unfold parse_ok in Hf.
  destruct (f a pid' c) as [r c1]. simpl in *.
  split; [by eapply parse_ok_push|by eapply parse_ok_counter].
Qed.

Lemma parse_each_ok {A} (f : A -> option string -> nat -> ParseResult * nat)
    (l : list A) first c0 pid pid' acc c :
  parse_ok_from first c0 pid acc c ->
  attached c0 c pid pid' ->
  Forall (fun a => forall c1, parse_ok c1 pid' (f a pid' c1)) l ->
  parse_ok_from first c0 pid (fst (parse_each f l pid' acc c))
                (snd (parse_each f l pid' acc c)) /\
  (c <= snd (parse_each f l pid' acc c))%nat.
Proof.
  unfold parse_each. intros Hacc Hat Hf. revert acc c Hacc Hat.
  induction Hf as [|a l Ha Hf IH]; intros acc c Hacc Hat; simpl; [done|].
  specialize (Ha c). unfold parse_ok in Ha.
  destruct (f a pid' c) as [r c1]. simpl in *.
  pose proof (parse_ok_counter _ _ _ _ _ Ha) as Hc.
  destruct (IH (push_result acc r) c1) as [H1 H2].
  - by eapply parse_ok_push.
  - by eapply attached_later.
  - split; [done|lia].
Qed.

Lemma parseNestedLoop_with_ok
    (parseTable : TableInfo -> option string -> nat -> ParseResult * nat)
    (items : list NestedLoopItem) :
  Forall (fun item => forall pid c, parse_ok c pid (parseTable (nl_table item) pid c))
         items ->
  forall pid c, parse_ok c pid (parseNestedLoop_with parseTable items pid c).
Proof.
  intros Hitems pid c. unfold parseNestedLoop_with.
  destruct items as [|item [|item2 rest]].
  - apply parse_ok_empty.
  - inversion Hitems; subst. auto.
  - remember (item :: item2 :: rest) as items eqn:Heq. clear Heq.
    unfold parse_join, generateId.
    set (joinId := node_name (S c)).
    assert (Hfold : forall res chs c1,
      parse_ok_from (S (S c)) c pid res c1 ->
      (S c <= c1)%nat ->
      (forall ch, ch ∈ chs -> exists j, ch = node_name j /\ (S c < j <= c1)%nat) ->
      let st := fold_left (join_step parseTable joinId) items (res, chs, c1) in
      parse_ok_from (S (S c)) c pid (fst (fst st)) (snd st) /\
      (forall ch, ch ∈ snd (fst st) ->
         exists j, ch = node_name j /\ (S c < j <= snd st)%nat)).
    { induction Hitems as [|it its Hit Hits IH]; intros res chs c1 Hres Hc1 Hchs; simpl.
      - done.
      - specialize (Hit (Some joinId) c1). unfold parse_ok in Hit.
        destruct (parseTable (nl_table it) (Some joinId) c1) as [tr c2] eqn:Htr.
        simpl in Hit. pose proof (parse_ok_counter _ _ _ _ _ Hit) as Hc2.
        apply IH.
        + eapply parse_ok_push; [done|done|].
          right. exists (S c). split; [done|lia].
        + lia.
        + intros ch Hin. apply elem_of_app in Hin as [Hin|Hin].
          * destruct (Hchs _ Hin) as (j & -> & Hj). exists j. split; [done|lia].
          * destruct Hit as (_ & Hid & _). rewrite Hid in Hin.
            apply list_elem_of_fmap in Hin as (j & -> & Hj).
            apply elem_of_seq in Hj. exists j. split; [done|lia]. }
    specialize (Hfold _ [] (S c) (parse_ok_pending c pid) (le_n _)).
    simpl in Hfold. subst joinId.
    destruct (fold_left (join_step parseTable (node_name (S c))) items
               (mkParseResult [] (edge_to (node_name (S c)) pid), [], S c))
      as [[res chs] c2] eqn:Hst.
    destruct Hfold as [Hres Hchs].
    { intros ch Hin. by apply elem_of_nil in Hin. }
    simpl in *. unfold parse_ok. simpl.
    by apply parse_ok_cons.
Qed.

(** ** Every parse function returns a well-shaped result *)

Lemma option_all_Some {A : Set} (P : A -> Prop) (x : option A) (a : A) :
  option_all A P x -> x = Some a -> P a.
Proof. intros H E. destruct H; congruence. Qed.

Lemma list_all_Forall {A : Set} (P : A -> Prop) (l : list A) :
  list_all A P l -> Forall P l.
Proof. induction 1; constructor; auto. Qed.

Lemma option_list_all_Forall {A : Set} (P : A -> Prop) (x : option (list A)) l :
  option_all (list A) (list_all A P) x -> x = Some l -> Forall P l.
Proof. intros H E. destruct H; [|congruence]. inversion E; subst. by apply list_all_Forall. Qed.

Lemma parse_functions_ok :
  (forall b, block_ok b) /\ (forall t, table_ok t) /\
  (forall i, table_ok (nl_table i)) /\
  (forall o, (forall t, oo_table o = Some t -> table_ok t) /\
             (forall l, oo_nested_loop o = Some l ->
                        Forall (fun i => table_ok (nl_table i)) l) /\
             (forall g, oo_grouping_operation o = Some g -> grouping_ok g)) /\
  (forall g, grouping_ok g) /\
  (forall d, (forall t, dr_table d = Some t -> table_ok t) /\
             (forall l, dr_nested_loop d = Some l ->
                        Forall (fun i => table_ok (nl_table i)) l)) /\
  (forall b, buffer_ok b) /\
  (forall u, forall l, ur_query_specifications u = Some l ->
                       Forall (fun s => block_ok (qs_query_block s)) l) /\
  (forall s, block_ok (qs_query_block s)) /\
  (forall s, block_ok (sq_query_block s)) /\
  (forall m, block_ok (mf_query_block m)).
Proof.
  apply plan_mutind.
  - (* QueryBlock *)
    intros sid ci t Ht nl Hnl oo Hoo g Hg dr Hdr qb Hqb ur Hur
           s1 Hs1 s2 Hs2 s3 Hs3 msg pid bt c.
    simpl. destruct oo as [oo0|]; [|destruct g as [g0|]; [|destruct dr as [dr0|];
      [|destruct ur as [ur0|]]]].
    + (* ordering stage *)
      destruct (option_all_Some _ _ _ Hoo eq_refl) as (Hot & Honl & Hog).
      assert (Hnested : parse_ok (S c) (Some (node_name (S c)))
                match oo_nested_loop oo0 with
                | Some items => parseNestedLoop_with parseTable items
                                  (Some (node_name (S c))) (S c)
                | None => (no_result, S c)
                end).
      { destruct (oo_nested_loop oo0) as [items|].
        - apply parseNestedLoop_with_ok. by apply Honl.
        - apply parse_ok_empty. }
      destruct (match oo_nested_loop oo0 with
                | Some items => _ | None => _ end) as [nested c0].
      unfold parse_ok in Hnested; simpl in Hnested.
      pose proof (parse_ok_counter _ _ _ _ _ Hnested) as Hc0.
      pose proof (parse_ok_push _ _ _ _ _ _ _ _ (parse_ok_pending c pid)
                    Hnested (attached_self c pid)) as Hacc.
      pose proof (parse_opt_ok parseGroupingOperation (oo_grouping_operation oo0)
                    _ _ _ (Some (node_name (S c))) _ _ Hacc) as Hacc1.
      destruct (parse_opt parseGroupingOperation _ _ _ c0) as [acc c1].
      simpl in Hacc1.
      destruct Hacc1 as [Hacc1 Hc1];
        [right; exists (S c); split; [done|lia]
        |exact (fun a Ha => Hog a Ha (Some (node_name (S c))))|].
      pose proof (parse_opt_ok parseTable (oo_table oo0)
                    _ _ _ (Some (node_name (S c))) _ _ Hacc1) as Hacc2.
      destruct (parse_opt parseTable _ _ acc c1) as [acc0 c2].
      simpl in Hacc2.
      destruct Hacc2 as [Hacc2 Hc2];
        [right; exists (S c); split; [done|lia]
        |exact (fun a Ha => Hot a Ha (Some (node_name (S c))))|].
      apply parse_ok_cons; [done|done| |done].
      simpl. intros ch Hin. destruct Hnested as (_ & Hid & _).
      rewrite Hid in Hin. apply list_elem_of_fmap in Hin as (j & -> & Hj).
      apply elem_of_seq in Hj. exists j. split; [done|lia].
    + (* grouping stage *)
      exact (option_all_Some _ _ _ Hg eq_refl pid c).
    + (* duplicates removal *)
      destruct (option_all_Some _ _ _ Hdr eq_refl) as (Hdt & Hdnl).
      match goal with |- context [mkParseResult [?n] _] =>
        pose proof (parse_ok_single c pid n eq_refl eq_refl eq_refl) as Hacc end.
      pose proof (parse_opt_ok (parseNestedLoop_with parseTable) (dr_nested_loop dr0)
                    _ _ _ (Some (node_name (S c))) _ _ Hacc) as Hacc1.
      destruct (parse_opt (parseNestedLoop_with parseTable) _ _ _ (S c)) as [acc c1].
      simpl in Hacc1.
      destruct Hacc1 as [Hacc1 Hc1];
        [apply attached_self
        |intros items Hi; apply parseNestedLoop_with_ok; by apply Hdnl|].
      pose proof (parse_opt_ok parseTable (dr_table dr0)
                    _ _ _ (Some (node_name (S c))) _ _ Hacc1) as Hacc2.
      destruct (parse_opt parseTable _ _ acc c1) as [acc0 c2].
      simpl in Hacc2.
      destruct Hacc2 as [Hacc2 Hc2];
        [right; exists (S c); split; [done|lia]
        |exact (fun a Ha => Hdt a Ha (Some (node_name (S c))))|].
      done.
    + (* union *)
      pose proof (option_all_Some _ _ _ Hur eq_refl) as Hspecs.
      match goal with |- context [mkParseResult [?n] _] =>
        pose proof (parse_ok_single c pid n eq_refl eq_refl eq_refl) as Hacc end.
      destruct (ur_query_specifications ur0) as [specs|] eqn:Especs; [|done].
      pose proof (parse_each_ok
                    (fun spec p => parseQueryBlock (qs_query_block spec) p nt_select)
                    specs _ _ _ (Some (node_name (S c))) _ _ Hacc
                    (attached_self c pid)) as [H _]; [|exact H].
      eapply Forall_impl; [exact (Hspecs _ Especs)|]. intros sp Hsp c1. apply Hsp.
    + (* joins, tables, subqueries, nested block, message *)
      pose proof (parse_opt_ok (parseNestedLoop_with parseTable) nl
                    _ _ _ pid _ _ (parse_ok_empty c pid)) as Hacc1.
      destruct (parse_opt (parseNestedLoop_with parseTable) nl pid no_result c)
        as [acc1 c1]. simpl in Hacc1.
      destruct Hacc1 as [Hacc1 Hc1];
        [by left
        |intros items Hi; apply parseNestedLoop_with_ok;
         by apply (option_list_all_Forall _ _ _ Hnl)|].
      pose proof (parse_opt_ok parseTable t _ _ _ pid _ _ Hacc1) as Hacc2.
      destruct (parse_opt parseTable t pid acc1 c1) as [acc2 c2]. simpl in Hacc2.
      destruct Hacc2 as [Hacc2 Hc2];
        [by left|intros a Ha; by apply (option_all_Some _ _ _ Ht)|].
      assert (Hsub : forall (subs : option (list SubqueryInfo)) acc c',
                option_all _ (list_all _ (fun s => block_ok (sq_query_block s))) subs ->
                parse_ok_from (S c) c pid acc c' ->
                let st := match subs with
                          | Some l =>
                              parse_each
                                (fun sub p => parseQueryBlock (sq_query_block sub) p
                                                              nt_subquery)
                                l pid acc c'
                          | None => (acc, c')
                          end in
                parse_ok_from (S c) c pid (fst st) (snd st)).
      { intros subs acc c' Hsubs Hacc. destruct subs as [l|]; [|done]. simpl.
        apply parse_each_ok; [done|by left|].
        eapply Forall_impl; [by apply (option_list_all_Forall _ _ _ Hsubs)|].
        intros sb Hsb c3. apply Hsb. }
      pose proof (Hsub s1 _ _ Hs1 Hacc2) as Hacc3. simpl in Hacc3.
      destruct (match s1 with Some l => _ | None => _ end) as [acc3 c3].
      pose proof (Hsub s2 _ _ Hs2 Hacc3) as Hacc4. simpl in Hacc4.
      destruct (match s2 with Some l => _ | None => _ end) as [acc4 c4].
      pose proof (Hsub s3 _ _ Hs3 Hacc4) as Hacc5. simpl in Hacc5.
      destruct (match s3 with Some l => _ | None => _ end) as [acc5 c5].
      simpl in Hacc5.
      match goal with |- context [parse_opt ?f qb pid acc5 c5] =>
        pose proof (parse_opt_ok f qb _ _ _ pid _ _ Hacc5) as Hacc6;
        destruct (parse_opt f qb pid acc5 c5) as [acc6 c6]
      end.
      simpl in Hacc6.
      destruct Hacc6 as [Hacc6 Hc6];
        [by left|intros a Ha c7; by apply (option_all_Some _ _ _ Hqb)|].
      destruct msg as [m|]; [|exact Hacc6].
      destruct (nodes acc6) eqn:Hn6; [|exact Hacc6].
      destruct m as [|a m]; [exact Hacc6|].
      unfold parse_ok. simpl.
      eapply parse_ok_push; [done| |by left].
      by apply parse_ok_single.
  - (* TableInfo *)
    intros name access pk k ukp kl rf ex pr fl ci uc ac ui uic ut uf mf Hmf ins msg
           pid c.
    simpl.
    assert (Hsub : parse_ok (S c) (Some (node_name (S c)))
              match mf with
              | Some m => parseQueryBlock (mf_query_block m)
                            (Some (node_name (S c))) nt_subquery (S c)
              | None => (no_result, S c)
              end).
    { destruct mf as [m|]; [|apply parse_ok_empty].
      apply (option_all_Some _ _ _ Hmf eq_refl). }
    destruct (match mf with Some m => _ | None => _ end) as [sub c1].
    unfold parse_ok in *; simpl in *.
    pose proof (parse_ok_push _ _ _ _ _ _ _ _ (parse_ok_pending c pid)
                  Hsub (attached_self c pid)) as Hacc.
    match goal with |- parse_ok_from _ _ _ (mkParseResult (?n :: _) _) _ =>
      refine (parse_ok_cons c pid n _ c1 Hacc eq_refl _ eq_refl) end.
    simpl. intros ch Hin. destruct Hsub as (_ & Hid & _).
    rewrite Hid in Hin. apply list_elem_of_fmap in Hin as (j & -> & Hj).
    apply elem_of_seq in Hj. exists j. split; [done|lia].
  - (* NestedLoopItem *)
    intros t Ht. exact Ht.
  - (* OrderingOperation *)
    intros fs tt ci t Ht nl Hnl g Hg dr _ br _. simpl.
    split; [|split].
    + intros t' E. by apply (option_all_Some _ _ _ Ht).
    + intros l E. by apply (option_list_all_Forall _ _ _ Hnl).
    + intros g' E. by apply (option_all_Some _ _ _ Hg).
  - (* GroupingOperation *)
    intros fs tt ci t Ht nl Hnl br Hbr pid c. simpl.
    match goal with |- context [mkParseResult [?n] _] =>
      pose proof (parse_ok_single c pid n eq_refl eq_refl eq_refl) as Hacc end.
    match goal with |- context [parse_opt ?f nl ?p ?acc (S c)] =>
      pose proof (parse_opt_ok f nl _ _ _ p _ _ Hacc) as Hacc1;
      destruct (parse_opt f nl p acc (S c)) as [acc1 c1]
    end.
    simpl in Hacc1.
    destruct Hacc1 as [Hacc1 Hc1];
      [apply attached_self
      |intros items Hi; apply parseNestedLoop_with_ok;
       by apply (option_list_all_Forall _ _ _ Hnl)|].
    match goal with |- context [parse_opt ?f t ?p acc1 c1] =>
      pose proof (parse_opt_ok f t _ _ _ p _ _ Hacc1) as Hacc2;
      destruct (parse_opt f t p acc1 c1) as [acc2 c2]
    end.
    simpl in Hacc2.
    destruct Hacc2 as [Hacc2 Hc2];
      [right; exists (S c); split; [done|lia]
      |intros a Ha; by apply (option_all_Some _ _ _ Ht)|].
    apply parse_opt_ok; [done|right; exists (S c); split; [done|lia]|].
    intros a Ha. by apply (option_all_Some _ _ _ Hbr).
  - (* DuplicatesRemoval *)
    intros fs tt ci t Ht nl Hnl. simpl. split.
    + intros t' E. by apply (option_all_Some _ _ _ Ht).
    + intros l E. by apply (option_list_all_Forall _ _ _ Hnl).
  - (* BufferResult *)
    intros tt t Ht nl Hnl pid c. simpl.
    match goal with |- context [mkParseResult [?n] _] =>
      pose proof (parse_ok_single c pid n eq_refl eq_refl eq_refl) as Hacc end.
    match goal with |- context [parse_opt ?f nl ?p ?acc (S c)] =>
      pose proof (parse_opt_ok f nl _ _ _ p _ _ Hacc) as Hacc1;
      destruct (parse_opt f nl p acc (S c)) as [acc1 c1]
    end.
    simpl in Hacc1.
    destruct Hacc1 as [Hacc1 Hc1];
      [apply attached_self
      |intros items Hi; apply parseNestedLoop_with_ok;
       by apply (option_list_all_Forall _ _ _ Hnl)|].
    apply parse_opt_ok; [done|right; exists (S c); split; [done|lia]|].
    intros a Ha. by apply (option_all_Some _ _ _ Ht).
  - (* UnionResult *)
    intros tt name access specs Hspecs l E. simpl in E.
    by apply (option_list_all_Forall _ _ _ Hspecs).
  - intros d cc b Hb. exact Hb.
  - intros d cc tt b Hb. exact Hb.
  - intros tt b Hb. exact Hb.
Qed.

Lemma parseQueryBlock_ok (b : QueryBlock) pid bt c :
  parse_ok c pid (parseQueryBlock b pid bt c).
Proof. apply parse_functions_ok. Qed.

Lemma parseTable_ok (t : TableInfo) pid c : parse_ok c pid (parseTable t pid c).
Proof. apply parse_functions_ok. Qed.

(** ** The kinds of nodes *)

Lemma parse_opt_kinds {A} (f : A -> option string -> nat -> ParseResult * nat)
    (x : option A) (pid : option string) (acc : ParseResult) (c : nat) :
  Forall node_kind_ok (nodes acc) ->
  (forall a, x = Some a -> forall c1, Forall node_kind_ok (nodes (fst (f a pid c1)))) ->
  Forall node_kind_ok (nodes (fst (parse_opt f x pid acc c))).
Proof.
  intros Hacc Hf. destruct x as [a|]; simpl; [|done].
  specialize (Hf a eq_refl c). destruct (f a pid c) as [r c1]. simpl in *.
  by apply Forall_app.
Qed.

Lemma parse_each_kinds {A} (f : A -> option string -> nat -> ParseResult * nat)
    (l : list A) (pid : option string) (acc : ParseResult) (c : nat) :
  Forall node_kind_ok (nodes acc) ->
  Forall (fun a => forall c1, Forall node_kind_ok (nodes (fst (f a pid c1)))) l ->
  Forall node_kind_ok (nodes (fst (parse_each f l pid acc c))).
Proof.
  unfold parse_each. intros Hacc Hf. revert acc c Hacc.
  induction Hf as [|a l Ha Hf IH]; intros acc c Hacc; simpl; [done|].
  specialize (Ha c). destruct (f a pid c) as [r c1]. simpl in *.
  apply IH. simpl. by apply Forall_app.
Qed.

Local Ltac kind_node :=
  unfold node_kind_ok; simpl; repeat first [done | split | eexists].

Lemma parseNestedLoop_with_kinds (items : list NestedLoopItem)
    (pid : option string) (c : nat) :
  Forall (fun i => table_kinds (nl_table i)) items ->
  Forall node_kind_ok (nodes (fst (parseNestedLoop_with parseTable items pid c))).
Proof.
  intros Hitems. unfold parseNestedLoop_with.
  destruct items as [|i1 [|i2 rest]]; [constructor| |].
  - inversion Hitems; subst. auto.
  - change (Forall node_kind_ok (nodes (fst (parse_join parseTable (i1 :: i2 :: rest) pid c)))).
    remember (i1 :: i2 :: rest) as items eqn:Heq. clear Heq.
    unfold parse_join, generateId.
    assert (Hfold : forall acc,
              Forall node_kind_ok (nodes (fst (fst acc))) ->
              Forall node_kind_ok
                (nodes (fst (fst (fold_left (join_step parseTable (node_name (S c)))
                                            items acc))))).
    { induction Hitems as [|i l Hi _ IH]; intros acc Hacc; simpl; [done|].
      apply IH. destruct acc as [[res chs] c0]. unfold join_step.
      specialize (Hi (Some (node_name (S c))) c0).
      destruct (parseTable (nl_table i) (Some (node_name (S c))) c0) as [r c1].
      simpl in *. by apply Forall_app. }
    specialize (Hfold (mkParseResult [] (edge_to (node_name (S c)) pid), [], S c)
                      (Forall_nil_2 _)).
    destruct (fold_left _ items _) as [[res chs] c']. simpl in *.
    constructor; [|done]. kind_node.
Qed.

Local Ltac kinds_step H :=
  match goal with |- context [parse_opt ?f ?x ?p ?a ?c] =>
    pose proof (parse_opt_kinds f x p a c) as H;
    destruct (parse_opt f x p a c) as [? ?]; simpl in H
  end.

Lemma parse_functions_kinds :
  (forall b, block_kinds b) /\ (forall t, table_kinds t) /\
  (forall i, table_kinds (nl_table i)) /\
  (forall o, (forall t, oo_table o = Some t -> table_kinds t) /\
             (forall l, oo_nested_loop o = Some l ->
                        Forall (fun i => table_kinds (nl_table i)) l) /\
             (forall g, oo_grouping_operation o = Some g -> grouping_kinds g)) /\
  (forall g, grouping_kinds g) /\
  (forall d, (forall t, dr_table d = Some t -> table_kinds t) /\
             (forall l, dr_nested_loop d = Some l ->
                        Forall (fun i => table_kinds (nl_table i)) l)) /\
  (forall b, buffer_kinds b) /\
  (forall u, forall l, ur_query_specifications u = Some l ->
                       Forall (fun s => block_kinds (qs_query_block s)) l) /\
  (forall s, block_kinds (qs_query_block s)) /\
  (forall s, block_kinds (sq_query_block s)) /\
  (forall m, block_kinds (mf_query_block m)).
Proof.
  apply plan_mutind.
  - (* QueryBlock *)
    intros sid ci t Ht nl Hnl oo Hoo g Hg dr Hdr qb Hqb ur Hur
           s1 Hs1 s2 Hs2 s3 Hs3 msg pid bt c Hbt.
    simpl. destruct oo as [oo0|]; [|destruct g as [g0|]; [|destruct dr as [dr0|];
      [|destruct ur as [ur0|]]]].
    + destruct (option_all_Some _ _ _ Hoo eq_refl) as (Hot & Honl & Hog).
      assert (Hnested : Forall node_kind_ok (nodes (fst
                match oo_nested_loop oo0 with
                | Some items => parseNestedLoop_with parseTable items
                                  (Some (node_name (S c))) (S c)
                | None => (no_result, S c)
                end))).
      { destruct (oo_nested_loop oo0) as [items|]; [|constructor].
        apply parseNestedLoop_with_kinds. by apply Honl. }
      destruct (match oo_nested_loop oo0 with
                | Some items => _ | None => _ end) as [nested c0].
      simpl in Hnested.
      match goal with |- context [parse_opt parseGroupingOperation ?x ?p ?a c0] =>
        pose proof (parse_opt_kinds parseGroupingOperation x p a c0) as Hacc1;
        destruct (parse_opt parseGroupingOperation x p a c0) as [acc c1]
      end.
      simpl in Hacc1.
      assert (Hacc1' : Forall node_kind_ok (nodes acc)).
      { apply Hacc1; [done|]. intros a Ha c2. by apply Hog. }
      match goal with |- context [parse_opt parseTable ?x ?p acc c1] =>
        pose proof (parse_opt_kinds parseTable x p acc c1 Hacc1') as Hacc2;
        destruct (parse_opt parseTable x p acc c1) as [acc0 c2]
      end.
      simpl in *. constructor; [kind_node|].
      apply Hacc2. intros a Ha c3. by apply Hot.
    + exact (option_all_Some _ _ _ Hg eq_refl pid c).
    + destruct (option_all_Some _ _ _ Hdr eq_refl) as (Hdt & Hdnl).
      match goal with |- context [parse_opt (parseNestedLoop_with parseTable) ?x ?p ?a (S c)] =>
        pose proof (parse_opt_kinds (parseNestedLoop_with parseTable) x p a (S c)) as Hacc1;
        destruct (parse_opt (parseNestedLoop_with parseTable) x p a (S c)) as [acc c1]
      end.
      simpl in Hacc1. apply parse_opt_kinds.
      * apply Hacc1; [constructor; [kind_node|constructor]|].
        intros items Hi c2. apply parseNestedLoop_with_kinds. by apply Hdnl.
      * intros a Ha c2. by apply Hdt.
    + pose proof (option_all_Some _ _ _ Hur eq_refl) as Hspecs.
      destruct (ur_query_specifications ur0) as [specs|] eqn:Especs.
      * apply parse_each_kinds; [constructor; [kind_node|constructor]|].
        eapply Forall_impl; [exact (Hspecs _ Especs)|].
        intros sp Hsp c1. apply Hsp. by left.
      * simpl. constructor; [kind_node|constructor].
    + match goal with |- context [parse_opt (parseNestedLoop_with parseTable) nl pid ?a c] =>
        pose proof (parse_opt_kinds (parseNestedLoop_with parseTable) nl pid a c) as Hacc1;
        destruct (parse_opt (parseNestedLoop_with parseTable) nl pid a c) as [acc1 c1]
      end.
      simpl in Hacc1.
      assert (Hacc1' : Forall node_kind_ok (nodes acc1)).
      { apply Hacc1; [constructor|]. intros items Hi c2.
        apply parseNestedLoop_with_kinds.
        by apply (option_list_all_Forall _ _ _ Hnl). }
      pose proof (parse_opt_kinds parseTable t pid acc1 c1 Hacc1') as Hacc2.
      destruct (parse_opt parseTable t pid acc1 c1) as [acc2 c2]. simpl in Hacc2.
      assert (Hacc2' : Forall node_kind_ok (nodes acc2)).
      { apply Hacc2. intros a Ha c3. by apply (option_all_Some _ _ _ Ht). }
      assert (Hsub : forall (subs : option (list SubqueryInfo)) acc c',
                option_all _ (list_all _ (fun s => block_kinds (sq_query_block s))) subs ->
                Forall node_kind_ok (nodes acc) ->
                Forall node_kind_ok (nodes (fst
                  match subs with
                  | Some l =>
                      parse_each
                        (fun sub p => parseQueryBlock (sq_query_block sub) p
                                                      nt_subquery)
                        l pid acc c'
                  | None => (acc, c')
                  end))).
      { intros subs acc c' Hsubs Hacc. destruct subs as [l|]; [|done].
        apply parse_each_kinds; [done|].
        eapply Forall_impl; [by apply (option_list_all_Forall _ _ _ Hsubs)|].
        intros sb Hsb c3. apply Hsb. by right. }
      pose proof (Hsub s1 _ c2 Hs1 Hacc2') as Hacc3. simpl in Hacc3.
      destruct (match s1 with Some l => _ | None => _ end) as [acc3 c3].
      pose proof (Hsub s2 _ c3 Hs2 Hacc3) as Hacc4. simpl in Hacc4.
      destruct (match s2 with Some l => _ | None => _ end) as [acc4 c4].
      pose proof (Hsub s3 _ c4 Hs3 Hacc4) as Hacc5. simpl in Hacc5.
      destruct (match s3 with Some l => _ | None => _ end) as [acc5 c5].
      simpl in Hacc5.
      match goal with |- context [parse_opt ?f qb pid acc5 c5] =>
        pose proof (parse_opt_kinds f qb pid acc5 c5 Hacc5) as Hacc6;
        destruct (parse_opt f qb pid acc5 c5) as [acc6 c6]
      end.
      simpl in Hacc6.
      assert (Hacc6' : Forall node_kind_ok (nodes acc6)).
      { apply Hacc6. intros a Ha c7. apply (option_all_Some _ _ _ Hqb Ha). by left. }
      destruct msg as [m|]; [|exact Hacc6'].
      destruct (nodes acc6) eqn:Hn6; [|by rewrite <- Hn6 in Hacc6'].
      destruct m as [|a m]; [simpl; by rewrite Hn6|].
      simpl. rewrite Hn6. simpl. constructor; [|constructor].
      unfold node_kind_ok. simpl.
      destruct Hbt as [-> | ->]; by repeat split.
  - (* TableInfo *)
    intros name access pk k ukp kl rf ex pr fl ci uc ac ui uic ut uf mf Hmf ins msg
           pid c.
    simpl.
    assert (Hsub : Forall node_kind_ok (nodes (fst
              match mf with
              | Some m => parseQueryBlock (mf_query_block m)
                            (Some (node_name (S c))) nt_subquery (S c)
              | None => (no_result, S c)
              end))).
    { destruct mf as [m|]; [|constructor].
      apply (option_all_Some _ _ _ Hmf eq_refl). by right. }
    destruct (match mf with Some m => _ | None => _ end) as [sub c1].
    simpl in *. constructor; [|done].
    unfold node_kind_ok. simpl. eexists. split; [reflexivity|]. by repeat split.
  - intros t Ht. exact Ht.
  - intros fs tt ci t Ht nl Hnl g Hg dr _ br _. simpl.
    split; [|split].
    + intros t' E. by apply (option_all_Some _ _ _ Ht).
    + intros l E. by apply (option_list_all_Forall _ _ _ Hnl).
    + intros g' E. by apply (option_all_Some _ _ _ Hg).
  - (* GroupingOperation *)
    intros fs tt ci t Ht nl Hnl br Hbr pid c. simpl.
    kinds_step Hacc1.
    assert (Hacc1' : Forall node_kind_ok (nodes p)).
    { apply Hacc1; [constructor; [kind_node|constructor]|].
      intros items Hi c1. apply parseNestedLoop_with_kinds.
      by apply (option_list_all_Forall _ _ _ Hnl). }
    kinds_step Hacc2.
    apply parse_opt_kinds.
    + apply Hacc2; [done|]. intros a Ha c1. by apply (option_all_Some _ _ _ Ht).
    + intros a Ha c1. by apply (option_all_Some _ _ _ Hbr).
  - intros fs tt ci t Ht nl Hnl. simpl. split.
    + intros t' E. by apply (option_all_Some _ _ _ Ht).
    + intros l E. by apply (option_list_all_Forall _ _ _ Hnl).
  - (* BufferResult *)
    intros tt t Ht nl Hnl pid c. simpl.
    kinds_step Hacc1.
    apply parse_opt_kinds.
    + apply Hacc1; [constructor; [kind_node|constructor]|].
      intros items Hi c1. apply parseNestedLoop_with_kinds.
      by apply (option_list_all_Forall _ _ _ Hnl).
    + intros a Ha c1. by apply (option_all_Some _ _ _ Ht).
  - intros tt name access specs Hspecs l E. simpl in E.
    by apply (option_list_all_Forall _ _ _ Hspecs).
  - intros d cc b Hb. exact Hb.
  - intros d cc tt b Hb. exact Hb.
  - intros tt b Hb. exact Hb.
Qed.

(** Every cost that the parser emits is a binary64 value. *)
Lemma fold_cost_step_grid (items : list NestedLoopItem) (a : number) :
  grid a -> grid (fold_left cost_step items a).
Proof.
  revert a. induction items as [|i items IH]; intros a Ha; simpl; [done|].
  apply IH, grid_add.
Qed.

Lemma node_kind_grid (n : PlanNode) : node_kind_ok n -> grid (cost n).
Proof.
  unfold node_kind_ok. destruct (type n).
  - intros (_ & -> & _). apply grid_zero.
  - intros (t & _ & _ & _ & _ & _ & _ & -> & _). apply parseCost_grid.
  - intros [(items & _ & -> & _) _]. apply fold_cost_step_grid, grid_zero.
  - intros [(o & _ & ->) _]. apply parseCost_grid.
  - intros [(g & _ & ->) _]. apply parseCost_grid.
  - intros [(d & _ & ->) _]. apply parseCost_grid.
  - intros (_ & -> & _). apply grid_zero.
  - intros (_ & -> & _). apply grid_zero.
  - done.
  - intros (_ & -> & _). apply grid_zero.
Qed.

Lemma emitted_kinds (json : MySQLExplainJSON) :
  Forall node_kind_ok (nodes (emitted json)).
Proof.
  destruct parse_functions_kinds as [Hb _]. apply Hb. by left.
Qed.

Lemma emitted_grid (json : MySQLExplainJSON) :
  Forall (fun n => grid (cost n)) (nodes (emitted json)).
Proof.
  eapply Forall_impl; [apply emitted_kinds|]. apply node_kind_grid.
Qed.

(** ** Cost extraction *)

Lemma read_digits_count (s : string) (acc : Z) (cnt : nat) :
  (cnt <= snd (fst (read_digits s acc cnt)))%nat /\
  (starts_with_digit s = true -> (cnt < snd (fst (read_digits s acc cnt)))%nat) /\
  (starts_with_digit s = false -> read_digits s acc cnt = (acc, cnt, s)).
Proof.
  revert acc cnt. induction s as [|a r IH]; intros acc cnt; simpl.
  - split; [lia|]. split; [discriminate|done].
  - destruct (digit_of a) as [d|]; simpl.
    + destruct (IH (10 * acc + d) (S cnt)) as (H1 & _ & _).
      split; [lia|]. split; [intros _; lia|discriminate].
    + split; [lia|]. split; [discriminate|done].
Qed.

Lemma read_unsigned_None (u : string) :
  read_unsigned u = None <->
  starts_with_digit u = false /\
  match u with
  | String a r => Ascii.eqb a "." && starts_with_digit r
  | EmptyString => false
  end = false.
Proof.
  unfold read_unsigned.
  destruct (starts_with_digit u) eqn:Hd.
  - destruct (read_digits_count u 0 0) as (_ & H & _). specialize (H Hd).
    destruct (read_digits u 0 0) as [[ip icnt] r1]. simpl in H.
    destruct icnt as [|icnt]; [lia|].
    split; [|intros [? _]; discriminate].
    destruct (read_fraction ip (S icnt) r1) as [[m fcnt] r2]. discriminate.
  - destruct (read_digits_count u 0 0) as (_ & _ & H). rewrite (H Hd).
    destruct u as [|a r]; [done|]. simpl.
    destruct (Ascii.eqb a ".").
    + destruct (starts_with_digit r) eqn:Hr.
      * destruct (read_digits_count r 0 0) as (_ & H' & _). specialize (H' Hr).
        destruct (read_digits r 0 0) as [[m fcnt] r2]. simpl in H'.
        destruct fcnt; [lia|]. split; [discriminate|intros [_ ?]; discriminate].
      * destruct (read_digits_count r 0 0) as (_ & _ & H'). rewrite (H' Hr). done.
    + done.
Qed.

Lemma parseFloat_NaN (s : string) :
  parseFloat s = NaN <-> has_numeric_prefix s = false.
Proof.
  unfold parseFloat, has_numeric_prefix.
  destruct (read_sign (trim_start s)) as [neg u]. simpl.
  destruct (String.prefix "Infinity" u).
  - simpl. split; [by destruct neg|discriminate].
  - simpl. rewrite orb_false_iff. rewrite <- read_unsigned_None.
    destruct (read_unsigned u) as [q|]; split; try done.
    intros H. by apply round64_number in H.
Qed.

(** White space before the number is skipped, whatever its encoding takes:
    a no-break space (U+00A0, two bytes) before [7] gives [7]. *)
Lemma parseFloat_no_break_space :
  parseFloat (String (ascii_of_nat 194) (String (ascii_of_nat 160) "7")) = Fin 7 /\
  has_numeric_prefix (String (ascii_of_nat 194) (String (ascii_of_nat 160) "7"))
  = true.
Proof. split; vm_compute; reflexivity. Qed.

(** C5, as stated, fails: a cost that is not a number is extracted as [NaN],
    not as zero. *)
Lemma non_numeric_cost_not_zero :
  parseCost (Some (readCost "abc")) = NaN /\
  parseCost (Some (readCost "abc")) <> num_zero /\
  num_eqb (parseCost (Some (readCost "abc"))) num_zero = false.
Proof. repeat split; discriminate. Qed.

Lemma parseTable_head (t : TableInfo) (pid : option string) (c : nat) :
  exists n rest es c',
    parseTable t pid c
    = (mkParseResult (n :: rest) (edge_to (node_name (S c)) pid ++ es), c') /\
    id n = node_name (S c) /\ type n = nt_table /\
    cost n = parseCost (ti_cost_info t) /\ rows n = table_rows t /\
    label n = (if truthy_string (Some (ti_table_name t)) then ti_table_name t
               else "Unknown Table") /\
    table n = Some (ti_table_name t) /\
    accessType n = Some (ti_access_type t) /\ key n = ti_key t /\
    keyParts n = ti_used_key_parts t /\
    condition n = ti_attached_condition t /\ extra n = getExtraInfo t /\
    rawData n = RawTable t /\
    (ti_materialized_from_subquery t = None -> rest = [] /\ es = [] /\ c' = S c).
Proof.
  destruct t as [name access pk k ukp kl rf ex pr fl ci uc ac ui uic ut uf mf ins msg].
  simpl. destruct mf as [m|]; simpl.
  - destruct (parseQueryBlock (mf_query_block m) _ _ _) as [sub c1].
    eexists _, _, _, _. split; [reflexivity|]. simpl. by repeat split.
  - eexists _, _, _, _. split; [reflexivity|]. by repeat split.
Qed.

Lemma num_add_NaN_l (a : number) : num_add NaN a = NaN.
Proof. by destruct a. Qed.

Lemma num_add_NaN_r (a : number) : num_add a NaN = NaN.
Proof. by destruct a. Qed.

(** A sum with a term that is not a number is not a number. *)
Lemma fold_add_NaN (vs : list number) (a : number) :
  NaN ∈ vs -> fold_left num_add vs a = NaN.
Proof.
  assert (H0 : forall l, fold_left num_add l NaN = NaN).
  { induction l as [|w l IH]; simpl; [done|]. by rewrite IH. }
  revert a. induction vs as [|v vs IH]; intros a Hin; simpl.
  - by apply elem_of_nil in Hin.
  - apply elem_of_cons in Hin as [<-|Hin]; [|by apply IH].
    by rewrite num_add_NaN_r.
Qed.

(** The table node with another cost record: only the cost and the record
    kept in [rawData] change. *)
Lemma parseTable_cost_only (t : TableInfo) (ci' : CostInfo)
    (pid : option string) (c : nat) :
  exists n n' rest es c',
    parseTable t pid c = (mkParseResult (n :: rest) es, c') /\
    parseTable (table_with_cost t ci') pid c = (mkParseResult (n' :: rest) es, c') /\
    cost n' = parseCost (Some ci') /\
    id n' = id n /\ type n' = type n /\ label n' = label n /\ rows n' = rows n /\
    table n' = table n /\ accessType n' = accessType n /\ key n' = key n /\
    keyParts n' = keyParts n /\ condition n' = condition n /\
    extra n' = extra n /\ children n' = children n /\
    isCriticalPath n' = isCriticalPath n.
Proof.
  destruct t as [name access pk k ukp kl rf ex pr fl ci uc ac ui uic ut uf mf ins msg].
  unfold table_with_cost. simpl. destruct mf as [m|]; simpl.
  - destruct (parseQueryBlock (mf_query_block m) _ _ _) as [sub c1].
    eexists _, _, _, _, _. split; [reflexivity|]. split; [reflexivity|].
    by repeat split.
  - eexists _, _, _, _, _. split; [reflexivity|]. split; [reflexivity|].
    by repeat split.
Qed.

(** ** Nested-loop joins *)

Lemma join_fold (joinId : string) (items : list NestedLoopItem)
    (res : ParseResult) (chs : list string) (c : nat) :
  exists rs c',
    fold_left (join_step parseTable joinId) items (res, chs, c)
    = (mkParseResult (nodes res ++ concat (map nodes rs))
                     (edges res ++ concat (map edges rs)),
       chs ++ concat (map (fun r => ids_of (nodes r)) rs), c') /\
    Forall2 (fun item r => exists ci ci',
               parseTable (nl_table item) (Some joinId) ci = (r, ci'))
            items rs.
Proof.
  revert res chs c. induction items as [|item items IH]; intros res chs c.
  - exists [], c. simpl. rewrite !app_nil_r. split; [by destruct res|constructor].
  - simpl. destruct (parseTable (nl_table item) (Some joinId) c) as [r c1] eqn:E.
    destruct (IH (push_result res r) (chs ++ ids_of (nodes r)) c1)
      as (rs & c' & Hfold & Hrs).
    exists (r :: rs), c'. split.
    + rewrite Hfold. simpl. by rewrite <- !app_assoc.
    + constructor; [by exists c, c1|done].
Qed.

(** What [parseNestedLoop] returns for two or more entries: the join node
    first, then what the entries give. *)
Lemma parse_join_shape (items : list NestedLoopItem)
    (pid : option string) (c : nat) :
  (2 <= length items)%nat ->
  exists joinNode rs c',
    parseNestedLoop items pid c
    = (mkParseResult (joinNode :: concat (map nodes rs))
                     (edge_to (id joinNode) pid ++ concat (map edges rs)), c') /\
    id joinNode = node_name (S c) /\ type joinNode = nt_join /\
    cost joinNode = fold_left num_add (map item_cost items) num_zero /\
    rows joinNode = fold_left rows_step items 0 /\
    children joinNode = concat (map (fun r => ids_of (nodes r)) rs) /\
    Forall2 (fun item r =>
               exists n rest es,
                 r = mkParseResult (n :: rest)
                       (mkPlanEdge (id n) (id joinNode) :: es) /\
                 type n = nt_table /\ rawData n = RawTable (nl_table item) /\
                 (ti_materialized_from_subquery (nl_table item) = None ->
                  rest = [] /\ es = []))
            items rs.
Proof.
  intros Hlen. unfold parseNestedLoop.
  destruct items as [|i1 [|i2 rest]]; simpl in Hlen; [lia|lia|].
  change (parseNestedLoop_with parseTable (i1 :: i2 :: rest) pid c)
    with (parse_join parseTable (i1 :: i2 :: rest) pid c).
  remember (i1 :: i2 :: rest) as items eqn:Heq.
  unfold parse_join, generateId.
  destruct (join_fold (node_name (S c)) items
              (mkParseResult [] (edge_to (node_name (S c)) pid)) [] (S c))
    as (rs & c' & Hfold & Hrs).
  rewrite Hfold. simpl.
  match goal with |- context [mkParseResult (?n :: _) _] =>
    exists n, rs, c' end.
  split; [reflexivity|]. simpl.
  split; [done|]. split; [done|]. split; [|split; [done|split; [done|]]].
  + unfold item_cost. clear. generalize num_zero.
    induction items as [|i items IH]; intros a; simpl; [done|apply IH].
  + eapply Forall2_impl; [exact Hrs|]. intros item r (ci & ci' & E).
    destruct (parseTable_head (nl_table item) (Some (node_name (S c))) ci)
      as (n & rs' & es & c1 & E' & Hid & Hty & _ & _ & _ & _ & _ & _ & _ & _ & _ & Hraw & Hmf).
    rewrite E in E'. inversion E'; subst r.
    exists n, rs', es. split; [by rewrite Hid|].
    split; [done|]. split; [done|]. intros Hn. by destruct (Hmf Hn) as (? & ? & _).
Qed.

(** C5 (amended): when the cost field that [parseCost] reads is present and
    does not begin, after white space, with a number, [parseCost] returns
    [NaN] (it returns a number and does not fail, but the number is not
    zero).  The table node is still emitted, with [NaN] as its cost and its
    label, row estimate, access type, key, condition and annotations taken
    from the record; the rest of the result (the nodes and edges of a
    materialized sub-plan, the counter) and every other field of the node
    but [rawData] are what any other cost record gives.  The cost of a join
    over such a table is [NaN] as well. *)
Theorem parseCost_non_numeric (ci : CostInfo) (s : string) :
  cost_field ci = Some s -> s <> EmptyString -> has_numeric_prefix s = false ->
  parseCost (Some ci) = NaN /\
  (forall (t : TableInfo) (pid : option string) (c : nat),
     ti_cost_info t = Some ci ->
     exists n rest es c',
       parseTable t pid c = (mkParseResult (n :: rest) es, c') /\
       cost n = NaN /\ type n = nt_table /\
       label n = (if truthy_string (Some (ti_table_name t)) then ti_table_name t
                  else "Unknown Table") /\
       rows n = table_rows t /\ accessType n = Some (ti_access_type t) /\
       key n = ti_key t /\ keyParts n = ti_used_key_parts t /\
       condition n = ti_attached_condition t /\ extra n = getExtraInfo t /\
       forall ci', exists n',
         parseTable (table_with_cost t ci') pid c
         = (mkParseResult (n' :: rest) es, c') /\
         cost n' = parseCost (Some ci') /\ id n' = id n /\ type n' = type n /\
         label n' = label n /\ rows n' = rows n /\ table n' = table n /\
         accessType n' = accessType n /\ key n' = key n /\
         keyParts n' = keyParts n /\ condition n' = condition n /\
         extra n' = extra n /\ children n' = children n) /\
  (forall (items : list NestedLoopItem) (pid : option string) (c : nat),
     (2 <= length items)%nat ->
     Exists (fun item => ti_cost_info (nl_table item) = Some ci) items ->
     exists j rest es c',
       parseNestedLoop items pid c = (mkParseResult (j :: rest) es, c') /\
       type j = nt_join /\ cost j = NaN).
Proof.
  intros Hf Hs Hnum.
  assert (Hc : parseCost (Some ci) = NaN).
  { unfold parseCost. rewrite Hf. simpl.
    destruct s as [|a s']; [done|]. by apply parseFloat_NaN. }
  split; [done|]. split.
  - intros t pid c Ht.
    destruct (parseTable_head t pid c)
      as (n & rest & es & c' & E & _ & Hty & Hco & Hro & Hla & _ & Hac & Hk & Hkp & Hcd & Hex & _).
    eexists n, rest, _, c'. split; [exact E|].
    rewrite Hco, Ht, Hc. repeat (split; [done|]).
    intros ci'.
    destruct (parseTable_cost_only t ci' pid c)
      as (n0 & n' & rest0 & es0 & c0 & E0 & E1 & H).
    rewrite E in E0. inversion E0; subst n0 rest0 es0 c0.
    exists n'. split; [exact E1|].
    destruct H as (? & ? & ? & ? & ? & ? & ? & ? & ? & ? & ? & ? & _).
    by repeat split.
  - intros items pid c Hlen Hex.
    destruct (parse_join_shape items pid c Hlen)
      as (j & rs & c' & E & _ & Hty & Hco & _).
    eexists j, _, _, c'. split; [exact E|]. split; [done|].
    rewrite Hco. apply fold_add_NaN.
    apply Exists_exists in Hex as (item & Hin & Hci).
    apply list_elem_of_fmap. exists item. split; [|done].
    unfold item_cost. by rewrite Hci, Hc.
Qed.

Lemma parseCost_non_numeric_witness :
  parseCost (Some (readCost "N/A")) = NaN /\
  (exists n rest es c',
     parseTable (table_with_cost (bareTable "orders" at_ALL) (readCost "N/A"))
                None 0
     = (mkParseResult (n :: rest) es, c') /\
     cost n = NaN /\ label n = "orders" /\ accessType n = Some at_ALL) /\
  (exists j rest es c',
     parseNestedLoop
       [mkNestedLoopItem (table_with_cost (bareTable "a" at_ALL) (readCost "5"));
        mkNestedLoopItem (table_with_cost (bareTable "b" at_ALL) (readCost "N/A"))]
       None 0
     = (mkParseResult (j :: rest) es, c') /\ type j = nt_join /\ cost j = NaN).
Proof.
  destruct (parseCost_non_numeric (readCost "N/A") "N/A") as (H1 & H2 & H3);
    [reflexivity|discriminate|reflexivity|].
  split; [exact H1|]. split.
  - destruct (H2 (table_with_cost (bareTable "orders" at_ALL) (readCost "N/A"))
                 None 0%nat eq_refl)
      as (n & rest & es & c' & E & Hc & _ & Hl & _ & Ha & _).
    exists n, rest, es, c'. repeat split; assumption.
  - apply H3; [simpl; lia|]. apply Exists_cons_tl, Exists_cons_hd. reflexivity.
Defined.

(** ** Row estimates *)

(** C10: the row estimate of a table node is the examined-row estimate when
    it is present and not zero, else the produced-row estimate when it is
    present and not zero, else 0; the estimate that a table contributes to
    a join node has the opposite precedence.  (The product in the last part
    is the one the code computes when it is at most [2 ^ 53] in
    magnitude.) *)
Theorem table_rows_precedence (t : TableInfo) (pid : option string) (c : nat) :
  let examined := ti_rows_examined_per_scan t in
  let produced := ti_rows_produced_per_join t in
  (exists n rest es c',
     parseTable t pid c = (mkParseResult (n :: rest) es, c') /\
     type n = nt_table /\ rows n = table_rows t) /\
  (forall e, examined = Some e -> e <> 0 -> table_rows t = e) /\
  (forall p, examined = None \/ examined = Some 0 ->
             produced = Some p -> p <> 0 -> table_rows t = p) /\
  (examined = None \/ examined = Some 0 ->
   produced = None \/ produced = Some 0 -> table_rows t = 0) /\
  (forall p, produced = Some p -> p <> 0 -> join_rows t = p) /\
  (forall e, produced = None \/ produced = Some 0 ->
             examined = Some e -> e <> 0 -> join_rows t = e) /\
  (produced = None \/ produced = Some 0 ->
   examined = None \/ examined = Some 0 -> join_rows t = 0) /\
  (forall t2 pid2 c2,
     Z.abs (join_rows t * join_rows t2) <= 2 ^ 53 ->
     exists j rest es c',
       parseNestedLoop [mkNestedLoopItem t; mkNestedLoopItem t2] pid2 c2
       = (mkParseResult (j :: rest) es, c') /\
       type j = nt_join /\
       rows j = if join_rows t =? 0 then join_rows t2
                else join_rows t * join_rows t2).
Proof.
  simpl. split; [|repeat split].
  - destruct (parseTable_head t pid c)
      as (n & rest & es & c' & E & _ & Hty & _ & Hro & _).
    by eexists n, rest, _, c'.
  - intros e He Hne. unfold table_rows, first_truthy_Z. rewrite He.
    by destruct e.
  - intros p He Hp Hne. unfold table_rows, first_truthy_Z. rewrite Hp.
    destruct He as [-> | ->]; by destruct p.
  - intros He Hp. unfold table_rows, first_truthy_Z.
    destruct He as [-> | ->], Hp as [-> | ->]; done.
  - intros p Hp Hne. unfold join_rows, first_truthy_Z. rewrite Hp.
    by destruct p.
  - intros e Hp He Hne. unfold join_rows, first_truthy_Z. rewrite He.
    destruct Hp as [-> | ->]; by destruct e.
  - intros Hp He. unfold join_rows, first_truthy_Z.
    destruct He as [-> | ->], Hp as [-> | ->]; done.
  - intros t2 pid2 c2 _.
    unfold parseNestedLoop, parseNestedLoop_with, parse_join, generateId.
    simpl.
    destruct (parseTable t (Some (node_name (S c2))) (S c2)) as [r1 c1].
    unfold join_step. simpl.
    destruct (parseTable t2 (Some (node_name (S c2))) c1) as [r2 c3].
    eexists _, _, _, _. split; [reflexivity|]. simpl. split; [done|].
    unfold rows_step. simpl. by destruct (join_rows t).
Qed.

Lemma table_rows_precedence_witness :
  table_rows orders_table = 1000 /\ join_rows orders_table = 10 /\
  exists j rest es c',
    parseNestedLoop [mkNestedLoopItem orders_table; mkNestedLoopItem orders_table]
                    None 0
    = (mkParseResult (j :: rest) es, c') /\ type j = nt_join /\ rows j = 100.
Proof.
  pose proof (table_rows_precedence orders_table None 0%nat)
    as (_ & H1 & _ & _ & H2 & _ & _ & H3).
  split; [apply (H1 1000); (reflexivity || discriminate)|].
  split; [apply (H2 10); (reflexivity || discriminate)|].
  apply (H3 orders_table None 0%nat). vm_compute. discriminate.
Defined.

(** ** The row estimate of a join *)

Lemma rows_fold_nonzero (items : list NestedLoopItem) (acc : Z) :
  acc <> 0 -> Forall (fun item => item_rows item <> 0) items ->
  fold_left rows_step items acc = fold_left Z.mul (map item_rows items) acc.
Proof.
  intros Hacc Hall. revert acc Hacc.
  induction Hall as [|item items Hi Hall IH]; intros acc Hacc; simpl; [done|].
  unfold rows_step at 2. fold (item_rows item).
  destruct (Z.eqb_spec acc 0); [done|]. apply IH. lia.
Qed.

Lemma rows_fold_product (items : list NestedLoopItem) :
  items <> [] -> Forall (fun item => item_rows item <> 0) items ->
  fold_left rows_step items 0 = fold_left Z.mul (map item_rows items) 1.
Proof.
  intros Hne Hall. destruct Hall as [|item items Hi Hall]; [done|]. simpl.
  unfold rows_step at 2. simpl. fold (item_rows item).
  rewrite rows_fold_nonzero by done. f_equal. by destruct (item_rows item).
Qed.

(** C4, as stated, fails: when an estimate of zero comes before one that is
    not zero, the row estimate of the join node is not the product. *)
Lemma join_rows_not_product :
  exists j rest es c',
    parseNestedLoop zero_then_seven None 0
    = (mkParseResult (j :: rest) es, c') /\
    type j = nt_join /\ rows j = 7 /\
    fold_left Z.mul (map item_rows zero_then_seven) 1 = 0 /\
    rows j <> fold_left Z.mul (map item_rows zero_then_seven) 1.
Proof.
  eexists _, _, _, _. split; [reflexivity|]. by repeat split.
Qed.

(** C4 (amended): for two or more table entries the first node emitted is
    the one join node of the list; its cost is the binary64 sum, in input
    order from 0, of the extracted costs of the entries; when the running
    values stay within [2 ^ 53] in magnitude, its row estimate is the
    reduction that replaces a running value of 0 by the next estimate and
    multiplies otherwise, which is the product of the estimates (produced
    rows, else examined rows) when none of them is zero; every other node
    comes from an entry, each entry giving a table node with an edge to the
    join node (followed by the nodes of its materialized sub-plan, if it has
    one).  A single entry gives no join node: it is parsed as a table
    attached to the outer attachment point. *)
Theorem parseNestedLoop_join (items : list NestedLoopItem)
    (pid : option string) (c : nat) :
  ((2 <= length items)%nat ->
   exists joinNode rs c',
     parseNestedLoop items pid c
     = (mkParseResult (joinNode :: concat (map nodes rs))
                      (edge_to (id joinNode) pid ++ concat (map edges rs)), c') /\
     id joinNode = node_name (S c) /\ type joinNode = nt_join /\
     cost joinNode = fold_left num_add (map item_cost items) num_zero /\
     (rows_exact 0 items ->
      rows joinNode = fold_left rows_step items 0 /\
      (Forall (fun item => item_rows item <> 0) items ->
       rows joinNode = fold_left Z.mul (map item_rows items) 1)) /\
     children joinNode = concat (map (fun r => ids_of (nodes r)) rs) /\
     Forall2 (fun item r =>
                exists n rest es,
                  r = mkParseResult (n :: rest)
                        (mkPlanEdge (id n) (id joinNode) :: es) /\
                  type n = nt_table /\ rawData n = RawTable (nl_table item) /\
                  (ti_materialized_from_subquery (nl_table item) = None ->
                   rest = [] /\ es = []))
             items rs) /\
  (forall item, items = [item] ->
     parseNestedLoop items pid c = parseTable (nl_table item) pid c /\
     exists n rest es c',
       parseNestedLoop items pid c
       = (mkParseResult (n :: rest) (edge_to (id n) pid ++ es), c') /\
       type n = nt_table /\ rawData n = RawTable (nl_table item)).
Proof.
  split.
  - intros Hlen.
    destruct (parse_join_shape items pid c Hlen)
      as (j & rs & c' & E & Hid & Hty & Hco & Hro & Hch & Hrs).
    exists j, rs, c'. repeat (split; [done|]). split; [|by split].
    intros _. split; [done|]. intros Hall. rewrite Hro.
    apply rows_fold_product; [|done]. intros ->. simpl in Hlen. lia.
  - intros item ->. split; [done|].
    unfold parseNestedLoop, parseNestedLoop_with.
    destruct (parseTable_head (nl_table item) pid c)
      as (n & rs' & es & c1 & E' & Hid & Hty & _ & _ & _ & _ & _ & _ & _ & _ & _ & Hraw & _).
    exists n, rs', es, c1. rewrite Hid. by repeat split.
Qed.

Lemma parseNestedLoop_join_witness :
  exists joinNode rs c',
    parseNestedLoop two_quarters None 0
    = (mkParseResult (joinNode :: concat (map nodes rs))
                     (edge_to (id joinNode) None ++ concat (map edges rs)), c') /\
    type joinNode = nt_join /\
    cost joinNode = Fin 50 /\ rows joinNode = 70 /\
    length rs = 2%nat.
Proof.
  destruct (parseNestedLoop_join two_quarters None 0%nat) as [H _].
  destruct H as (j & rs & c' & E & _ & Hty & Hco & Hro & _ & Hrs); [simpl; lia|].
  destruct Hro as [_ Hro].
  { vm_compute. repeat split; discriminate. }
  exists j, rs, c'. split; [exact E|]. split; [exact Hty|].
  split; [rewrite Hco; vm_compute; reflexivity|].
  split; [rewrite Hro; [reflexivity|repeat constructor; discriminate]|].
  symmetry. exact (Forall2_length _ _ _ Hrs).
Defined.

(** The sum is the binary64 one: costs of 0.1 and 0.2 give a join of cost
    0.30000000000000004, which is more than 0.3. *)
Lemma join_cost_rounds :
  exists j rest es c',
    parseNestedLoop tenth_and_fifth None 0 = (mkParseResult (j :: rest) es, c') /\
    cost j = Fin (1351079888211149 # 4503599627370496) /\
    num_ltb (parseFloat "0.3") (cost j) = true.
Proof. eexists _, _, _, _. split; [vm_compute; reflexivity|]. by split. Qed.

(** Beyond the bound the product of two integers is rounded: two estimates
    of 94906267 rows are outside [rows_exact], and their binary64 product
    is 9007199515875288, one less than the product of the integers. *)
Lemma product_beyond_bound :
  let t := table_with_rows (bareTable "a" at_ALL) None (Some 94906267) in
  ~ rows_exact 0 [mkNestedLoopItem t; mkNestedLoopItem t] /\
  num_mul (Fin (inject_Z 94906267)) (Fin (inject_Z 94906267))
  = Fin (inject_Z 9007199515875288) /\
  94906267 * 94906267 = 9007199515875289.
Proof.
  split; [|split; [vm_compute; reflexivity|reflexivity]].
  intros (_ & H & _). vm_compute in H. by apply H.
Qed.

(** ** Validation *)

(** C6, as stated, fails: a text that parses and has a [query_block] member
    is rejected when that member is falsy. *)
Lemma validate_present_but_rejected :
  ~ (valid (validateExplainJSON JSON_parse_text null_query_block_text) = true
     <-> exists v, JSON_parse_text null_query_block_text = inl v /\
                   is_Some (get_property v "query_block")).
Proof.
  intros [_ H]. assert (Hv : valid (validateExplainJSON JSON_parse_text
                                      null_query_block_text) = true).
  { apply H. exists (JObject [("query_block", JNull)]).
    split; [reflexivity|]. by exists JNull. }
  discriminate Hv.
Qed.

Lemma error_messages_differ (message : string) :
  invalid_json_error message <> missing_query_block_error.
Proof. discriminate. Qed.

Section ValidateCases.
Variable JSON_parse : string -> JSON + string.
Variable input : string.

Lemma validate_syntax_error (message : string) :
  JSON_parse input = inr message ->
  validateExplainJSON JSON_parse input
  = mkValidationResult false (Some (invalid_json_error message)) None.
Proof. intros E. unfold validateExplainJSON. by rewrite E. Qed.

Lemma validate_null :
  JSON_parse input = inl JNull ->
  validateExplainJSON JSON_parse input
  = mkValidationResult false
      (Some (invalid_json_error null_property_message)) None.
Proof. intros E. unfold validateExplainJSON. by rewrite E. Qed.

Lemma validate_missing (v : JSON) :
  JSON_parse input = inl v -> v <> JNull ->
  truthy_JSON (get_property v "query_block") = false ->
  validateExplainJSON JSON_parse input
  = mkValidationResult false (Some missing_query_block_error) None.
Proof.
  intros E Hv Ht. unfold validateExplainJSON. rewrite E, Ht.
  by destruct v.
Qed.

Lemma validate_accept (v : JSON) :
  JSON_parse input = inl v ->
  truthy_JSON (get_property v "query_block") = true ->
  validateExplainJSON JSON_parse input = mkValidationResult true None (Some v).
Proof.
  intros E Ht. unfold validateExplainJSON. rewrite E, Ht.
  by destruct v.
Qed.
End ValidateCases.

(** C6 (amended): the result is valid exactly when the text parses and the
    [query_block] property of the parsed value is truthy (present and not
    [null], [false], [0] or the empty string); a valid result carries the
    parsed value and no error; an invalid one carries no data and an error;
    a text that does not parse gets the message [Invalid JSON: ...], a text
    that parses to a value other than [null] without a truthy [query_block]
    gets the missing-[query_block] message, and the two messages differ. *)
Theorem validateExplainJSON_spec (JSON_parse : string -> JSON + string)
    (input : string) :
  let r := validateExplainJSON JSON_parse input in
  (valid r = true <->
   exists v, JSON_parse input = inl v /\
             truthy_JSON (get_property v "query_block") = true) /\
  (valid r = true ->
   exists v, JSON_parse input = inl v /\ parsed_data r = Some v /\
             error r = None) /\
  (valid r = false -> parsed_data r = None /\ is_Some (error r)) /\
  (forall message, JSON_parse input = inr message ->
     valid r = false /\ error r = Some (invalid_json_error message)) /\
  (forall v, JSON_parse input = inl v -> v <> JNull ->
     truthy_JSON (get_property v "query_block") = false ->
     valid r = false /\ error r = Some missing_query_block_error) /\
  (forall message, invalid_json_error message <> missing_query_block_error).
Proof.
  simpl. destruct (JSON_parse input) as [v|message] eqn:E.
  - destruct (truthy_JSON (get_property v "query_block")) eqn:Ht.
    + rewrite (validate_accept _ _ v E Ht). simpl.
      split; [split; [intros _; by exists v|done]|].
      split; [intros _; by exists v|].
      split; [discriminate|]. split; [discriminate|].
      split; [|apply error_messages_differ].
      intros v' Hv' _ Ht'. inversion Hv'; subst v'. congruence.
    + assert (Hr : valid (validateExplainJSON JSON_parse input) = false /\
                   parsed_data (validateExplainJSON JSON_parse input) = None /\
                   is_Some (error (validateExplainJSON JSON_parse input))).
      { assert (Hv : v = JNull \/ v <> JNull) by (destruct v; auto).
        destruct Hv as [->|Hv].
        - rewrite (validate_null _ _ E). simpl. eauto.
        - rewrite (validate_missing _ _ v E Hv Ht). simpl. eauto. }
      destruct Hr as (Hr1 & Hr2 & Hr3). rewrite Hr1.
      split; [split; [discriminate|intros (v' & Hv' & Ht'); congruence]|].
      split; [discriminate|]. split; [done|]. split; [discriminate|].
      split; [|apply error_messages_differ].
      intros v' Hv' Hnn _. inversion Hv'; subst v'.
      by rewrite (validate_missing _ _ v E Hnn Ht).
  - rewrite (validate_syntax_error _ _ message E). simpl.
    split; [split; [discriminate|intros (v' & Hv' & _); discriminate]|].
    split; [discriminate|]. split; [eauto|].
    split; [intros m Hm; by inversion Hm|].
    split; [discriminate|apply error_messages_differ].
Qed.

Lemma validateExplainJSON_spec_witness :
  valid (validateExplainJSON JSON_parse_text
           ("{" +:+ quoted "query_block" +:+ ":{}}")) = true /\
  error (validateExplainJSON JSON_parse_text "not json")
  = Some (invalid_json_error "Unexpected token in JSON") /\
  error (validateExplainJSON JSON_parse_text
           ("{" +:+ quoted "foo" +:+ ":" +:+ quoted "bar" +:+ "}"))
  = Some missing_query_block_error.
Proof.
  split; [|split].
  - destruct (validateExplainJSON_spec JSON_parse_text
                ("{" +:+ quoted "query_block" +:+ ":{}}")) as ([_ H] & _).
    apply H. exists (JObject [("query_block", JObject [])]). by split.
  - destruct (validateExplainJSON_spec JSON_parse_text "not json")
      as (_ & _ & _ & H & _).
    by apply (H "Unexpected token in JSON").
  - destruct (validateExplainJSON_spec JSON_parse_text
                ("{" +:+ quoted "foo" +:+ ":" +:+ quoted "bar" +:+ "}"))
      as (_ & _ & _ & _ & H & _).
    apply (H (JObject [("foo", JString "bar")]));
      [reflexivity|discriminate|reflexivity].
Defined.

(** ** Numbers up to representation *)

#[local] Instance num_equiv_equivalence : Equivalence num_equiv.
Proof.
  split.
  - intros [| | |x]; simpl; done.
  - intros [| | |x] [| | |y]; simpl; done.
  - intros [| | |x] [| | |y] [| | |z]; simpl; try done. intros H1 H2.
    by transitivity y.
Qed.

#[local] Instance num_add_proper :
  Proper (num_equiv ==> num_equiv ==> num_equiv) num_add.
Proof.
  intros [| | |x] [| | |x'] Hx [| | |y] [| | |y'] Hy; simpl in *; try done.
  rewrite (round64_proper (x + y) (x' + y')); [reflexivity|]. by rewrite Hx, Hy.
Qed.

#[local] Instance num_ltb_proper :
  Proper (num_equiv ==> num_equiv ==> eq) num_ltb.
Proof.
  intros [| | |x] [| | |x'] Hx [| | |y] [| | |y'] Hy; simpl in *; try done.
  by rewrite Hx, Hy.
Qed.

#[local] Instance num_max_proper :
  Proper (num_equiv ==> num_equiv ==> num_equiv) num_max.
Proof.
  intros a a' Ha b b' Hb. unfold num_max.
  rewrite (num_ltb_proper a a' Ha b b' Hb).
  destruct a as [| | |x], a' as [| | |x'], b as [| | |y], b' as [| | |y'];
    simpl in *; try done; by destruct (x' ?= y')%Q.
Qed.

Lemma weight_ok_equiv (a b : number) : weight_ok a -> num_equiv a b -> weight_ok b.
Proof.
  destruct a as [| | |x], b as [| | |y]; simpl; try done.
  intros [Hx [k Hk]] Hab. split; [simpl; by rewrite <- Hab|].
  exists k. by rewrite <- Hab.
Qed.

(** A sum of costs may overflow, but is not negative. *)
Lemma weight_ok_add (a b : number) :
  weight_ok a -> weight_ok b -> weight_ok (num_add a b).
Proof.
  intros [Ha _] [Hb _]. split; [|apply grid_add].
  destruct a as [| | |x], b as [| | |y]; simpl in *; try done.
  apply round64_nonneg. lra.
Qed.

Lemma weight_ok_max (a b : number) :
  weight_ok a -> weight_ok b -> weight_ok (num_max a b).
Proof.
  intros Ha Hb. unfold num_max.
  destruct a as [| | |x], b as [| | |y];
    try (by destruct Ha as [[] _]); try (by destruct Hb as [[] _]);
    by destruct (num_ltb _ _).
Qed.

Lemma weight_ok_zero : weight_ok num_zero.
Proof. split; [simpl; lra|apply grid_zero]. Qed.

Lemma num_max_zero (a : number) : weight_ok a -> num_equiv (num_max num_zero a) a.
Proof.
  intros [Ha _]. destruct a as [| | |x]; try done.
  unfold num_max, num_zero, num_ltb. simpl in Ha.
  destruct (Qcompare_spec 0 x) as [H|H|H]; simpl; try done. lra.
Qed.

Lemma or_zero_equiv (w : number) :
  weight_ok w -> num_equiv (or_zero (Some w)) w.
Proof.
  intros [Hw _]. destruct w as [| | |x]; try done. simpl.
  destruct (Qeq_bool x 0) eqn:E; simpl; [|done].
  apply Qeq_bool_iff in E. by symmetry.
Qed.

Lemma weight_ok_greatest (vs : list number) :
  Forall weight_ok vs -> weight_ok (greatest vs).
Proof.
  destruct 1 as [|v vs Hv Hvs]; simpl; [apply weight_ok_zero|].
  revert v Hv. induction Hvs as [|w vs Hw Hvs IH]; intros v Hv; simpl; [done|].
  apply IH. by apply weight_ok_max.
Qed.

Lemma fold_max_equiv (vs ws : list number) (a b : number) :
  Forall2 num_equiv vs ws -> num_equiv a b ->
  num_equiv (fold_left num_max vs a) (fold_left num_max ws b).
Proof.
  intros H. revert a b. induction H as [|v w vs ws Hvw _ IH]; intros a b Hab;
    simpl; [done|].
  apply IH. by apply num_max_proper.
Qed.

(** On costs that are not negative, [Math.max(0, ...vs)] is the greatest
    of [vs]. *)
Lemma Math_max_greatest (vs ws : list number) :
  Forall2 num_equiv vs ws -> Forall weight_ok ws ->
  num_equiv (Math_max num_zero vs) (greatest ws).
Proof.
  intros H Hok. unfold Math_max.
  destruct H as [|v w vs ws Hvw H]; cbn [fold_left greatest]; [done|].
  apply fold_max_equiv; [done|].
  inversion Hok; subst.
  transitivity (num_max num_zero w); [|by apply num_max_zero].
  by apply num_max_proper.
Qed.

(** ** The head of a sorted array *)

Lemma sort_insert_head {A} (compare : A -> A -> number) (x : A) (l : list A) :
  head (sort_insert compare x l)
  = match head l with
    | Some y => if num_ltb num_zero (compare x y) then Some y else Some x
    | None => Some x
    end.
Proof.
  destruct l as [|y r]; [done|]. cbn [sort_insert head].
  by destruct (num_ltb num_zero (compare x y)).
Qed.

(** Whatever the comparator, the first entry of the sorted array is an
    entry of the array. *)
Lemma js_sort_head_elem {A} (compare : A -> A -> number) (l : list A) (x : A) :
  head (js_sort compare l) = Some x -> x ∈ l.
Proof.
  revert x. induction l as [|y r IH]; intros x; simpl; [done|].
  rewrite sort_insert_head.
  destruct (head (js_sort compare r)) as [z|] eqn:Hz.
  - destruct (num_ltb num_zero (compare y z)); intros [= <-].
    + apply elem_of_cons. right. by apply IH.
    + apply elem_of_cons. by left.
  - intros [= <-]. apply elem_of_cons. by left.
Qed.

(** What [sort((a, b) => b.cost - a.cost)] puts first is the first entry
    of greatest cost. *)
Lemma js_sort_head (l : list (string * number)) :
  Forall (fun y => grid (snd y)) l ->
  head (js_sort by_cost_desc l) = first_greatest l.
Proof.
  induction 1 as [|x r Hx Hr IH]; simpl; [done|].
  rewrite sort_insert_head, IH.
  destruct (first_greatest r) as [y|] eqn:Hy; [|done].
  unfold by_cost_desc. rewrite num_ltb_sub; [done|done|].
  assert (Hin : y ∈ r).
  { clear -Hy. revert y Hy. induction r as [|z r IHr]; intros y; simpl; [done|].
    destruct (first_greatest r) as [w|].
    - destruct (num_ltb (snd z) (snd w)); intros [= <-].
      + apply elem_of_cons. right. by apply IHr.
      + apply elem_of_cons. by left.
    - intros [= <-]. apply elem_of_cons. by left. }
  by apply (proj1 (Forall_forall _ _) Hr).
Qed.

Lemma first_greatest_elem (l : list (string * number)) (x : string * number) :
  first_greatest l = Some x -> x ∈ l.
Proof.
  revert x. induction l as [|y r IH]; intros x; simpl; [done|].
  destruct (first_greatest r) as [z|].
  - destruct (num_ltb (snd y) (snd z)); intros [= <-].
    + apply elem_of_cons. right. by apply IH.
    + apply elem_of_cons. by left.
  - intros [= <-]. apply elem_of_cons. by left.
Qed.

Lemma first_greatest_is_Some (l : list (string * number)) :
  l <> [] -> is_Some (first_greatest l).
Proof.
  destruct l as [|y r]; [done|]. intros _. simpl.
  destruct (first_greatest r) as [z|]; [|by eexists].
  destruct (num_ltb (snd y) (snd z)); by eexists.
Qed.

Lemma num_ltb_trans_le (w z y : number) :
  cost_ok w -> cost_ok z -> cost_ok y ->
  num_ltb y z = false ->
  (num_ltb w z = true \/ num_ltb z w = false) -> num_ltb y w = false.
Proof.
  destruct w as [| | |a], z as [| | |b], y as [| | |c]; simpl; try done;
    intros _ _ _; try (intros _ [?|?]; done).
  destruct (Qcompare_spec c b), (Qcompare_spec a b), (Qcompare_spec b a),
           (Qcompare_spec c a); try done; intros _ [?|?]; try done; lra.
Qed.

Lemma num_ltb_irrefl (a : number) : num_ltb a a = false.
Proof.
  destruct a as [| | |x]; simpl; try done.
  destruct (Qcompare_spec x x); try done; lra.
Qed.

Lemma num_ltb_asym (a b : number) : num_ltb a b = true -> num_ltb b a = false.
Proof.
  destruct a as [| | |x], b as [| | |y]; simpl; try done.
  destruct (Qcompare_spec x y), (Qcompare_spec y x); try done; lra.
Qed.

(** [first_greatest] returns an entry that no entry exceeds and that every
    earlier entry is below. *)
Lemma first_greatest_spec (l : list (string * number)) (x : string * number) :
  Forall (fun y => cost_ok (snd y)) l -> first_greatest l = Some x ->
  exists l1 l2,
    l = l1 ++ x :: l2 /\
    Forall (fun y => num_ltb (snd y) (snd x) = true) l1 /\
    Forall (fun y => num_ltb (snd x) (snd y) = false) l2.
Proof.
  intros Hok. revert x. induction Hok as [|y r Hy Hr IH]; intros x; simpl; [done|].
  destruct (first_greatest r) as [z|] eqn:Hz.
  - destruct (IH z eq_refl) as (l1 & l2 & -> & H1 & H2).
    assert (Hzok : cost_ok (snd z)).
    { apply (proj1 (Forall_forall _ _) Hr). apply elem_of_app. right.
      apply elem_of_cons. by left. }
    destruct (num_ltb (snd y) (snd z)) eqn:Hyz; intros [= <-].
    + exists (y :: l1), l2. split; [done|]. split; [by constructor|done].
    + exists [], (l1 ++ z :: l2). split; [done|]. split; [constructor|].
      apply Forall_forall. intros w Hw.
      assert (Hwok : cost_ok (snd w))
        by (by apply (proj1 (Forall_forall _ _) Hr)).
      apply (num_ltb_trans_le _ (snd z)); try done.
      apply elem_of_app in Hw as [Hw|Hw].
      * left. by apply (proj1 (Forall_forall _ _) H1).
      * apply elem_of_cons in Hw as [->|Hw].
        -- right. apply num_ltb_irrefl.
        -- right. by apply (proj1 (Forall_forall _ _) H2).
  - intros [= <-]. exists [], r. split; [done|]. split; [constructor|].
    destruct r as [|w r]; [constructor|].
    destruct (first_greatest_is_Some (w :: r)); [done|congruence].
Qed.

Lemma first_greatest_max (l : list (string * number)) (x y : string * number) :
  Forall (fun y => cost_ok (snd y)) l -> first_greatest l = Some x -> y ∈ l ->
  num_ltb (snd x) (snd y) = false.
Proof.
  intros Hok Hx Hy.
  destruct (first_greatest_spec l x Hok Hx) as (l1 & l2 & -> & H1 & H2).
  apply elem_of_app in Hy as [Hy|Hy].
  - apply num_ltb_asym. by apply (proj1 (Forall_forall _ _) H1 y Hy).
  - apply elem_of_cons in Hy as [->|Hy].
    + apply num_ltb_irrefl.
    + by apply (proj1 (Forall_forall _ _) H2).
Qed.

Lemma first_greatest_equiv (l1 l2 : list (string * number)) :
  Forall2 same_entry l1 l2 ->
  option_Forall2 same_entry (first_greatest l1) (first_greatest l2).
Proof.
  induction 1 as [|p q l1 l2 [Hf Hs] _ IH]; simpl; [constructor|].
  destruct IH as [y z [Hyz1 Hyz2]|]; [|by repeat constructor].
  rewrite (num_ltb_proper _ _ Hs _ _ Hyz2).
  destruct (num_ltb (snd q) (snd z)); by repeat constructor.
Qed.

(** ** Finding and marking nodes *)

Lemma find_node_Some (l : list PlanNode) (i : string) (n : PlanNode) :
  find_node l i = Some n -> id n = i /\ n ∈ l.
Proof.
  unfold find_node. intros H. apply find_some in H as [Hin Heq].
  split; [by apply String.eqb_eq|by apply list_elem_of_In].
Qed.

Lemma find_node_lookup (l : list PlanNode) (p : nat) (n : PlanNode) :
  NoDup (ids_of l) -> l !! p = Some n -> find_node l (id n) = Some n.
Proof.
  unfold find_node, ids_of. revert p.
  induction l as [|m l IH]; intros p Hnd Hp; [by destruct p|].
  simpl in *. apply NoDup_cons in Hnd as [Hnotin Hnd].
  destruct p as [|p]; simpl in Hp.
  - inversion Hp; subst. by rewrite String.eqb_refl.
  - destruct (String.eqb_spec (id m) (id n)) as [E|E].
    + exfalso. apply Hnotin. rewrite E. apply list_elem_of_fmap.
      exists n. split; [done|]. by eapply list_elem_of_lookup_2.
    + by eapply IH.
Qed.

Lemma find_node_None (l : list PlanNode) (i : string) :
  i ∉ ids_of l -> find_node l i = None.
Proof.
  intros Hnot. destruct (find_node l i) as [n|] eqn:E; [|done].
  apply find_node_Some in E as [<- Hin]. exfalso. apply Hnot.
  apply list_elem_of_fmap. by exists n.
Qed.

Lemma set_isCriticalPath_idem (n : PlanNode) :
  set_isCriticalPath (set_isCriticalPath n) = set_isCriticalPath n.
Proof. done. Qed.

Lemma marked_of_refl (l : list PlanNode) : marked_of l l.
Proof. apply Forall2_same_length_lookup_2; [done|]. intros i x y H1 H2. left. congruence. Qed.

Lemma marked_of_mark (l l' : list PlanNode) (i : string) :
  marked_of l l' -> marked_of l (mark_node l' i).
Proof.
  induction 1 as [|n n' l l' Hn HF IH]; simpl; [constructor|].
  destruct (String.eqb (id n') i).
  - constructor; [|exact HF]. right. by destruct Hn as [-> | ->].
  - constructor; [exact Hn|exact IH].
Qed.

Lemma marked_of_path (l l' : list PlanNode) (path : list string) :
  marked_of l l' -> marked_of l (fold_left mark_node path l').
Proof.
  revert l'. induction path as [|i path IH]; intros l' Hl; simpl; [done|].
  apply IH. by apply marked_of_mark.
Qed.

Lemma marked_of_ids (l l' : list PlanNode) :
  marked_of l l' -> ids_of l' = ids_of l.
Proof.
  unfold ids_of. induction 1 as [|n n' l l' Hn _ IH]; simpl; [done|].
  f_equal; [|done]. by destruct Hn as [-> | ->].
Qed.

Lemma marked_of_find (l l' : list PlanNode) (i : string) :
  marked_of l l' ->
  option_Forall2 (fun n n' => n' = n \/ n' = set_isCriticalPath n)
                 (find_node l i) (find_node l' i).
Proof.
  unfold find_node.
  induction 1 as [|n n' l l' Hn _ IH]; simpl; [constructor|].
  assert (Hid : id n' = id n) by (by destruct Hn as [-> | ->]).
  rewrite Hid. destruct (String.eqb (id n) i); [by constructor|done].
Qed.

(** After marking along [path], a node is marked exactly when it was
    already marked or its name is on [path]. *)
Lemma mark_node_lookup (l : list PlanNode) (i : string) (p : nat) (n : PlanNode) :
  NoDup (ids_of l) -> l !! p = Some n ->
  mark_node l i !! p
  = Some (if String.eqb (id n) i then set_isCriticalPath n else n).
Proof.
  unfold ids_of. revert p. induction l as [|m l IH]; intros p Hnd Hp; [by destruct p|].
  simpl in *. apply NoDup_cons in Hnd as [Hnotin Hnd].
  destruct p as [|p]; simpl in Hp.
  - inversion Hp; subst. by destruct (String.eqb (id n) i).
  - destruct (String.eqb_spec (id m) i) as [E|E]; simpl.
    + rewrite Hp. destruct (String.eqb_spec (id n) i) as [E'|E']; [|done].
      exfalso. apply Hnotin. rewrite E, <- E'. apply list_elem_of_fmap.
      exists n. split; [done|]. by eapply list_elem_of_lookup_2.
    + by apply IH.
Qed.

Lemma mark_node_ids (l : list PlanNode) (i : string) :
  ids_of (mark_node l i) = ids_of l.
Proof. apply marked_of_ids, marked_of_mark, marked_of_refl. Qed.

Lemma mark_path_lookup (path : list string) (l : list PlanNode) (p : nat)
    (n : PlanNode) :
  NoDup (ids_of l) -> l !! p = Some n ->
  exists n', fold_left mark_node path l !! p = Some n' /\
             id n' = id n /\
             (isCriticalPath n' = Some true <->
              isCriticalPath n = Some true \/ id n ∈ path).
Proof.
  revert l n. induction path as [|i path IH]; intros l n Hnd Hp; simpl.
  - exists n. split; [done|]. split; [done|]. split; [by left|].
    intros [H|H]; [done|]. by apply elem_of_nil in H.
  - destruct (IH (mark_node l i)
                 (if String.eqb (id n) i then set_isCriticalPath n else n))
      as (n' & Hn' & Hid & Hm).
    + by rewrite mark_node_ids.
    + by apply mark_node_lookup.
    + exists n'. split; [done|].
      destruct (String.eqb_spec (id n) i) as [E|E]; simpl in *.
      * split; [done|]. rewrite Hm. split; [intros _|by left].
        right. apply elem_of_cons. by left.
      * split; [done|]. rewrite Hm. rewrite elem_of_cons.
        split; [intros [H|H]; auto|intros [H|[H|H]]; auto; congruence].
Qed.

Lemma Forall2_map_agree {A B C} (R : A -> C -> Prop) (f g : B -> C)
    (vs : list A) (chs : list B) :
  Forall2 (fun v ch => R v (g ch)) vs chs ->
  (forall ch, ch ∈ chs -> f ch = g ch) ->
  Forall2 R vs (map f chs).
Proof.
  induction 1 as [|v ch vs chs Hv _ IH]; intros Hfg; simpl; [constructor|].
  constructor.
  - rewrite Hfg; [done|]. apply elem_of_cons. by left.
  - apply IH. intros c Hc. apply Hfg. apply elem_of_cons. by right.
Qed.

(** ** Marking on the graph of a parse *)

Section CriticalPath.
Variable ns : list PlanNode.
Hypothesis Hids : ids_of ns = node_name <$> seq 1 (length ns).
Hypothesis Hch : forall i n ch, ns !! i = Some n -> ch ∈ children n ->
  exists j, ch = node_name j /\ (S i < j <= length ns)%nat.

Local Abbreviation N := (length ns).

Lemma ids_NoDup : NoDup (ids_of ns).
Proof.
  rewrite Hids. apply NoDup_fmap_2; [|apply NoDup_seq].
  intros j k. apply node_name_inj.
Qed.

Lemma lookup_id (p : nat) (n : PlanNode) :
  ns !! p = Some n -> id n = node_name (S p).
Proof.
  intros Hp. assert (H : ids_of ns !! p = Some (id n)).
  { unfold ids_of. by rewrite list_lookup_fmap, Hp. }
  rewrite Hids, list_lookup_fmap in H.
  destruct (seq 1 N !! p) as [k|] eqn:E; [|done].
  apply lookup_seq in E as [-> _]. by inversion H.
Qed.

Lemma node_at (k : nat) :
  (1 <= k <= N)%nat ->
  exists n, ns !! (k - 1)%nat = Some n /\
            find_node ns (node_name k) = Some n /\ id n = node_name k.
Proof.
  intros Hk. destruct (lookup_lt_is_Some_2 ns (k - 1)) as [n Hn]; [lia|].
  pose proof (lookup_id _ _ Hn) as Hid.
  replace (S (k - 1)) with k in Hid by lia.
  exists n. split; [done|]. split; [|done].
  rewrite <- Hid. eapply find_node_lookup; [apply ids_NoDup|done].
Qed.

Lemma find_node_named (i : string) (n : PlanNode) :
  find_node ns i = Some n ->
  exists k, i = node_name k /\ (1 <= k <= N)%nat /\
            ns !! (k - 1)%nat = Some n.
Proof.
  intros H. apply find_node_Some in H as [<- Hin].
  apply list_elem_of_lookup in Hin as [p Hp].
  exists (S p). split; [by apply lookup_id|].
  split; [apply lookup_lt_Some in Hp; lia|].
  by replace (S p - 1)%nat with p by lia.
Qed.

Lemma children_later (k : nat) (n : PlanNode) (ch : string) :
  find_node ns (node_name k) = Some n -> ch ∈ children n ->
  exists j, ch = node_name j /\ (k < j <= N)%nat.
Proof.
  intros Hf Hin. apply find_node_named in Hf as (k' & E & Hk & Hn).
  apply node_name_inj in E as <-.
  destruct (Hch _ _ _ Hn Hin) as (j & -> & Hj). exists j. split; [done|lia].
Qed.

(** Past the depth of the graph, more fuel changes nothing. *)
Lemma cumulative_cost_stable (f1 f2 k : nat) :
  (1 <= k)%nat -> (N < f1 + k)%nat -> (N < f2 + k)%nat ->
  cumulative_cost ns f1 (node_name k) = cumulative_cost ns f2 (node_name k).
Proof.
  revert f2 k. induction f1 as [|f1 IH]; intros f2 k Hk H1 H2.
  - destruct f2 as [|f2]; [done|]. simpl.
    rewrite find_node_None; [done|]. rewrite Hids. intros Hin.
    apply list_elem_of_fmap in Hin as (j & E & Hj).
    apply node_name_inj in E as <-. apply elem_of_seq in Hj. lia.
  - destruct f2 as [|f2].
    + simpl. rewrite find_node_None; [done|]. rewrite Hids. intros Hin.
      apply list_elem_of_fmap in Hin as (j & E & Hj).
      apply node_name_inj in E as <-. apply elem_of_seq in Hj. lia.
    + simpl. destruct (find_node ns (node_name k)) as [n|] eqn:Hf; [|done].
      do 2 f_equal. apply map_ext_in. intros ch Hin.
      apply list_elem_of_In in Hin.
      destruct (children_later _ _ _ Hf Hin) as (j & -> & Hj).
      apply IH; lia.
Qed.

Lemma cumulative_child (k : nat) (n : PlanNode) (ch : string) :
  find_node ns (node_name k) = Some n -> ch ∈ children n ->
  cumulative_cost ns N ch = cumulative ns ch.
Proof.
  intros Hf Hin. destruct (children_later _ _ _ Hf Hin) as (j & -> & Hj).
  pose proof (find_node_named _ _ Hf) as (k' & E & Hk & _).
  apply node_name_inj in E as <-.
  apply cumulative_cost_stable; lia.
Qed.

Lemma cumulative_cost_ok (f : nat) (i : string) :
  costs_ok ns -> weight_ok (cumulative_cost ns f i).
Proof.
  intros Hc. revert i. induction f as [|f IH]; intros i; simpl.
  - apply weight_ok_zero.
  - destruct (find_node ns i) as [n|] eqn:Hf; [|apply weight_ok_zero].
    apply weight_ok_add.
    + apply find_node_Some in Hf as [_ Hin].
      by apply (proj1 (Forall_forall _ _) Hc).
    + apply weight_ok_greatest. apply Forall_forall. intros v Hv.
      apply list_elem_of_fmap in Hv as (ch & -> & _). apply IH.
Qed.

(** *** First pass: the cumulative costs *)

Lemma calc_children (fuel k : nat) (chs : list string) :
  (forall j m, (k < j <= N)%nat ->
     exists v m', calculateCumulativeCost ns fuel (node_name j) m = Some (v, m')
                  /\ calc_post ns (node_name j) m v m') ->
  (forall ch, ch ∈ chs -> exists j, ch = node_name j /\ (k < j <= N)%nat) ->
  forall m,
  exists vs m',
    mapM_state (calculateCumulativeCost ns fuel) chs m = Some (vs, m') /\
    (forall ch, ch ∈ chs -> is_Some (m' !! ch)) /\ grows m m' /\
    (covers ns m -> covers ns m') /\
    (costs_ok ns -> entries_ok ns m ->
     entries_ok ns m' /\
     Forall2 (fun v ch => num_equiv v (cumulative ns ch)) vs chs).
Proof.
  intros IH. induction chs as [|ch chs IHchs]; intros Hchs m; simpl.
  - exists [], m. split; [done|]. split; [intros ch H; by apply elem_of_nil in H|].
    split; [by intros key|]. split; [done|]. intros _ He. split; [done|constructor].
  - destruct (Hchs ch) as (j & -> & Hj); [apply elem_of_cons; by left|].
    destruct (IH j m Hj) as (v & m1 & E1 & Hv1 & Hg1 & Hc1 & He1).
    rewrite E1.
    destruct (IHchs (fun c Hc => Hchs c (proj2 (elem_of_cons _ _ _) (or_intror Hc))) m1)
      as (vs & m2 & E2 & Hin2 & Hg2 & Hc2 & He2).
    rewrite E2. exists (v :: vs), m2. split; [done|].
    split; [|split; [|split]].
    + intros c Hc. apply elem_of_cons in Hc as [->|Hc]; [|by apply Hin2].
      apply Hg2. by eexists.
    + intros key Hk. by apply Hg2, Hg1.
    + intros Hc. by apply Hc2, Hc1.
    + intros Hco He. destruct (He1 Hco He) as [He1' Hv].
      destruct (He2 Hco He1') as [He2' Hvs]. split; [done|]. by constructor.
Qed.

Lemma calc_ok (fuel k : nat) (m : gmap string number) :
  (1 <= k <= N)%nat -> (N < fuel + k)%nat ->
  exists v m', calculateCumulativeCost ns fuel (node_name k) m = Some (v, m')
               /\ calc_post ns (node_name k) m v m'.
Proof.
  revert k m. induction fuel as [|fuel IH]; intros k m Hk Hf; [lia|].
  simpl. destruct (node_at k Hk) as (n & Hn & Hfind & Hid). rewrite Hfind.
  destruct (calc_children fuel k (children n)) with (m := m)
    as (vs & m1 & E & Hin & Hg & Hc & He).
  { intros j m0 Hj. apply IH; lia. }
  { intros ch Hin. by eapply children_later. }
  rewrite E. eexists _, _. split; [reflexivity|].
  split; [by rewrite lookup_insert_eq|]. split; [|split].
  - intros key Hkey. destruct (decide (node_name k = key)) as [->|Hne].
    + rewrite lookup_insert_eq. by eexists.
    + rewrite lookup_insert_ne by done. by apply Hg.
  - intros Hcov key n' Hkey Hf' ch Hch'.
    assert (Hch1 : is_Some (m1 !! ch)).
    { destruct (decide (node_name k = key)) as [<-|Hne].
      - rewrite Hfind in Hf'. inversion Hf'; subst n'. by apply Hin.
      - rewrite lookup_insert_ne in Hkey by done.
        by apply (Hc Hcov key n'). }
    destruct (decide (node_name k = ch)) as [->|Hne].
    + rewrite lookup_insert_eq. by eexists.
    + by rewrite lookup_insert_ne.
  - intros Hco Hent. destruct (He Hco Hent) as [Hent1 Hvs].
    assert (Hv : num_equiv
                   (num_add (cost n) (Math_max num_zero vs))
                   (cumulative ns (node_name k))).
    { unfold cumulative. cbn [cumulative_cost]. rewrite Hfind.
      apply num_add_proper; [reflexivity|].
      apply Math_max_greatest.
      - eapply Forall2_map_agree; [exact Hvs|].
        intros ch Hin'. by eapply cumulative_child.
      - apply Forall_forall. intros v Hv'.
        apply list_elem_of_fmap in Hv' as (ch & -> & _).
        by apply cumulative_cost_ok. }
    split; [|done].
    intros key w Hw. destruct (decide (node_name k = key)) as [<-|Hne].
    + rewrite lookup_insert_eq in Hw. by inversion Hw; subst.
    + rewrite lookup_insert_ne in Hw by done. by apply Hent1.
Qed.

(** *** Second pass: the marking *)

Lemma pairs_same (m : gmap string number) (chs : list string) :
  costs_ok ns -> entries_ok ns m -> (forall ch, ch ∈ chs -> is_Some (m !! ch)) ->
  Forall2 same_entry (map (cost_pair m) chs)
                     (map (with_value (cumulative ns)) chs).
Proof.
  intros Hco Hent Hin. induction chs as [|ch chs IH]; simpl; [constructor|].
  constructor.
  - split; [done|]. simpl.
    destruct (Hin ch) as [w Hw]; [apply elem_of_cons; by left|].
    rewrite Hw. pose proof (Hent _ _ Hw) as He.
    transitivity w; [|done]. apply or_zero_equiv.
    eapply weight_ok_equiv; [by apply cumulative_cost_ok|by symmetry].
  - apply IH. intros c Hc. apply Hin. apply elem_of_cons. by right.
Qed.

Lemma pairs_grid (m : gmap string number) (chs : list string) :
  costs_ok ns -> entries_ok ns m -> (forall ch, ch ∈ chs -> is_Some (m !! ch)) ->
  Forall (fun y => grid (snd y)) (map (cost_pair m) chs).
Proof.
  intros Hco Hent Hin. pose proof (pairs_same m chs Hco Hent Hin) as H.
  induction chs as [|ch chs IH]; simpl in *; [constructor|].
  inversion H as [|? ? ? ? [_ Hv] Hrest]; subst. constructor.
  - simpl in Hv.
    by destruct (weight_ok_equiv _ _ (cumulative_cost_ok (S N) ch Hco)
                   (symmetry Hv)).
  - apply IH; [|done]. intros c Hc. apply Hin. apply elem_of_cons. by right.
Qed.

Lemma markPath_ok (m : gmap string number) (fuel k : nat) (l : list PlanNode) :
  (1 <= k <= N)%nat -> (N < fuel + k)%nat -> marked_of ns l ->
  exists res,
    markPath m fuel (node_name k) l = Some res /\ marked_of ns res /\
    (costs_ok ns -> entries_ok ns m -> covers ns m -> is_Some (m !! node_name k) ->
     res = fold_left mark_node
             (greedy_path ns (cumulative ns) fuel (node_name k)) l).
Proof.
  revert k l. induction fuel as [|fuel IH]; intros k l Hk Hf Hl; [lia|].
  cbn [markPath greedy_path].
  destruct (node_at k Hk) as (n & Hn & Hfind & Hid). rewrite Hfind.
  pose proof (marked_of_find ns l (node_name k) Hl) as Hfl.
  rewrite Hfind in Hfl. inversion Hfl as [n0 n' Hn' E0 E'|]; subst n0.
  assert (Hchn : children n' = children n) by (by destruct Hn' as [-> | ->]).
  rewrite Hchn. clear E' Hfl.
  pose proof (js_sort_head (map (cost_pair m) (children n))) as Hhead.
  pose proof (js_sort_head_elem by_cost_desc (map (cost_pair m) (children n)))
    as Helem.
  destruct (js_sort by_cost_desc (map (cost_pair m) (children n)))
    as [|first rest] eqn:Hsort; simpl in Hhead, Helem.
  - eexists. split; [reflexivity|]. split; [by apply marked_of_mark|].
    intros Hco Hent Hcov Hdom.
    pose proof (first_greatest_equiv _ _
                  (pairs_same m (children n) Hco Hent
                     (fun ch Hc => Hcov _ _ Hdom Hfind ch Hc))) as Heq.
    rewrite <- Hhead in Heq; [by inversion Heq|].
    apply pairs_grid; [done|done|]. intros ch Hc. by apply (Hcov _ _ Hdom Hfind).
  - pose proof (Helem first eq_refl) as Hin.
    apply list_elem_of_fmap in Hin as (ch & -> & Hch').
    destruct (children_later _ _ _ Hfind Hch') as (j & -> & Hj).
    destruct (IH j (mark_node l (node_name k))) as (res & E & Hres & Hspec);
      [lia|lia|by apply marked_of_mark|].
    simpl. rewrite E. exists res. split; [done|]. split; [done|].
    intros Hco Hent Hcov Hdom.
    pose proof (first_greatest_equiv _ _
                  (pairs_same m (children n) Hco Hent
                     (fun ch Hc => Hcov _ _ Hdom Hfind ch Hc))) as Heq.
    rewrite <- Hhead in Heq;
      [|apply pairs_grid; [done|done|];
        intros ch' Hc; by apply (Hcov _ _ Hdom Hfind)]. inversion Heq as [a b [Hab _] Ea Eb|]; subst a.
    simpl in Hab. rewrite <- Hab. simpl.
    apply Hspec; try done. by apply (Hcov _ _ Hdom Hfind).
Qed.

Lemma calc_roots (rs : list PlanNode) (m : gmap string number) :
  (forall r, r ∈ rs -> r ∈ ns) ->
  exists m',
    foldM (fun m root =>
             snd <$> calculateCumulativeCost ns (S N) (id root) m) rs m
    = Some m' /\
    (forall r, r ∈ rs -> is_Some (m' !! id r)) /\ grows m m' /\
    (covers ns m -> covers ns m') /\
    (costs_ok ns -> entries_ok ns m -> entries_ok ns m').
Proof.
  revert m. induction rs as [|r rs IH]; intros m Hrs; cbn [foldM].
  - exists m. split; [done|]. split; [intros r H; by apply elem_of_nil in H|].
    split; [by intros key|]. done.
  - assert (Hr : r ∈ ns) by (apply Hrs, elem_of_cons; by left).
    apply list_elem_of_lookup in Hr as [p Hp].
    pose proof (lookup_id _ _ Hp) as Hid. rewrite Hid.
    destruct (calc_ok (S N) (S p) m) as (v & m1 & E & Hv & Hg & Hc & He).
    { apply lookup_lt_Some in Hp. lia. }
    { lia. }
    rewrite E. simpl.
    destruct (IH m1) as (m2 & E2 & Hin2 & Hg2 & Hc2 & He2).
    { intros r' Hr'. apply Hrs, elem_of_cons. by right. }
    exists m2. split; [done|]. split; [|split; [|split]].
    + intros r' Hr'. apply elem_of_cons in Hr' as [->|Hr']; [|by apply Hin2].
      apply Hg2. rewrite Hid. by eexists.
    + intros key Hkey. by apply Hg2, Hg.
    + intros Hcov. by apply Hc2, Hc.
    + intros Hco Hent. apply He2; [done|]. by apply He.
Qed.

Lemma rootNodes_roots_of : rootNodes ns = roots_of ns.
Proof.
  unfold rootNodes, roots_of. apply list_filter_iff. intros n.
  unfold allChildren, is_root. rewrite elem_of_list_to_set, Forall_forall.
  split.
  - intros Hn m Hm Hin. apply Hn. apply list_elem_of_In, in_flat_map.
    exists m. split; by apply list_elem_of_In.
  - intros Hn Hin. apply list_elem_of_In, in_flat_map in Hin as (m & Hm & Hin).
    apply (Hn m); by apply list_elem_of_In.
Qed.

Lemma markCriticalPath_ok :
  exists res,
    markCriticalPath ns = Some res /\ marked_of ns res /\
    (costs_ok ns -> res = fold_left mark_node (critical_path ns) ns).
Proof.
  unfold markCriticalPath.
  assert (Hm : forall l, l = ns ->
    exists res,
      match l with
      | [] => Some l
      | _ :: _ =>
          match foldM (fun m root =>
                         snd <$> calculateCumulativeCost l (S (length l))
                                   (id root) m) (rootNodes l) ∅ with
          | Some nodeCosts =>
              match js_sort by_cost_desc
                      (map (fun n => cost_pair nodeCosts (id n)) (rootNodes l)) with
              | [] => Some l
              | first :: _ => markPath nodeCosts (S (length l)) (fst first) l
              end
          | None => None
          end
      end = Some res /\ marked_of ns res /\
      (costs_ok ns -> res = fold_left mark_node (critical_path ns) ns));
    [|by apply Hm].
  intros l El. destruct l as [|n0 ns0].
  { exists ns. split; [by rewrite El|]. split; [apply marked_of_refl|].
    intros _. by rewrite <- El. }
  rewrite El. clear El n0 ns0.
  destruct (calc_roots (rootNodes ns) ∅) as (m & E & Hin & _ & Hcov & Hent).
  { intros r Hr. unfold rootNodes in Hr. by apply list_elem_of_filter in Hr as [_ ?]. }
  rewrite E.
  assert (Hcov0 : covers ns ∅).
  { intros key n [w Hw]. by rewrite lookup_empty in Hw. }
  assert (Hent0 : entries_ok ns ∅).
  { intros key w Hw. by rewrite lookup_empty in Hw. }
  pose proof (js_sort_head
                (map (fun n => cost_pair m (id n)) (rootNodes ns))) as Hhead.
  pose proof (js_sort_head_elem by_cost_desc
                (map (fun n => cost_pair m (id n)) (rootNodes ns))) as Helem.
  assert (Hgrid : costs_ok ns ->
            Forall (fun y => grid (snd y))
              (map (fun n => cost_pair m (id n)) (rootNodes ns))).
  { intros Hco. rewrite <- (map_map id (cost_pair m)).
    apply pairs_grid; [done|by apply Hent|].
    intros ch Hc. apply list_elem_of_fmap in Hc as (r & -> & Hr). by apply Hin. }
  assert (Hsame : costs_ok ns ->
            Forall2 same_entry
              (map (fun n => cost_pair m (id n)) (rootNodes ns))
              (map (fun n => with_value (cumulative ns) (id n)) (roots_of ns))).
  { intros Hco. rewrite <- rootNodes_roots_of.
    rewrite <- (map_map id (cost_pair m)),
            <- (map_map id (with_value (cumulative ns))).
    apply pairs_same; [done|by apply Hent|].
    intros ch Hc. apply list_elem_of_fmap in Hc as (r & -> & Hr). by apply Hin. }
  destruct (js_sort by_cost_desc _) as [|first rest] eqn:Hsort;
    simpl in Hhead, Helem.
  - exists ns. split; [done|]. split; [apply marked_of_refl|].
    intros Hco. pose proof (first_greatest_equiv _ _ (Hsame Hco)) as Heq.
    rewrite <- Hhead in Heq by auto. unfold critical_path, best_root.
    inversion Heq. done.
  - pose proof (Helem first eq_refl) as Hfirst.
    apply list_elem_of_fmap in Hfirst as (r & -> & Hr).
    assert (Hrn : r ∈ ns).
    { unfold rootNodes in Hr. by apply list_elem_of_filter in Hr as [_ ?]. }
    apply list_elem_of_lookup in Hrn as [p Hp].
    pose proof (lookup_id _ _ Hp) as Hid. simpl. rewrite Hid.
    destruct (markPath_ok m (S N) (S p) ns) as (res & Eres & Hres & Hspec).
    { apply lookup_lt_Some in Hp. lia. }
    { lia. }
    { apply marked_of_refl. }
    exists res. split; [done|]. split; [done|].
    intros Hco. pose proof (first_greatest_equiv _ _ (Hsame Hco)) as Heq.
    rewrite <- Hhead in Heq by auto. unfold critical_path, best_root.
    inversion Heq as [a b [Hab _] Ea Eb|]; subst a. simpl in Hab.
    rewrite <- Hab, Hid. apply Hspec; try done.
    + by apply Hent.
    + by apply Hcov.
    + rewrite <- Hid. by apply Hin.
Qed.

(** *** The path that is marked *)

Lemma first_node_root (n : PlanNode) : ns !! 0%nat = Some n -> n ∈ roots_of ns.
Proof.
  intros Hn. apply list_elem_of_filter. split; [|by eapply list_elem_of_lookup_2].
  apply Forall_forall. intros m Hm Hin.
  apply list_elem_of_lookup in Hm as [p Hp].
  destruct (Hch _ _ _ Hp Hin) as (j & E & Hj).
  rewrite (lookup_id _ _ Hn) in E. apply node_name_inj in E. lia.
Qed.

Lemma best_root_Some :
  ns <> [] ->
  exists first r, best_root ns = Some first /\ r ∈ roots_of ns /\
                  fst first = id r.
Proof.
  intros Hne. destruct (lookup_lt_is_Some_2 ns 0) as [n Hn].
  { destruct ns; [done|simpl; lia]. }
  pose proof (first_node_root n Hn) as Hroot.
  destruct (first_greatest_is_Some
              (map (fun n => with_value (cumulative ns) (id n)) (roots_of ns)))
    as [first Hfirst].
  { intros E. apply map_eq_nil in E. rewrite E in Hroot.
    by apply elem_of_nil in Hroot. }
  pose proof (first_greatest_elem _ _ Hfirst) as Hin.
  apply list_elem_of_fmap in Hin as (r & -> & Hr).
  by exists (with_value (cumulative ns) (id r)), r.
Qed.

Lemma greedy_path_chain (cum : string -> number) (fuel k : nat) :
  (1 <= k <= N)%nat -> (N < fuel + k)%nat ->
  greedy_chain ns cum (node_name k) (greedy_path ns cum fuel (node_name k)).
Proof.
  revert k. induction fuel as [|fuel IH]; intros k Hk Hf; [lia|].
  cbn [greedy_path].
  destruct (node_at k Hk) as (n & Hn & Hfind & Hid). rewrite Hfind.
  destruct (first_greatest (map (with_value cum) (children n)))
    as [first|] eqn:Hfirst.
  - pose proof (first_greatest_elem _ _ Hfirst) as Hin.
    apply list_elem_of_fmap in Hin as (ch & -> & Hch').
    destruct (children_later _ _ _ Hfind Hch') as (j & -> & Hj).
    eapply chain_step; [done|done|]. simpl. apply IH; lia.
  - eapply chain_leaf; [done|].
    destruct (children n) as [|ch chs] eqn:E; [done|].
    destruct (first_greatest_is_Some (map (with_value cum) (ch :: chs)));
      [done|congruence].
Qed.

Lemma critical_path_chain :
  ns <> [] ->
  exists first r,
    best_root ns = Some first /\ r ∈ roots_of ns /\ fst first = id r /\
    greedy_chain ns (cumulative ns) (fst first) (critical_path ns).
Proof.
  intros Hne. destruct (best_root_Some Hne) as (first & r & Hb & Hr & Hf).
  exists first, r. split; [done|]. split; [done|]. split; [done|].
  unfold critical_path. rewrite Hb, Hf.
  apply list_elem_of_filter in Hr as [_ Hr].
  apply list_elem_of_lookup in Hr as [p Hp].
  rewrite (lookup_id _ _ Hp). apply lookup_lt_Some in Hp.
  apply greedy_path_chain; lia.
Qed.

Lemma marked_iff_on_path (path : list string) (n' : PlanNode) :
  Forall (fun n => isCriticalPath n = None) ns ->
  n' ∈ fold_left mark_node path ns ->
  (isCriticalPath n' = Some true <-> id n' ∈ path).
Proof.
  intros Hun Hin. apply list_elem_of_lookup in Hin as [p Hp].
  assert (Hmo : marked_of ns (fold_left mark_node path ns)).
  { apply marked_of_path, marked_of_refl. }
  destruct (lookup_lt_is_Some_2 ns p) as [n Hn].
  { rewrite (Forall2_length _ _ _ Hmo). by eapply lookup_lt_Some. }
  destruct (mark_path_lookup path ns p n ids_NoDup Hn) as (n'' & Hn'' & Hid & Hm).
  rewrite Hp in Hn''. inversion Hn''; subst n''.
  rewrite Hm, Hid.
  assert (Hnone : isCriticalPath n = None).
  { apply (proj1 (Forall_forall _ _) Hun). by eapply list_elem_of_lookup_2. }
  rewrite Hnone. split; [intros [H|H]; [done|done]|by right].
Qed.
End CriticalPath.

(** ** Layout: the adjacency maps *)

Lemma adjacency_fold (es : list PlanEdge)
    (cm : gmap string (list string)) (pm : gmap string string) :
  let maps := fold_left adjacency_step es (cm, pm) in
  (forall t, default [] (fst maps !! t) = default [] (cm !! t) ++ sources_to es t) /\
  (forall s, snd maps !! s = None <-> pm !! s = None /\ s ∉ map source es).
Proof.
  revert cm pm. induction es as [|e es IH]; intros cm pm; simpl.
  - split; [intros t; by rewrite app_nil_r|].
    intros s. split; [intros H; split; [done|apply not_elem_of_nil]|by intros [? _]].
  - destruct (IH (<[target e := default [] (cm !! target e) ++ [source e]]> cm)
                 (<[source e := target e]> pm)) as [IH1 IH2].
    split.
    + intros t. rewrite IH1. unfold sources_to. rewrite filter_cons.
      destruct (decide (target e = t)) as [->|Hne].
      * rewrite lookup_insert_eq. simpl. by rewrite <- app_assoc.
      * by rewrite lookup_insert_ne.
    + intros s. rewrite IH2. rewrite not_elem_of_cons.
      destruct (decide (source e = s)) as [->|Hne].
      * rewrite lookup_insert_eq. split; [by intros [? _]|by intros (_ & ? & _)].
      * rewrite lookup_insert_ne by done. naive_solver.
Qed.

Lemma adjacency_children (es : list PlanEdge) (t : string) :
  default [] (fst (adjacency es) !! t) = sources_to es t.
Proof.
  destruct (adjacency_fold es ∅ ∅) as [H _]. unfold adjacency.
  by rewrite H, lookup_empty.
Qed.

Lemma adjacency_parent (es : list PlanEdge) (s : string) :
  snd (adjacency es) !! s = None <-> s ∉ map source es.
Proof.
  destruct (adjacency_fold es ∅ ∅) as [_ H]. unfold adjacency.
  rewrite H, lookup_empty. naive_solver.
Qed.

Lemma elem_of_sources_to (es : list PlanEdge) (c t : string) :
  c ∈ sources_to es t <-> mkPlanEdge c t ∈ es.
Proof.
  unfold sources_to. rewrite list_elem_of_fmap. split.
  - intros (e & -> & He). apply list_elem_of_filter in He as [<- He]. by destruct e.
  - intros He. exists (mkPlanEdge c t). split; [done|].
    by apply list_elem_of_filter.
Qed.

(** ** Layout: positions *)

Lemma set_position_ids (l : list FlowNode) (s : string) (p : Position) :
  map node_id (set_position l s p) = map node_id l.
Proof.
  induction l as [|n l IH]; simpl; [done|].
  destruct (String.eqb (node_id n) s); simpl; [done|by rewrite IH].
Qed.

Lemma set_position_data (l : list FlowNode) (s : string) (p : Position) :
  map data (set_position l s p) = map data l.
Proof.
  induction l as [|n l IH]; simpl; [done|].
  destruct (String.eqb (node_id n) s); simpl; [done|by rewrite IH].
Qed.

Lemma nodepos_set_eq (l : list FlowNode) (s : string) (p : Position) :
  s ∈ map node_id l -> nodepos (set_position l s p) s = Some p.
Proof.
  unfold nodepos. induction l as [|n l IH]; simpl; intros Hin.
  - by apply elem_of_nil in Hin.
  - destruct (String.eqb_spec (node_id n) s) as [E|E]; simpl.
    + by rewrite E, String.eqb_refl.
    + apply String.eqb_neq in E as E'. rewrite E'. apply IH.
      apply elem_of_cons in Hin as [Hin|Hin]; [congruence|done].
Qed.

Lemma nodepos_set_ne (l : list FlowNode) (s s' : string) (p : Position) :
  s <> s' -> nodepos (set_position l s p) s' = nodepos l s'.
Proof.
  unfold nodepos. intros Hne. induction l as [|n l IH]; simpl; [done|].
  destruct (String.eqb_spec (node_id n) s) as [E|E]; simpl.
  - rewrite E. destruct (String.eqb_spec s s'); [done|]. done.
  - destruct (String.eqb (node_id n) s'); [done|apply IH].
Qed.

Lemma find_flow_node (l : list FlowNode) (s : string) :
  s ∈ map node_id l ->
  is_Some (List.find (fun n => String.eqb (node_id n) s) l).
Proof.
  induction l as [|n l IH]; simpl; intros Hin.
  - by apply elem_of_nil in Hin.
  - destruct (String.eqb_spec (node_id n) s) as [E|E]; [by eexists|].
    apply IH. apply elem_of_cons in Hin as [Hin|Hin]; [congruence|done].
Qed.

Lemma edge_sources (ks : list nat) (l : list PlanEdge) :
  Forall2 plan_edge_ok ks l -> map source l = node_name <$> ks.
Proof.
  induction 1 as [|k e ks l [Hs _] _ IH]; [done|].
  simpl. rewrite Hs. f_equal. exact IH.
Qed.

Section Layout.
Variable ns : list FlowNode.
Variable es : list PlanEdge.
Hypothesis Hids : map node_id ns = node_name <$> seq 1 (length ns).
Hypothesis Hes : exists ks,
  Forall2 plan_edge_ok ks es /\ increasing 0 ks (length ns).

Local Abbreviation N := (length ns).
Local Abbreviation childrenMap := (fst (adjacency es)).
Local Abbreviation parentMap := (snd (adjacency es)).

Lemma child_of_names (c t : string) :
  child_of es c t ->
  exists k i, c = node_name k /\ t = node_name i /\
              (0 < i < k)%nat /\ (k <= N)%nat.
Proof.
  destruct Hes as (ks & HF & Hinc). intros Hin.
  apply list_elem_of_lookup in Hin as [p Hp].
  destruct (Forall2_lookup_r _ _ _ _ _ HF Hp) as (k & Hk & Hs & i & Ht & Hi).
  simpl in *. exists k, i. split; [done|]. split; [done|].
  apply list_elem_of_lookup_2 in Hk.
  apply (increasing_bounds _ _ _ _ Hinc) in Hk. lia.
Qed.

Lemma sources_NoDup : NoDup (map source es).
Proof.
  destruct Hes as (ks & HF & Hinc).
  rewrite (edge_sources _ _ HF). apply NoDup_fmap_2; [|by eapply increasing_NoDup].
  intros j k. apply node_name_inj.
Qed.

Lemma parent_unique (c t t' : string) :
  child_of es c t -> child_of es c t' -> t = t'.
Proof.
  unfold child_of. intros H1 H2.
  apply list_elem_of_lookup in H1 as [p Hp], H2 as [q Hq].
  assert (p = q).
  { eapply NoDup_lookup; [apply sources_NoDup| |].
    - rewrite list_lookup_fmap, Hp. done.
    - rewrite list_lookup_fmap, Hq. done. }
  subst q. rewrite Hp in Hq. by inversion Hq.
Qed.

Lemma children_of (t c : string) :
  c ∈ default [] (childrenMap !! t) <-> child_of es c t.
Proof. rewrite adjacency_children. apply elem_of_sources_to. Qed.

Lemma name_in_ids (k : nat) : (1 <= k <= N)%nat -> node_name k ∈ map node_id ns.
Proof.
  intros Hk. rewrite Hids. apply list_elem_of_fmap. exists k.
  split; [done|]. apply elem_of_seq. lia.
Qed.

(** *** First pass: subtree widths *)

Lemma children_later_names (k : nat) (c : string) :
  c ∈ default [] (childrenMap !! node_name k) ->
  exists j, c = node_name j /\ (k < j <= N)%nat.
Proof.
  intros Hc. apply children_of, child_of_names in Hc
    as (j & i & -> & E & Hi & Hj).
  apply node_name_inj in E as <-. exists j. split; [done|lia].
Qed.

Lemma calcWidth_total (fuel k : nat) (sw : gmap string Z) :
  (1 <= k <= N)%nat -> (N < fuel + k)%nat ->
  is_Some (calcWidth childrenMap fuel (node_name k) sw).
Proof.
  revert k sw. induction fuel as [|fuel IH]; intros k sw Hk Hf; [lia|].
  cbn [calcWidth].
  pose proof (children_later_names k) as Hch.
  destruct (default [] (childrenMap !! node_name k)) as [|c cs]; [by eexists|].
  assert (Hfold : forall chs acc,
            (forall c, c ∈ chs -> exists j, c = node_name j /\ (k < j <= N)%nat) ->
            is_Some (foldM
              (fun st childId =>
                 match calcWidth childrenMap fuel childId (snd st) with
                 | Some (w, sw) => Some (fst st + w + horizontalGap, sw)
                 | None => None
                 end) chs acc)).
  { induction chs as [|ch chs IHchs]; intros acc Hchs; cbn [foldM]; [by eexists|].
    destruct (Hchs ch) as (j & -> & Hj); [apply elem_of_cons; by left|].
    destruct (IH j (snd acc)) as [[w sw'] E]; [lia|lia|]. rewrite E.
    apply IHchs. intros c' Hc'. apply Hchs, elem_of_cons. by right. }
  destruct (Hfold (c :: cs) (- horizontalGap, sw) Hch) as [[t sw'] E].
  rewrite E. by eexists.
Qed.

Lemma calcWidth_roots (rs : list FlowNode) (sw : gmap string Z) :
  (forall r, r ∈ rs -> r ∈ ns) ->
  is_Some (foldM (fun sw root =>
                    snd <$> calcWidth childrenMap (S (N + length es))
                              (node_id root) sw) rs sw).
Proof.
  revert sw. induction rs as [|r rs IH]; intros sw Hrs; cbn [foldM]; [by eexists|].
  assert (Hr : node_id r ∈ map node_id ns).
  { apply list_elem_of_fmap. exists r. split; [done|].
    apply Hrs, elem_of_cons. by left. }
  rewrite Hids in Hr. apply list_elem_of_fmap in Hr as (k & -> & Hk).
  apply elem_of_seq in Hk.
  destruct (calcWidth_total (S (N + length es)) k sw) as [[w sw'] E]; [lia|lia|].
  rewrite E. simpl. apply IH. intros r' Hr'. apply Hrs, elem_of_cons. by right.
Qed.

(** *** Second pass: positions *)

Lemma frame_refl (st : LayoutState) : frame st st.
Proof. by split. Qed.

Lemma frame_trans (st1 st2 st3 : LayoutState) :
  frame st1 st2 -> frame st2 st3 -> frame st1 st3.
Proof.
  intros [H1 H2] [H3 H4]. split; [set_solver|].
  intros s Hs. rewrite H4 by set_solver. by apply H2.
Qed.

Lemma positionNode_ok (sw : gmap string Z) (fuel k : nat) (x y : Z)
    (st : LayoutState) (S : gset string) :
  (1 <= k <= N)%nat -> (N < fuel + k)%nat ->
  lay_inv ns es st -> closed_except es S st -> ready es st (node_name k) y ->
  exists st', positionNode childrenMap sw fuel (node_name k) x y st = Some st'
              /\ position_post ns es S (node_name k) st st'.
Proof.
  revert k x y st S. induction fuel as [|fuel IH]; intros k x y st S Hk Hf Hinv Hcl Hready;
    [lia|].
  cbn [positionNode]. destruct st as [positioned l].
  destruct (decide (node_name k ∈ positioned)) as [Hin|Hnin].
  { exists (positioned, l). split; [done|]. split; [done|]. split; [done|].
    split; [apply frame_refl|done]. }
  destruct Hinv as (Hl & Hd & Hedges). simpl in Hl, Hd, Hedges.
  destruct (find_flow_node l (node_name k)) as [n Hn].
  { rewrite Hl. by apply name_in_ids. }
  rewrite Hn.
  set (st1 := (({[node_name k]} ∪ positioned,
                set_position l (node_name k) (mkPosition x y)) : LayoutState)).
  assert (Hpos1 : nodepos (snd st1) (node_name k) = Some (mkPosition x y)).
  { apply nodepos_set_eq. rewrite Hl. by apply name_in_ids. }
  assert (Hframe1 : frame (positioned, l) st1).
  { split; [set_solver|]. intros s Hs. simpl.
    apply nodepos_set_ne. intros E. by subst s. }
  assert (Hinv1 : lay_inv ns es st1).
  { split; [simpl; by rewrite set_position_ids|].
    split; [simpl; by rewrite set_position_data|].
    intros c t Hct Hc. simpl in Hc. apply elem_of_union in Hc as [Hc|Hc].
    - apply elem_of_singleton in Hc. subst c.
      destruct (Hready Hnin t Hct) as (Ht & q & Hq & Hy). simpl in Ht, Hq.
      split; [set_solver|]. exists (mkPosition x y), q.
      split; [done|]. split; [|done].
      simpl. rewrite nodepos_set_ne; [done|]. intros E. by subst t.
    - destruct (Hedges c t Hct Hc) as (Ht & p & q & Hp & Hq & Hpq).
      split; [set_solver|]. exists p, q. simpl.
      rewrite !nodepos_set_ne; [done| |]; intros E; by subst. }
  assert (Hcl1 : closed_except es ({[node_name k]} ∪ S) st1).
  { intros c t Hct Ht HtS. simpl in *.
    apply elem_of_union in Ht as [Ht|Ht]; [set_solver|].
    apply elem_of_union. right. apply (Hcl c t Hct Ht). set_solver. }
  pose proof (children_later_names k) as Hch.
  pose proof (fun c => proj1 (children_of (node_name k) c)) as Hchof.
  pose proof (fun c => proj2 (children_of (node_name k) c)) as Hofch.
  destruct (default [] (childrenMap !! node_name k)) as [|c0 cs0] eqn:Echs.
  { exists st1. split; [done|]. split; [done|]. split; [|split; [done|set_solver]].
    intros c t Hct Ht HtS. simpl in *.
    apply elem_of_union in Ht as [Ht|Ht].
    - apply elem_of_singleton in Ht. subst t. apply Hofch in Hct.
      by apply elem_of_nil in Hct.
    - apply elem_of_union. right. by apply (Hcl c t Hct Ht). }
  cbv beta iota zeta.
  remember (c0 :: cs0) as chs eqn:Hchs. clear Hchs c0 cs0.
  assert (Hloop : forall cs cx sti,
    (forall c, c ∈ cs -> c ∈ chs) ->
    lay_inv ns es sti -> closed_except es ({[node_name k]} ∪ S) sti -> frame st1 sti ->
    exists cx' st',
      foldM (fun acc childId =>
               let '(childX, st) := acc in
               match positionNode childrenMap sw fuel childId
                       (childX + width_or_default sw childId / 2 - nodeWidth / 2)
                       (y + nodeHeight + verticalGap) st with
               | Some st =>
                   Some (childX + width_or_default sw childId + horizontalGap, st)
               | None => None
               end) cs (cx, sti) = Some (cx', st') /\
      lay_inv ns es st' /\ closed_except es ({[node_name k]} ∪ S) st' /\
      frame sti st' /\ (forall c, c ∈ cs -> c ∈ fst st')).
  { induction cs as [|c cs IHcs]; intros cx sti Hcs Hinvi Hcli Hfri; cbn [foldM].
    - exists cx, sti. split; [done|]. split; [done|]. split; [done|].
      split; [apply frame_refl|]. intros c Hc. by apply elem_of_nil in Hc.
    - assert (Hc : c ∈ chs) by (apply Hcs, elem_of_cons; by left).
      destruct (Hch c Hc) as (j & -> & Hj).
      destruct (IH j (cx + width_or_default sw (node_name j) / 2 - nodeWidth / 2)
                   (y + nodeHeight + verticalGap) sti ({[node_name k]} ∪ S))
        as (st2 & E2 & Hinv2 & Hcl2 & Hfr2 & Hin2); [lia|lia|done|done| |].
      { intros Hnot t Hct.
        assert (t = node_name k) as ->.
        { eapply parent_unique; [exact Hct|]. by apply Hchof. }
        destruct Hfri as [Hsub Hsame]. split; [apply Hsub; simpl; set_solver|].
        exists (mkPosition x y). split; [|done].
        rewrite Hsame; [done|]. simpl. set_solver. }
      rewrite E2.
      destruct (IHcs (cx + width_or_default sw (node_name j) + horizontalGap) st2)
        as (cx' & st3 & E3 & Hinv3 & Hcl3 & Hfr3 & Hin3).
      { intros c' Hc'. apply Hcs, elem_of_cons. by right. }
      { done. } { done. } { by eapply frame_trans. }
      exists cx', st3. split; [done|]. split; [done|]. split; [done|].
      split; [by eapply frame_trans|].
      intros c' Hc'. apply elem_of_cons in Hc' as [->|Hc']; [|by apply Hin3].
      destruct Hfr3 as [Hsub _]. by apply Hsub. }
  destruct (Hloop chs
              (x + (nodeWidth
                    - fold_left (fun sum childId =>
                                   sum + width_or_default sw childId + horizontalGap)
                                chs (- horizontalGap)) / 2)
              st1 (fun c Hc => Hc) Hinv1 Hcl1 (frame_refl st1))
    as (cx' & st' & E & Hinv' & Hcl' & Hfr' & Hin').
  match goal with |- exists st0, snd <$> ?f = Some st0 /\ _ =>
    replace f with (Some (cx', st')) by (symmetry; exact E) end.
  simpl. exists st'. split; [done|]. split; [done|].
  split; [|split; [by eapply frame_trans|]].
  - intros c t Hct Ht HtS.
    destruct (decide (t = node_name k)) as [->|Hne].
    + apply Hin'. by apply Hofch.
    + apply (Hcl' c t Hct Ht). set_solver.
  - destruct Hfr' as [Hsub _]. apply Hsub. simpl. set_solver.
Qed.

Lemma position_roots (sw : gmap string Z) (rs : list FlowNode) (rx : Z)
    (st : LayoutState) :
  (forall r, r ∈ rs -> r ∈ ns /\ node_id r ∉ map source es) ->
  lay_inv ns es st -> closed_except es ∅ st ->
  exists rx' st',
    foldM (fun acc root =>
             let '(rootX, st) := acc in
             let width := width_or_default sw (node_id root) in
             match positionNode childrenMap sw (S (N + length es))
                     (node_id root) rootX 0 st with
             | Some st => Some (rootX + width + horizontalGap * 2, st)
             | None => None
             end) rs (rx, st) = Some (rx', st') /\
    lay_inv ns es st' /\ closed_except es ∅ st' /\ frame st st' /\
    (forall r, r ∈ rs -> node_id r ∈ fst st').
Proof.
  revert rx st. induction rs as [|r rs IH]; intros rx st Hrs Hinv Hcl; cbn [foldM].
  - exists rx, st. split; [done|]. split; [done|]. split; [done|].
    split; [apply frame_refl|]. intros r Hr. by apply elem_of_nil in Hr.
  - destruct (Hrs r) as [Hr Hroot]; [apply elem_of_cons; by left|].
    assert (Hid : node_id r ∈ map node_id ns).
    { apply list_elem_of_fmap. by exists r. }
    rewrite Hids in Hid. apply list_elem_of_fmap in Hid as (k & Ek & Hk).
    apply elem_of_seq in Hk. rewrite Ek in *.
    destruct (positionNode_ok sw (S (N + length es)) k rx 0 st ∅)
      as (st1 & E1 & Hinv1 & Hcl1 & Hfr1 & Hin1); [lia|lia|done|done| |].
    { intros _ t Hct. exfalso. apply Hroot.
      apply list_elem_of_fmap. by exists (mkPlanEdge (node_name k) t). }
    cbv zeta. rewrite E1.
    destruct (IH (rx + width_or_default sw (node_name k) + horizontalGap * 2) st1)
      as (rx' & st2 & E2 & Hinv2 & Hcl2 & Hfr2 & Hin2); [|done|done|].
    { intros r' Hr'. apply Hrs, elem_of_cons. by right. }
    exists rx', st2. split; [done|]. split; [done|]. split; [done|].
    split; [by eapply frame_trans|].
    intros r' Hr'. apply elem_of_cons in Hr' as [->|Hr']; [|by apply Hin2].
    rewrite Ek. destruct Hfr2 as [Hsub _]. by apply Hsub.
Qed.

Lemma all_positioned (st : LayoutState) :
  closed_except es ∅ st ->
  (forall r, r ∈ ns -> node_id r ∉ map source es -> node_id r ∈ fst st) ->
  forall k, (1 <= k <= N)%nat -> node_name k ∈ fst st.
Proof.
  intros Hcl Hroots k. induction k as [k IH] using lt_wf_ind. intros Hk.
  destruct (decide (node_name k ∈ map source es)) as [Hin|Hnot].
  - apply list_elem_of_fmap in Hin as (e & Es & He).
    assert (Hct : child_of es (node_name k) (target e)).
    { unfold child_of. rewrite Es. by destruct e. }
    destruct (child_of_names _ _ Hct) as (k' & i & E & Et & Hi & Hk').
    apply node_name_inj in E as <-.
    apply (Hcl _ _ Hct); [|set_solver]. rewrite Et. apply IH; lia.
  - pose proof (name_in_ids k Hk) as Hin.
    apply list_elem_of_fmap in Hin as (r & Er & Hr).
    rewrite Er in *. by apply Hroots.
Qed.

Lemma orphans_none (positioned : gset string) (rx : Z) (l acc : list FlowNode)
    (oy : Z) :
  (forall n, n ∈ l -> node_id n ∈ positioned) ->
  fold_left (orphan_step positioned rx) l (acc, oy) = (acc ++ l, oy).
Proof.
  revert acc. induction l as [|n l IH]; intros acc Hl; simpl.
  - by rewrite app_nil_r.
  - destruct (decide (node_id n ∈ positioned)) as [Hin|Hnot].
    + rewrite IH; [by rewrite <- app_assoc|].
      intros m Hm. apply Hl, elem_of_cons. by right.
    + exfalso. apply Hnot, Hl, elem_of_cons. by left.
Qed.

(** On the graph of a parse the layout terminates, keeps the nodes, and
    puts every producer one row below its consumer. *)
Lemma applyLayout_ok :
  exists l,
    applyLayout ns es = Some l /\
    map node_id l = map node_id ns /\ map data l = map data ns /\
    forall c t, child_of es c t ->
      exists p q, nodepos l c = Some p /\ nodepos l t = Some q /\
                  row_below p q.
Proof.
  unfold applyLayout. rewrite (surjective_pairing (adjacency es)).
  set (roots := filter (fun n => parentMap !! node_id n = None) ns).
  assert (Hroots : forall r, r ∈ roots <-> r ∈ ns /\ node_id r ∉ map source es).
  { intros r. unfold roots. rewrite list_elem_of_filter, adjacency_parent.
    tauto. }
  destruct (calcWidth_roots roots ∅) as [sw Esw].
  { intros r Hr. by apply Hroots. }
  rewrite Esw.
  destruct (position_roots sw roots 0 (∅, ns))
    as (rx & [positioned l] & E & Hinv & Hcl & _ & Hin).
  { intros r Hr. by apply Hroots. }
  { split; [done|]. split; [done|]. intros c t _ Hc. simpl in Hc. set_solver. }
  { intros c t _ Ht. simpl in Ht. set_solver. }
  match goal with |- context [match ?f with Some _ => _ | None => None end] =>
    replace f with (Some (rx, (positioned, l))) by (symmetry; exact E) end.
  pose proof (all_positioned (positioned, l) Hcl) as Hall.
  destruct Hinv as (Hl & Hd & Hedges). simpl in *.
  assert (Hevery : forall n, n ∈ l -> node_id n ∈ positioned).
  { intros n Hn. assert (Hid : node_id n ∈ map node_id l).
    { apply list_elem_of_fmap. by exists n. }
    rewrite Hl, Hids in Hid. apply list_elem_of_fmap in Hid as (k & -> & Hk).
    apply elem_of_seq in Hk. apply Hall; [|lia].
    intros r Hr Hroot. apply Hin, Hroots. by split. }
  rewrite orphans_none by done. simpl. exists l.
  split; [done|]. split; [done|]. split; [done|].
  intros c t Hct. apply (Hedges c t Hct).
  destruct (child_of_names _ _ Hct) as (k & i & -> & _ & Hi & Hk).
  apply Hall; [|lia]. intros r Hr Hroot. apply Hin, Hroots. by split.
Qed.
End Layout.

(** ** Layout: halving is exact

    The layout halves widths with [/ 2].  Every width that [calcWidth]
    stores is even, so the integer quotient of the model is the quotient
    that JavaScript computes. *)

Lemma width_or_default_even (sw : gmap string Z) (i : string) :
  all_even sw -> Z.even (width_or_default sw i) = true.
Proof.
  intros H. unfold width_or_default. destruct (sw !! i) as [w|] eqn:E; [|done].
  destruct (w =? 0); [done|]. by apply (H i).
Qed.

Lemma all_even_insert (sw : gmap string Z) (i : string) (w : Z) :
  all_even sw -> Z.even w = true -> all_even (<[i := w]> sw).
Proof.
  intros H Hw key v. destruct (decide (i = key)) as [->|Hne].
  - rewrite lookup_insert_eq. by intros [= <-].
  - rewrite lookup_insert_ne by done. apply H.
Qed.

Lemma calcWidth_even (cm : gmap string (list string)) (fuel : nat) :
  forall i sw w sw',
    all_even sw -> calcWidth cm fuel i sw = Some (w, sw') ->
    Z.even w = true /\ all_even sw'.
Proof.
  induction fuel as [|fuel IH]; intros i sw w sw' Hsw; [done|].
  cbn [calcWidth]. destruct (default [] (cm !! i)) as [|ch chs] eqn:Ech.
  - intros [= <- <-]. split; [done|]. by apply all_even_insert.
  - generalize (ch :: chs). intros l.
    assert (Hloop : forall st st',
              Z.even (fst st) = true -> all_even (snd st) ->
              foldM (fun st childId =>
                       match calcWidth cm fuel childId (snd st) with
                       | Some (w, sw) => Some (fst st + w + horizontalGap, sw)
                       | None => None
                       end) l st = Some st' ->
              Z.even (fst st') = true /\ all_even (snd st')).
    { induction l as [|c l IHl]; intros st st' He Ha; cbn [foldM].
      - by intros [= <-].
      - destruct (calcWidth cm fuel c (snd st)) as [[w1 sw1]|] eqn:Ec; [|done].
        destruct (IH _ _ _ _ Ha Ec) as [Hw1 Hsw1]. apply IHl; [|done].
        simpl. by rewrite !Z.even_add, He, Hw1. }
    destruct (foldM _ l _) as [[total sw1]|] eqn:Ef; [|done].
    intros [= <- <-]. destruct (Hloop (- horizontalGap, sw) _ eq_refl Hsw Ef) as [Ht Hs1].
    simpl in Ht, Hs1.
    assert (Hm : Z.even (Z.max nodeWidth total) = true).
    { destruct (Z.max_spec nodeWidth total) as [[_ ->]|[_ ->]]; done. }
    split; [done|]. by apply all_even_insert.
Qed.

Lemma child_offsets_exact (sw : gmap string Z) (chs : list string) (i : string) :
  all_even sw ->
  Z.even (nodeWidth - fold_left (fun sum childId =>
                                   sum + width_or_default sw childId
                                   + horizontalGap)
                                chs (- horizontalGap)) = true /\
  Z.even (width_or_default sw i) = true /\ Z.even nodeWidth = true.
Proof.
  intros H. split; [|split; [by apply width_or_default_even|done]].
  rewrite Z.even_sub. cbn [nodeWidth Z.even].
  assert (Hf : forall a, Z.even a = true ->
            Z.even (fold_left (fun sum childId =>
                                 sum + width_or_default sw childId + horizontalGap)
                              chs a) = true).
  { induction chs as [|c chs IH]; intros a Ha; simpl; [done|].
    apply IH. by rewrite !Z.even_add, Ha, (width_or_default_even sw c H). }
  by rewrite Hf.
Qed.

(** ** The whole pipeline *)

Lemma emitted_graph (json : MySQLExplainJSON) :
  plan_graph (nodes (emitted json)) (edges (emitted json)) /\
  snd (parseQueryBlock (query_block json) None nt_select 0)
  = length (nodes (emitted json)).
Proof.
  pose proof (parseQueryBlock_ok (query_block json) None nt_select 0) as H.
  unfold parse_ok in H. unfold emitted.
  destruct (parseQueryBlock (query_block json) None nt_select 0) as [r c'].
  simpl in *. destruct H as (Hb & Hid & Hch & (ks & HF & Hinc) & Hun).
  assert (Hlen : length (nodes r) = c').
  { apply (f_equal length) in Hid. unfold ids_of in Hid.
    rewrite length_map, length_fmap, length_seq in Hid. lia. }
  split; [|done]. unfold plan_graph. rewrite Hlen.
  split; [|split; [|split; [|done]]].
  - rewrite Hid. do 2 f_equal. lia.
  - intros i n ch Hn Hin. destruct (Hch _ _ _ Hn Hin) as (j & -> & Hj).
    exists j. split; [done|lia].
  - exists ks. split; [|done]. eapply Forall2_impl; [exact HF|].
    intros k e [Hs [Ht|Ht]]; [done|]. by split.
Qed.

Lemma flow_nodes_ids (l : list PlanNode) (m : number) :
  map node_id (map (fun n => mkFlowNode (id n) (mkPosition 0 0) n m) l) = ids_of l.
Proof. unfold ids_of. by rewrite map_map. Qed.

Lemma flow_nodes_data (l : list PlanNode) (m : number) :
  map data (map (fun n => mkFlowNode (id n) (mkPosition 0 0) n m) l) = l.
Proof. rewrite map_map. simpl. apply map_id. Qed.

(** Marking and layout terminate on everything the parser emits. *)
Lemma parseExplainJSON_ok (json : MySQLExplainJSON) (counter : nat) :
  let ns := nodes (emitted json) in
  let es := edges (emitted json) in
  exists r,
    parseExplainJSON json counter = Some (r, length ns) /\
    markCriticalPath ns = Some (planNodes r) /\
    marked_of ns (planNodes r) /\
    map node_id (flowNodes r) = ids_of ns /\
    map data (flowNodes r) = planNodes r /\
    flowEdges r = imap (flow_edge (planNodes r)) es /\
    forall c t, mkPlanEdge c t ∈ es ->
      exists p q, nodepos (flowNodes r) c = Some p /\
                  nodepos (flowNodes r) t = Some q /\
                  pos_y p = pos_y q + nodeHeight + verticalGap.
Proof.
  intros ns es. destruct (emitted_graph json) as [(Hid & Hch & Hes & Hun) Hc].
  fold ns es in Hid, Hch, Hes, Hun, Hc.
  destruct (markCriticalPath_ok ns Hid Hch) as (pn & Em & Hmo & _).
  unfold parseExplainJSON.
  assert (Epair : parseQueryBlock (query_block json) None nt_select 0
                  = (emitted json, length ns)).
  { unfold emitted, ns in *. rewrite <- Hc. by destruct (parseQueryBlock _ _ _ _). }
  rewrite Epair. fold ns es. rewrite Em.
  set (maxCost := Math_max NInf (map cost pn ++ [Fin 1])).
  set (fl := map (fun n => mkFlowNode (id n) (mkPosition 0 0) n maxCost) pn).
  assert (Hlen : length fl = length ns).
  { unfold fl. rewrite length_map. symmetry. by eapply Forall2_length. }
  assert (Hfid : map node_id fl = node_name <$> seq 1 (length fl)).
  { unfold fl at 1. rewrite flow_nodes_ids, (marked_of_ids _ _ Hmo), Hlen. done. }
  destruct (applyLayout_ok fl es Hfid) as (l & El & Hl1 & Hl2 & Hl3).
  { by rewrite Hlen. }
  rewrite El. unfold fl in Hl1, Hl2.
  rewrite flow_nodes_ids, (marked_of_ids _ _ Hmo) in Hl1.
  rewrite flow_nodes_data in Hl2.
  eexists. split; [reflexivity|]. simpl.
  split; [done|]. split; [done|]. split; [done|]. split; [done|].
  split; [done|].
  intros c t Hct. by apply Hl3.
Qed.

Lemma name_in_ids_of (l : list PlanNode) (j : nat) :
  ids_of l = node_name <$> seq 1 (length l) -> (1 <= j <= length l)%nat ->
  node_name j ∈ ids_of l.
Proof.
  intros -> Hj. apply list_elem_of_fmap. exists j. split; [done|].
  apply elem_of_seq. lia.
Qed.

(** ** Referential integrity *)

(** C8: for every plan the pipeline returns a result in which every name
    used by an edge, as producer or as consumer, and every name in the
    [children] of a node is the name of a returned node. *)
Theorem referential_integrity (json : MySQLExplainJSON) (counter : nat) :
  exists r c',
    parseExplainJSON json counter = Some (r, c') /\
    map node_id (flowNodes r) = ids_of (planNodes r) /\
    (forall e, e ∈ flowEdges r ->
       edge_source e ∈ ids_of (planNodes r) /\
       edge_target e ∈ ids_of (planNodes r)) /\
    (forall n ch, n ∈ planNodes r -> ch ∈ children n ->
       ch ∈ ids_of (planNodes r)) /\
    (forall n ch, n ∈ flowNodes r -> ch ∈ children (data n) ->
       ch ∈ map node_id (flowNodes r)).
Proof.
  destruct (parseExplainJSON_ok json counter)
    as (r & E & _ & Hmo & Hfid & Hfd & Hfe & _).
  destruct (emitted_graph json) as [(Hid & Hch & (ks & HF & Hinc) & _) _].
  pose proof (marked_of_ids _ _ Hmo) as Hpid.
  assert (Hname : forall j, (1 <= j <= length (nodes (emitted json)))%nat ->
                            node_name j ∈ ids_of (planNodes r)).
  { intros j Hj. rewrite Hpid. by apply name_in_ids_of. }
  assert (Hchildren : forall n ch, n ∈ planNodes r -> ch ∈ children n ->
                                   ch ∈ ids_of (planNodes r)).
  { intros n ch Hn Hin. apply list_elem_of_lookup in Hn as [p Hp].
    destruct (Forall2_lookup_r _ _ _ _ _ Hmo Hp) as (n0 & Hn0 & Hnn).
    assert (Hc : children n = children n0) by (by destruct Hnn as [-> | ->]).
    rewrite Hc in Hin. destruct (Hch _ _ _ Hn0 Hin) as (j & -> & Hj).
    apply Hname. lia. }
  eexists r, _. split; [exact E|]. split; [by rewrite Hfid, Hpid|].
  split; [|split; [done|]].
  - intros e He. rewrite Hfe in He.
    apply elem_of_lookup_imap in He as (i & pe & -> & Hpe). simpl.
    destruct (Forall2_lookup_r _ _ _ _ _ HF Hpe) as (k & Hk & Hs & t & Ht & Hi).
    apply list_elem_of_lookup_2 in Hk.
    apply (increasing_bounds _ _ _ _ Hinc) in Hk.
    rewrite Hs, Ht. split; apply Hname; lia.
  - intros n ch Hn Hin. rewrite Hfid, <- Hpid. apply (Hchildren (data n)); [|done].
    rewrite <- Hfd. apply list_elem_of_fmap. by exists n.
Qed.

(** ** Parsing the same plan twice *)

(** C7, as stated, fails: the second parse gives the same names as the
    first. *)
Lemma reparse_same_names :
  exists r1 c1 r2 c2,
    parseExplainJSON users_plan 0 = Some (r1, c1) /\
    parseExplainJSON users_plan c1 = Some (r2, c2) /\
    map node_id (flowNodes r1) = ["node-1"] /\
    map node_id (flowNodes r2) = ["node-1"] /\
    ~ (map node_id (flowNodes r1) <> map node_id (flowNodes r2)).
Proof.
  eexists _, _, _, _. split; [vm_compute; reflexivity|].
  split; [vm_compute; reflexivity|]. split; [reflexivity|].
  split; [reflexivity|]. intros H. by apply H.
Qed.

(** C7 (amended): the counter is reset at the start of every parse, so a
    parse does not depend on the counter it finds: two successive parses of
    a plan return the same graph, with the same names [node-1 .. node-N] in
    the order of discovery, and leave the counter at [N]. *)
Theorem reparse_identical (json : MySQLExplainJSON) (counter : nat) :
  exists r c',
    parseExplainJSON json counter = Some (r, c') /\
    parseExplainJSON json c' = Some (r, c') /\
    (forall counter', parseExplainJSON json counter' = Some (r, c')) /\
    c' = length (planNodes r) /\
    ids_of (planNodes r) = node_name <$> seq 1 (length (planNodes r)) /\
    map node_id (flowNodes r) = node_name <$> seq 1 (length (planNodes r)).
Proof.
  destruct (parseExplainJSON_ok json counter)
    as (r & E & _ & Hmo & Hfid & _).
  destruct (emitted_graph json) as [(Hid & _) _].
  pose proof (marked_of_ids _ _ Hmo) as Hpid.
  pose proof (Forall2_length _ _ _ Hmo) as Hlen.
  eexists r, _. split; [exact E|]. split; [exact E|]. split; [intros c0; exact E|].
  split; [done|]. rewrite Hfid, Hpid, <- Hlen. by split.
Qed.

(** ** Rows of the layout *)

(** C3, as stated, fails: the consumer is above its producer. *)
Lemma consumer_not_below_producer :
  exists r c' e p q,
    parseExplainJSON sorted_products_plan 0 = Some (r, c') /\
    e ∈ flowEdges r /\
    nodepos (flowNodes r) (edge_source e) = Some p /\
    nodepos (flowNodes r) (edge_target e) = Some q /\
    pos_y q = 0 /\ pos_y p = 200 /\ ~ (pos_y p < pos_y q).
Proof.
  eexists _, _, _, _, _. split; [vm_compute; reflexivity|].
  split; [apply elem_of_cons; left; reflexivity|].
  split; [vm_compute; reflexivity|]. split; [vm_compute; reflexivity|].
  simpl. split; [done|]. split; [done|]. lia.
Qed.

(** C3 (amended): for every edge the producer is placed exactly one row
    ([nodeHeight + verticalGap]) below its consumer, so the y-coordinate of
    the producer is strictly greater than that of the consumer. *)
Theorem producer_below_consumer (json : MySQLExplainJSON) (counter : nat) :
  exists r c',
    parseExplainJSON json counter = Some (r, c') /\
    forall e, e ∈ flowEdges r ->
      exists p q,
        nodepos (flowNodes r) (edge_source e) = Some p /\
        nodepos (flowNodes r) (edge_target e) = Some q /\
        pos_y p = pos_y q + nodeHeight + verticalGap /\
        pos_y q < pos_y p.
Proof.
  destruct (parseExplainJSON_ok json counter)
    as (r & E & _ & _ & _ & _ & Hfe & Hy).
  eexists r, _. split; [exact E|]. intros e He. rewrite Hfe in He.
  apply elem_of_lookup_imap in He as (i & pe & -> & Hpe). simpl.
  destruct (Hy (source pe) (target pe)) as (p & q & Hp & Hq & Hpq).
  { apply list_elem_of_lookup_2 in Hpe. by destruct pe. }
  exists p, q. split; [done|]. split; [done|]. split; [done|].
  rewrite Hpq. unfold nodeHeight, verticalGap. lia.
Qed.

(** ** The critical path *)

(** C2, as stated, fails: on a plan that emits no node nothing is marked;
    with a negative cost or a cost that is not a number, the marked nodes
    are not those of the path the definition gives. *)
Lemma critical_path_not_marked :
  (exists r c', parseExplainJSON empty_plan 0 = Some (r, c') /\
                planNodes r = [] /\ critical_path (nodes (emitted empty_plan)) = []) /\
  (exists r c' n,
     parseExplainJSON negative_cost_plan 0 = Some (r, c') /\
     n ∈ planNodes r /\ isCriticalPath n = Some true /\
     id n ∉ critical_path (nodes (emitted negative_cost_plan))) /\
  (exists r c' n,
     parseExplainJSON corrupt_cost_plan 0 = Some (r, c') /\
     n ∈ planNodes r /\ isCriticalPath n = Some true /\
     id n ∉ critical_path (nodes (emitted corrupt_cost_plan))).
Proof.
  split; [|split].
  - eexists _, _. split; [vm_compute; reflexivity|]. by split.
  - eexists _, _, _. split; [vm_compute; reflexivity|].
    split; [apply elem_of_cons; left; reflexivity|]. split; [reflexivity|].
    vm_compute. intros H. apply elem_of_cons in H as [H|H]; [discriminate|].
    by apply elem_of_nil in H.
  - eexists _, _, _. split; [vm_compute; reflexivity|].
    split; [apply elem_of_cons; right; apply elem_of_cons; left; reflexivity|].
    split; [reflexivity|].
    vm_compute. intros H. apply elem_of_cons in H as [H|H]; [discriminate|].
    by apply elem_of_nil in H.
Qed.

(** C2 (amended): the pipeline returns the emitted nodes with some of them
    marked; when at least one node is emitted and every cost is a number
    that is not negative, the marked nodes are exactly those of one path:
    it starts at the first root (a node that is the child of no node) whose
    cumulative cost no root exceeds, moves at each node to the first child
    of greatest cumulative cost, and stops at a leaf.  The cumulative cost
    of a node is the binary64 sum of its cost and the greatest cumulative
    cost of its children; it may round and may be infinite. *)
Theorem critical_path_marked (json : MySQLExplainJSON) (counter : nat) :
  let ns := nodes (emitted json) in
  exists r c',
    parseExplainJSON json counter = Some (r, c') /\
    marked_of ns (planNodes r) /\
    (ns <> [] -> Forall (fun n => cost_ok (cost n)) ns ->
     exists first root,
       best_root ns = Some first /\ root ∈ roots_of ns /\
       fst first = id root /\ snd first = cumulative ns (id root) /\
       (forall root', root' ∈ roots_of ns ->
          num_ltb (snd first) (cumulative ns (id root')) = false) /\
       greedy_chain ns (cumulative ns) (fst first) (critical_path ns) /\
       forall n, n ∈ planNodes r ->
         (isCriticalPath n = Some true <-> id n ∈ critical_path ns)).
Proof.
  intros ns.
  destruct (parseExplainJSON_ok json counter) as (r & E & Em & Hmo & _).
  destruct (emitted_graph json) as [(Hid & Hch & _ & Hun) _].
  fold ns in E, Em, Hmo, Hid, Hch, Hun.
  eexists r, _. split; [exact E|]. split; [exact Hmo|].
  intros Hne Hco'.
  assert (Hco : costs_ok ns).
  { pose proof (emitted_grid json) as Hgrid. fold ns in Hgrid.
    apply Forall_forall. intros n Hn. split.
    - by apply (proj1 (Forall_forall _ _) Hco').
    - by apply (proj1 (Forall_forall _ _) Hgrid). }
  destruct (markCriticalPath_ok ns Hid Hch) as (res & Em' & _ & Hres).
  rewrite Em in Em'. inversion Em'; subst res. specialize (Hres Hco).
  destruct (critical_path_chain ns Hid Hch Hne)
    as (first & root & Hb & Hroot & Hf & Hchain).
  exists first, root. split; [done|]. split; [done|]. split; [done|].
  assert (Hvals : Forall (fun y : string * number => weight_ok (snd y))
            (map (fun n => with_value (cumulative ns) (id n)) (roots_of ns))).
  { apply Forall_forall. intros y Hy.
    apply list_elem_of_fmap in Hy as (m & -> & _). simpl.
    by apply cumulative_cost_ok. }
  assert (Hvals' : Forall (fun y : string * number => cost_ok (snd y))
            (map (fun n => with_value (cumulative ns) (id n)) (roots_of ns))).
  { eapply Forall_impl; [exact Hvals|]. by intros y [? _]. }
  split; [|split; [|split; [done|]]].
  - pose proof (first_greatest_elem _ _ Hb) as Hin.
    apply list_elem_of_fmap in Hin as (m & -> & _). simpl in *. by rewrite Hf.
  - intros root' Hr'.
    apply (first_greatest_max _ first
             (with_value (cumulative ns) (id root')) Hvals' Hb).
    apply list_elem_of_fmap. by exists root'.
  - intros n Hn. rewrite Hres in Hn.
    by apply (marked_iff_on_path ns Hid).
Qed.

Lemma critical_path_marked_witness :
  critical_path (nodes (emitted cheap_expensive_plan)) = ["node-1"; "node-3"] /\
  exists r c',
    parseExplainJSON cheap_expensive_plan 0 = Some (r, c') /\
    forall n, n ∈ planNodes r ->
      (isCriticalPath n = Some true
       <-> id n ∈ critical_path (nodes (emitted cheap_expensive_plan))).
Proof.
  split; [vm_compute; reflexivity|].
  destruct (critical_path_marked cheap_expensive_plan 0) as (r & c' & E & _ & H).
  exists r, c'. split; [exact E|].
  destruct H as (first & root & _ & _ & _ & _ & _ & _ & Hm).
  - discriminate.
  - vm_compute. repeat (constructor; [vm_compute; discriminate|]). constructor.
  - exact Hm.
Defined.

(** The cumulative costs are binary64 sums: in a join of a table of cost
    0.3 with a table of cost 0.1 materialized from a table of cost 0.2, the
    path goes through the second table, since 0.1 + 0.2 is more than 0.3. *)
Lemma critical_path_rounds :
  critical_path (nodes (emitted rounding_plan)) = ["node-1"; "node-3"; "node-4"] /\
  exists r c',
    parseExplainJSON rounding_plan 0 = Some (r, c') /\
    map (fun n => (id n, isCriticalPath n)) (planNodes r)
    = [("node-1", Some true); ("node-2", None); ("node-3", Some true);
       ("node-4", Some true)].
Proof.
  split; [vm_compute; reflexivity|].
  eexists _, _. split; [vm_compute; reflexivity|]. reflexivity.
Qed.

(** Sums that overflow are infinite: with three tables of cost 1e308 the
    join and the materialized table have an infinite cumulative cost, and
    the path goes through the materialized table. *)
Lemma critical_path_overflows :
  cumulative (nodes (emitted overflow_plan)) "node-3" = PInf /\
  critical_path (nodes (emitted overflow_plan)) = ["node-1"; "node-3"; "node-4"] /\
  exists r c',
    parseExplainJSON overflow_plan 0 = Some (r, c') /\
    map (fun n => (id n, isCriticalPath n)) (planNodes r)
    = [("node-1", Some true); ("node-2", None); ("node-3", Some true);
       ("node-4", Some true)].
Proof.
  split; [vm_compute; reflexivity|]. split; [vm_compute; reflexivity|].
  eexists _, _. split; [vm_compute; reflexivity|]. reflexivity.
Qed.

(** ** Children and edges *)

(** C1 on a grouping stage over a table: the table node [node-2] has an
    edge to the group node [node-1], whose [children] list is empty. *)
Lemma grouping_children_miss_producer :
  exists r c' n,
    parseExplainJSON grouped_sales_plan 0 = Some (r, c') /\
    planNodes r !! 0%nat = Some n /\ id n = "node-1" /\ type n = nt_group /\
    children n = [] /\
    (exists e, e ∈ flowEdges r /\ edge_source e = "node-2" /\
               edge_target e = "node-1") /\
    "node-2" ∉ children n.
Proof.
  eexists _, _, _. split; [vm_compute; reflexivity|].
  split; [reflexivity|]. split; [reflexivity|]. split; [reflexivity|].
  split; [reflexivity|]. split.
  - eexists. split; [apply elem_of_cons; left; reflexivity|]. by split.
  - apply not_elem_of_nil.
Qed.

(** ** Overlap between the trees of two roots *)

(** C9 on a join of two tables beside a subquery joining three: the second
    table of the first join ([node-3]) and the first table of the second
    join ([node-5]) are on the same row and their spans overlap. *)
Lemma roots_subtrees_overlap :
  exists r c' p q,
    parseExplainJSON two_joins_plan 0 = Some (r, c') /\
    nodepos (flowNodes r) "node-3" = Some p /\
    nodepos (flowNodes r) "node-5" = Some q /\
    p = mkPosition 170 200 /\ q = mkPosition 400 200 /\
    pos_y p = pos_y q /\ spans_overlap p q.
Proof.
  eexists _, _, _, _. split; [vm_compute; reflexivity|].
  split; [vm_compute; reflexivity|]. split; [vm_compute; reflexivity|].
  split; [reflexivity|]. split; [reflexivity|]. split; [reflexivity|].
  unfold spans_overlap, nodeWidth. simpl. lia.
Qed.

(** * Further properties of the parser and the pipeline *)

(** ** The layout moves nodes and does nothing else *)

Lemma set_position_content (l : list FlowNode) (s : string) (p : Position) :
  map content (set_position l s p) = map content l.
Proof.
  induction l as [|n l IH]; simpl; [done|].
  destruct (String.eqb (node_id n) s); simpl; [done|]. by rewrite IH.
Qed.

Lemma positionNode_content (cm : gmap string (list string)) (sw : gmap string Z)
    (fuel : nat) :
  forall i x y st st',
    positionNode cm sw fuel i x y st = Some st' ->
    map content (snd st') = map content (snd st).
Proof.
  induction fuel as [|fuel IH]; intros i x y [positioned l] st'; [done|].
  cbn [positionNode]. destruct (decide (i ∈ positioned)) as [Hin|Hnin]; [by intros [= <-]|].
  destruct (List.find _ l) as [n|]; [|by intros [= <-]].
  destruct (default [] (cm !! i)) as [|c0 cs0].
  { intros [= <-]. simpl. apply set_position_content. }
  cbv beta iota zeta. generalize (c0 :: cs0). intros chs.
  assert (Hloop : forall cs acc acc',
            foldM (fun acc childId =>
                     let '(childX, st) := acc in
                     match positionNode cm sw fuel childId
                             (childX + width_or_default sw childId / 2 - nodeWidth / 2)
                             (y + nodeHeight + verticalGap) st with
                     | Some st =>
                         Some (childX + width_or_default sw childId + horizontalGap, st)
                     | None => None
                     end) cs acc = Some acc' ->
            map content (snd (snd acc')) = map content (snd (snd acc))).
  { induction cs as [|c cs IHcs]; intros [cx st] acc'; cbn [foldM].
    - by intros [= <-].
    - destruct (positionNode cm sw fuel c _ _ st) as [st1|] eqn:E; [|done].
      intros H. rewrite (IHcs _ _ H). simpl. by apply (IH _ _ _ _ _ E). }
  destruct (foldM _ chs _) as [[cx st1]|] eqn:E; [|done].
  intros [= <-]. pose proof (Hloop _ _ _ E) as H. simpl in H. rewrite H.
  apply set_position_content.
Qed.

Lemma orphans_content (positioned : gset string) (rx : Z) (l acc : list FlowNode)
    (oy : Z) :
  map content (fst (fold_left (orphan_step positioned rx) l (acc, oy)))
  = map content acc ++ map content l.
Proof.
  revert acc oy. induction l as [|n l IH]; intros acc oy; simpl.
  - by rewrite app_nil_r.
  - destruct (decide (node_id n ∈ positioned)); rewrite IH, map_app, <- app_assoc;
      done.
Qed.

Lemma applyLayout_content (ns : list FlowNode) (es : list PlanEdge)
    (l : list FlowNode) :
  applyLayout ns es = Some l -> map content l = map content ns.
Proof.
  unfold applyLayout. destruct (adjacency es) as [cm pm].
  destruct (foldM _ _ ∅) as [sw|]; [|done].
  generalize (filter (fun n => pm !! node_id n = None) ns). intros roots.
  assert (Hroots : forall rs acc acc',
            foldM (fun acc root =>
                     let '(rootX, st) := acc in
                     let width := width_or_default sw (node_id root) in
                     match positionNode cm sw (S (length ns + length es))
                             (node_id root) rootX 0 st with
                     | Some st => Some (rootX + width + horizontalGap * 2, st)
                     | None => None
                     end) rs acc = Some acc' ->
            map content (snd (snd acc')) = map content (snd (snd acc))).
  { induction rs as [|r rs IH]; intros [rx st] acc'; cbn [foldM].
    - by intros [= <-].
    - cbv zeta.
      destruct (positionNode cm sw _ (node_id r) rx 0 st) as [st1|] eqn:E; [|done].
      intros H. rewrite (IH _ _ H). simpl. by apply (positionNode_content _ _ _ _ _ _ _ _ E). }
  destruct (foldM _ roots _) as [[rx [positioned l']]|] eqn:E; [|done].
  intros [= <-]. rewrite orphans_content. simpl.
  exact (Hroots _ _ _ E).
Qed.

(** ** The parts of a result *)

Lemma parseExplainJSON_inv (json : MySQLExplainJSON) (counter : nat)
    (r : ExplainResult) (c' : nat) :
  parseExplainJSON json counter = Some (r, c') ->
  markCriticalPath (nodes (emitted json)) = Some (planNodes r) /\
  applyLayout
    (map (fun n => mkFlowNode (id n) (mkPosition 0 0) n
                     (Math_max NInf (map cost (planNodes r) ++ [Fin 1])))
         (planNodes r))
    (edges (emitted json)) = Some (flowNodes r) /\
  flowEdges r = imap (flow_edge (planNodes r)) (edges (emitted json)) /\
  totalCost r
  = fold_left (fun sum n => num_add sum (cost n)) (planNodes r) num_zero.
Proof.
  unfold parseExplainJSON, emitted.
  destruct (parseQueryBlock (query_block json) None nt_select 0) as [res c0].
  simpl. destruct (markCriticalPath (nodes res)) as [pn|]; [|done].
  destruct (applyLayout _ _) as [l|] eqn:E; [|done].
  intros [= <- <-]. simpl. by rewrite E.
Qed.

Lemma map_eq_Forall2 {A B C} (f : A -> C) (g : B -> C) (l1 : list A)
    (l2 : list B) :
  map f l1 = map g l2 -> Forall2 (fun a b => f a = g b) l1 l2.
Proof.
  revert l2. induction l1 as [|a l1 IH]; intros [|b l2] H; simpl in H;
    try done; constructor; inversion H; auto.
Qed.


(** ** Bounds on [Math.max] *)

Lemma num_max_upper (m a x : number) :
  m <> NaN -> a <> NaN -> x <> NaN ->
  num_ltb m (num_max a x) = false ->
  num_ltb m a = false /\ num_ltb m x = false.
Proof.
  destruct m as [| | |p], a as [| | |q], x as [| | |s]; simpl; try done;
    intros _ _ _.
  all: try (destruct (Qcompare_spec q s); simpl; try done).
  all: destruct (Qcompare_spec p q), (Qcompare_spec p s); try done; try lra.
Qed.

Lemma num_max_number (a x : number) :
  a <> NaN -> x <> NaN -> num_max a x <> NaN.
Proof.
  destruct a as [| | |q], x as [| | |s]; try done; intros _ _; unfold num_max;
    by destruct (num_ltb _ _).
Qed.

Lemma Math_max_bounds (l : list number) (a : number) :
  a <> NaN -> Forall (fun x => x <> NaN) l ->
  Math_max a l <> NaN /\ num_ltb (Math_max a l) a = false /\
  Forall (fun x => num_ltb (Math_max a l) x = false) l.
Proof.
  unfold Math_max. intros Ha Hl. revert a Ha.
  induction Hl as [|x l Hx Hl IH]; intros a Ha; simpl.
  - split; [done|]. split; [apply num_ltb_irrefl|constructor].
  - destruct (IH (num_max a x)) as (Hm & Hb & Hall); [by apply num_max_number|].
    destruct (num_max_upper _ a x Hm Ha Hx Hb) as [H1 H2].
    split; [done|]. split; [done|]. by constructor.
Qed.

Lemma Math_max_NaN (l : list number) (a : number) :
  a = NaN \/ Exists (fun x => x = NaN) l -> Math_max a l = NaN.
Proof.
  unfold Math_max. revert a. induction l as [|x l IH]; intros a [Ha|Hl]; simpl.
  - done.
  - inversion Hl.
  - apply IH. left. by rewrite Ha.
  - apply IH. inversion Hl as [y l' Hy|y l' Hl']; subst.
    + left. by destruct a.
    + by right.
Qed.

(** ** The graph that the pipeline returns *)

Lemma num_max_one_nonzero (y : number) :
  num_eqb (num_max y (Fin 1)) num_zero = false.
Proof.
  destruct y as [| | |q]; try done. unfold num_max, num_ltb.
  destruct (Qcompare_spec q 1) as [H|H|H]; try done; cbn [num_eqb num_zero];
    apply not_true_is_false; intros Hq; apply Qeq_bool_iff in Hq; lra.
Qed.


(** X2: the returned edges form a forest over the nodes: every edge leads
    from a node to a node that was emitted before it, and no node is the
    source of two edges.  In particular the first node is never a source
    and no chain of edges comes back to its start. *)
Theorem edges_form_forest (json : MySQLExplainJSON) (counter : nat) :
  exists r c',
    parseExplainJSON json counter = Some (r, c') /\
    NoDup (map edge_source (flowEdges r)) /\
    forall e, e ∈ flowEdges r ->
      exists i k, edge_target e = node_name i /\ edge_source e = node_name k /\
                  (0 < i < k)%nat /\ (k <= length (planNodes r))%nat.
Proof.
  destruct (parseExplainJSON_ok json counter)
    as (r & E & _ & Hmo & _ & _ & Hfe & _).
  destruct (emitted_graph json) as [(_ & _ & (ks & HF & Hinc) & _) _].
  pose proof (Forall2_length _ _ _ Hmo) as Hlen.
  eexists r, _. split; [exact E|]. split.
  - assert (Hs : map edge_source (flowEdges r) = map source (edges (emitted json))).
    { rewrite Hfe. change (map edge_source ?l) with (edge_source <$> l).
      rewrite fmap_imap. apply list_eq. intros i.
      rewrite list_lookup_imap. change (map source ?l) with (source <$> l).
      by rewrite list_lookup_fmap. }
    rewrite Hs, (edge_sources _ _ HF).
    apply NoDup_fmap_2; [|by eapply increasing_NoDup].
    intros j k. apply node_name_inj.
  - intros e He. rewrite Hfe in He.
    apply elem_of_lookup_imap in He as (p & pe & -> & Hpe). simpl.
    destruct (Forall2_lookup_r _ _ _ _ _ HF Hpe) as (k & Hk & Hs & i & Ht & Hi).
    apply list_elem_of_lookup_2 in Hk.
    apply (increasing_bounds _ _ _ _ Hinc) in Hk.
    exists i, k. split; [done|]. split; [done|]. split; [done|]. lia.
Qed.

(** X3: node ids are pairwise distinct, and so are edge ids: the i-th
    node is [node-(i+1)] and the i-th edge is [edge-i]. *)
Theorem ids_distinct (json : MySQLExplainJSON) (counter : nat) :
  exists r c',
    parseExplainJSON json counter = Some (r, c') /\
    NoDup (map node_id (flowNodes r)) /\ NoDup (ids_of (planNodes r)) /\
    NoDup (map edge_id (flowEdges r)) /\
    (forall i fn, flowNodes r !! i = Some fn -> node_id fn = node_name (S i)) /\
    (forall i e, flowEdges r !! i = Some e -> edge_id e = "edge-" +:+ pretty i).
Proof.
  destruct (parseExplainJSON_ok json counter)
    as (r & E & _ & Hmo & Hfid & _ & Hfe & _).
  destruct (emitted_graph json) as [(Hid & Hch & _) _].
  pose proof (ids_NoDup _ Hid) as Hnd.
  eexists r, _. split; [exact E|]. split; [by rewrite Hfid|].
  split; [by rewrite (marked_of_ids _ _ Hmo)|]. split; [|split].
  - rewrite Hfe. apply NoDup_alt. intros i j x Hi Hj.
    change (map edge_id ?l) with (edge_id <$> l) in Hi, Hj.
    rewrite fmap_imap, list_lookup_imap in Hi, Hj.
    destruct (edges (emitted json) !! i); [|done].
    destruct (edges (emitted json) !! j); [|done].
    cbn [fmap option_fmap option_map compose flow_edge edge_id] in Hi, Hj.
    rewrite <- Hj in Hi. apply (inj Some) in Hi.
    apply (inj (String.append "edge-")) in Hi. by apply (inj pretty) in Hi.
  - intros i fn Hfn.
    assert (H : map node_id (flowNodes r) !! i = Some (node_id fn)).
    { change (map node_id ?l) with (node_id <$> l).
      by rewrite list_lookup_fmap, Hfn. }
    rewrite Hfid, Hid, list_lookup_fmap in H.
    destruct (seq 1 _ !! i) as [k|] eqn:Ek; [|done].
    apply lookup_seq in Ek as [-> _]. by inversion H.
  - intros i e He. rewrite Hfe, list_lookup_imap in He.
    destruct (edges (emitted json) !! i); [|done]. by inversion He.
Qed.


(** X5: marking and layout change nothing but the flag and the position:
    the plan nodes are the emitted nodes, some of them marked, and the
    flow nodes are the plan nodes in the same order, each with the id of
    its plan node, the plan node as data and one common [maxCost]. *)
Theorem flow_nodes_mirror_plan (json : MySQLExplainJSON) (counter : nat) :
  exists r c',
    parseExplainJSON json counter = Some (r, c') /\
    marked_of (nodes (emitted json)) (planNodes r) /\
    Forall2 (fun fn n =>
               node_id fn = id n /\ data fn = n /\
               maxCost fn = Math_max NInf (map cost (planNodes r) ++ [Fin 1]))
            (flowNodes r) (planNodes r).
Proof.
  destruct (parseExplainJSON_ok json counter) as (r & E & _ & Hmo & _).
  destruct (parseExplainJSON_inv _ _ _ _ E) as (_ & El & _).
  eexists r, _. split; [exact E|]. split; [done|].
  apply applyLayout_content in El. rewrite map_map in El.
  apply map_eq_Forall2 in El.
  eapply Forall2_impl; [exact El|]. intros fn n H. simpl in H.
  unfold content in H. by inversion H.
Qed.

(** X6: the [maxCost] handed to every flow node is one value.  When no
    node cost is [NaN] it is a number, at least 1 and at least the cost of
    every node; when some node cost is [NaN] it is [NaN]; it is never 0. *)
Theorem maxCost_bounds (json : MySQLExplainJSON) (counter : nat) :
  exists r c' m,
    parseExplainJSON json counter = Some (r, c') /\
    Forall (fun fn => maxCost fn = m) (flowNodes r) /\
    (Forall (fun n => cost n <> NaN) (planNodes r) ->
     m <> NaN /\ num_ltb m (Fin 1) = false /\
     Forall (fun n => num_ltb m (cost n) = false) (planNodes r)) /\
    (Exists (fun n => cost n = NaN) (planNodes r) -> m = NaN) /\
    num_eqb m num_zero = false.
Proof.
  destruct (parseExplainJSON_ok json counter) as (r & E & _).
  destruct (parseExplainJSON_inv _ _ _ _ E) as (_ & El & _).
  apply applyLayout_content in El. rewrite map_map in El.
  apply map_eq_Forall2 in El.
  eexists r, _, (Math_max NInf (map cost (planNodes r) ++ [Fin 1])).
  assert (Hnum : Forall (fun n => cost n <> NaN) (planNodes r) ->
            Math_max NInf (map cost (planNodes r) ++ [Fin 1]) <> NaN /\
            num_ltb (Math_max NInf (map cost (planNodes r) ++ [Fin 1])) (Fin 1)
            = false /\
            Forall (fun n => num_ltb (Math_max NInf (map cost (planNodes r) ++ [Fin 1]))
                               (cost n) = false) (planNodes r)).
  { intros Hc.
    destruct (Math_max_bounds (map cost (planNodes r) ++ [Fin 1]) NInf)
      as (Hm & _ & Hall); [done| |].
    { apply Forall_app. split; [|by repeat constructor].
      apply Forall_forall. intros x Hx.
      apply list_elem_of_fmap in Hx as (n & -> & Hn).
      by apply (proj1 (Forall_forall _ _) Hc). }
    apply Forall_app in Hall as [Hall H1]. split; [done|]. split.
    + by inversion H1.
    + apply Forall_forall. intros n Hn.
      apply (proj1 (Forall_forall _ _) Hall). apply list_elem_of_fmap. by exists n. }
  assert (Hnan : Exists (fun n => cost n = NaN) (planNodes r) ->
            Math_max NInf (map cost (planNodes r) ++ [Fin 1]) = NaN).
  { intros Hex. apply Math_max_NaN. right. apply Exists_app. left.
    apply Exists_exists in Hex as (n & Hn & Hc). apply Exists_exists.
    exists NaN. split; [|done]. rewrite <- Hc. apply list_elem_of_fmap. by exists n. }
  split; [exact E|]. split; [|split; [done|split; [done|]]].
  - apply Forall_forall. intros fn Hfn.
    apply list_elem_of_lookup in Hfn as [p Hp].
    destruct (Forall2_lookup_l _ _ _ _ _ El Hp) as (n & _ & Hc).
    unfold content in Hc. simpl in Hc. by inversion Hc.
  - unfold Math_max. rewrite fold_left_app. cbn [fold_left].
    apply num_max_one_nonzero.
Qed.

(** ** The marked path, whatever the costs *)

Lemma js_sort_nil {A} (compare : A -> A -> number) (l : list A) :
  js_sort compare l = [] -> l = [].
Proof.
  destruct l as [|x l]; [done|]. unfold js_sort. cbn [foldr].
  generalize (foldr (sort_insert compare) [] l).
  intros [|y r]; cbn [sort_insert]; [intros H; discriminate H|].
  destruct (num_ltb num_zero (compare x y)); intros H; discriminate H.
Qed.

Section MarkedPath.
Variable ns : list PlanNode.
Hypothesis Hids : ids_of ns = node_name <$> seq 1 (length ns).
Hypothesis Hch : forall i n ch, ns !! i = Some n -> ch ∈ children n ->
exists j, ch = node_name j /\ (S i < j <= length ns)%nat.

Local Abbreviation N := (length ns).

Lemma markPath_stored (m : gmap string number) (fuel k : nat)
  (l : list PlanNode) :
(1 <= k <= N)%nat -> (N < fuel + k)%nat -> marked_of ns l ->
markPath m fuel (node_name k) l
= Some (fold_left mark_node (visited m ns fuel (node_name k)) l).
Proof.
revert k l. induction fuel as [|fuel IH]; intros k l Hk Hf Hl; [lia|].
cbn [markPath visited].
destruct (node_at ns Hids k Hk) as (n & Hn & Hfind & Hid). rewrite Hfind.
pose proof (marked_of_find ns l (node_name k) Hl) as Hfl.
rewrite Hfind in Hfl. inversion Hfl as [n0 n' Hn' E0 E'|]; subst n0.
assert (Hchn : children n' = children n) by (by destruct Hn' as [-> | ->]).
rewrite Hchn. clear E' Hfl.
pose proof (js_sort_head_elem by_cost_desc (map (cost_pair m) (children n)))
  as Hhead.
destruct (js_sort by_cost_desc (map (cost_pair m) (children n)))
  as [|first rest] eqn:Hsort; [done|].
pose proof (Hhead first eq_refl) as Hin.
apply list_elem_of_fmap in Hin as (ch & -> & Hch').
destruct (children_later ns Hids Hch _ _ _ Hfind Hch') as (j & -> & Hj).
simpl. apply IH; [lia|lia|by apply marked_of_mark].
Qed.

Lemma visited_chain (m : gmap string number) (fuel k : nat) :
(1 <= k <= N)%nat -> (N < fuel + k)%nat ->
child_chain ns (node_name k) (visited m ns fuel (node_name k)).
Proof.
revert k. induction fuel as [|fuel IH]; intros k Hk Hf; [lia|].
cbn [visited].
destruct (node_at ns Hids k Hk) as (n & Hn & Hfind & Hid). rewrite Hfind.
pose proof (js_sort_head_elem by_cost_desc (map (cost_pair m) (children n)))
  as Hhead.
destruct (js_sort by_cost_desc (map (cost_pair m) (children n)))
  as [|first rest] eqn:Hsort.
- eapply child_chain_leaf; [done|].
  apply js_sort_nil in Hsort. by apply map_eq_nil in Hsort.
- pose proof (Hhead first eq_refl) as Hin.
  apply list_elem_of_fmap in Hin as (ch & -> & Hch').
  destruct (children_later ns Hids Hch _ _ _ Hfind Hch') as (j & -> & Hj).
  eapply child_chain_step; [done|done|]. simpl. apply IH; lia.
Qed.

Lemma markCriticalPath_stored :
ns <> [] ->
exists m root,
  root ∈ roots_of ns /\
  markCriticalPath ns
  = Some (fold_left mark_node
            (visited m ns (S N) (id root)) ns).
Proof.
intros Hne. unfold markCriticalPath.
assert (Hm : forall l, l = ns ->
  exists m root,
    root ∈ roots_of ns /\
    match l with
    | [] => Some l
    | _ :: _ =>
        match foldM (fun m root =>
                       snd <$> calculateCumulativeCost l (S (length l))
                                 (id root) m) (rootNodes l) ∅ with
        | Some nodeCosts =>
            match js_sort by_cost_desc
                    (map (fun n => cost_pair nodeCosts (id n)) (rootNodes l)) with
            | [] => Some l
            | first :: _ => markPath nodeCosts (S (length l)) (fst first) l
            end
        | None => None
        end
    end = Some (fold_left mark_node
                  (visited m ns (S N) (id root)) ns));
  [|by apply Hm].
intros l El. destruct l as [|n0 ns0]; [by rewrite <- El in Hne|].
rewrite El. clear El n0 ns0.
destruct (calc_roots ns Hids Hch (rootNodes ns) ∅) as (m & E & _).
{ intros r Hr. unfold rootNodes in Hr. by apply list_elem_of_filter in Hr as [_ ?]. }
rewrite E.
pose proof (js_sort_head_elem by_cost_desc
              (map (fun n => cost_pair m (id n)) (rootNodes ns))) as Hhead.
destruct (lookup_lt_is_Some_2 ns 0) as [n1 Hn1].
{ destruct ns; [done|simpl; lia]. }
pose proof (first_node_root ns Hids Hch n1 Hn1) as Hroot1.
rewrite <- (rootNodes_roots_of ns) in Hroot1.
destruct (js_sort by_cost_desc _) as [|first rest] eqn:Hsort.
{ apply js_sort_nil, map_eq_nil in Hsort. rewrite Hsort in Hroot1.
  by apply elem_of_nil in Hroot1. }
pose proof (Hhead first eq_refl) as Hin.
apply list_elem_of_fmap in Hin as (r & -> & Hr).
rewrite (rootNodes_roots_of ns) in Hr.
exists m, r. split; [done|]. cbn [fst cost_pair].
apply list_elem_of_filter in Hr as [_ Hr].
apply list_elem_of_lookup in Hr as [p Hp].
rewrite (lookup_id ns Hids _ _ Hp). apply lookup_lt_Some in Hp.
apply markPath_stored; [lia|lia|apply marked_of_refl].
Qed.

Lemma marked_path_chain :
ns <> [] -> Forall (fun n => isCriticalPath n = None) ns ->
exists res root path,
  markCriticalPath ns = Some res /\ root ∈ roots_of ns /\
  child_chain ns (id root) path /\
  forall n, n ∈ res -> (isCriticalPath n = Some true <-> id n ∈ path).
Proof.
intros Hne Hun. destruct (markCriticalPath_stored Hne) as (m & root & Hr & E).
exists (fold_left mark_node
          (visited m ns (S N) (id root)) ns),
       root, (visited m ns (S N) (id root)).
split; [exact E|]. split; [done|]. split.
- pose proof Hr as Hr'. apply list_elem_of_filter in Hr' as [_ Hr'].
  apply list_elem_of_lookup in Hr' as [p Hp].
  rewrite (lookup_id ns Hids _ _ Hp). apply lookup_lt_Some in Hp.
  apply visited_chain; lia.
- intros n Hn. by apply (marked_iff_on_path ns Hids).
Qed.
End MarkedPath.

(** X7: whatever the costs (negative, infinite, not a number), on a plan
    that emits at least one node the marked nodes are exactly the nodes of
    one path: it starts at a root (a node that is in no [children] list),
    every next node is one of the [children] of the node before, and it
    ends at a node without [children]. *)
Theorem marked_nodes_form_path (json : MySQLExplainJSON) (counter : nat) :
  nodes (emitted json) <> [] ->
  exists r c' root path,
    parseExplainJSON json counter = Some (r, c') /\
    root ∈ roots_of (nodes (emitted json)) /\
    child_chain (nodes (emitted json)) (id root) path /\
    forall n, n ∈ planNodes r ->
      (isCriticalPath n = Some true <-> id n ∈ path).
Proof.
  intros Hne.
  destruct (parseExplainJSON_ok json counter) as (r & E & Em & _).
  destruct (emitted_graph json) as [(Hid & Hch & _ & Hun) _].
  destruct (marked_path_chain _ Hid Hch Hne Hun)
    as (res & root & path & Eres & Hroot & Hchain & Hmarked).
  rewrite Em in Eres. inversion Eres; subst res.
  by eexists r, _, root, path.
Qed.

(** ** The geometry of the layout *)

Lemma children_width_slots (sw : gmap string Z) (chs : list string) :
  children_width sw chs = slot_width sw chs - horizontalGap.
Proof.
  unfold children_width.
  assert (H : forall a,
            fold_left (fun sum childId =>
                         sum + width_or_default sw childId + horizontalGap) chs a
            = a + slot_width sw chs).
  { induction chs as [|c chs IH]; intros a; simpl; [lia|]. rewrite IH. lia. }
  rewrite H. lia.
Qed.

Lemma slot_width_app (sw : gmap string Z) (l1 l2 : list string) :
  slot_width sw (l1 ++ l2) = slot_width sw l1 + slot_width sw l2.
Proof. induction l1 as [|c l1 IH]; simpl; [done|]. rewrite IH. lia. Qed.

Lemma slot_start_app (sw : gmap string Z) (pre rest : list string) (c : string) :
  c ∉ pre -> slot_start sw (pre ++ c :: rest) c = slot_width sw pre.
Proof.
  induction pre as [|h pre IH]; simpl; intros Hc.
  - by rewrite String.eqb_refl.
  - apply not_elem_of_cons in Hc as [Hne Hc].
    destruct (String.eqb_spec h c) as [E|E]; [congruence|]. by rewrite IH.
Qed.

Lemma sources_to_NoDup (es : list PlanEdge) (t : string) :
  NoDup (map source es) -> NoDup (sources_to es t).
Proof.
  unfold sources_to. induction es as [|e es IH]; simpl; intros Hnd.
  - constructor.
  - apply NoDup_cons in Hnd as [Hnot Hnd]. rewrite filter_cons.
    destruct (decide (target e = t)); simpl; [|by apply IH].
    apply NoDup_cons. split; [|by apply IH].
    intros Hin. apply Hnot. apply list_elem_of_fmap in Hin as (e' & -> & He').
    apply list_elem_of_filter in He' as [_ He'].
    apply list_elem_of_fmap. by exists e'.
Qed.

Section LayoutGeometry.
Variable ns : list FlowNode.
Variable es : list PlanEdge.
Hypothesis Hids : map node_id ns = node_name <$> seq 1 (length ns).
Hypothesis Hes : exists ks,
Forall2 plan_edge_ok ks es /\ increasing 0 ks (length ns).
Variable sw : gmap string Z.

Local Abbreviation N := (length ns).
Local Abbreviation childrenMap := (fst (adjacency es)).

Lemma positionNode_geo (fuel k : nat) (x y : Z) (st : LayoutState)
  (S : gset string) :
(1 <= k <= N)%nat -> (N < fuel + k)%nat ->
lay_inv ns es st -> closed_except es S st -> ready es st (node_name k) y ->
geo_inv es sw st -> geo_ready es sw st (node_name k) x y ->
exists st', positionNode childrenMap sw fuel (node_name k) x y st = Some st'
            /\ position_post ns es S (node_name k) st st'
            /\ geo_inv es sw st'
            /\ (node_name k ∉ fst st ->
                nodepos (snd st') (node_name k) = Some (mkPosition x y)).
Proof.
revert k x y st S.
induction fuel as [|fuel IH];
  intros k x y st S Hk Hf Hinv Hcl Hready Hgeo Hgready; [lia|].
cbn [positionNode]. destruct st as [positioned l].
destruct (decide (node_name k ∈ positioned)) as [Hin|Hnin].
{ exists (positioned, l). split; [done|].
  split; [split; [done|]; split; [done|]; split; [apply frame_refl|done]|].
  split; [done|]. intros Hnot. by destruct Hnot. }
destruct Hinv as (Hl & Hd & Hedges). simpl in Hl, Hd, Hedges.
destruct Hgeo as [Hg1 Hg2]. simpl in Hg1, Hg2.
destruct (Hgready Hnin) as [Hgr1 Hgr2]. simpl in Hgr1.
destruct (find_flow_node l (node_name k)) as [n Hn].
{ rewrite Hl. by apply (name_in_ids ns Hids). }
rewrite Hn.
set (st1 := (({[node_name k]} ∪ positioned,
              set_position l (node_name k) (mkPosition x y)) : LayoutState)).
assert (Hpos1 : nodepos (snd st1) (node_name k) = Some (mkPosition x y)).
{ apply nodepos_set_eq. rewrite Hl. by apply (name_in_ids ns Hids). }
assert (Hframe1 : frame (positioned, l) st1).
{ split; [set_solver|]. intros s Hs. simpl.
  apply nodepos_set_ne. intros E. by subst s. }
assert (Hinv1 : lay_inv ns es st1).
{ split; [simpl; by rewrite set_position_ids|].
  split; [simpl; by rewrite set_position_data|].
  intros c t Hct Hc. simpl in Hc. apply elem_of_union in Hc as [Hc|Hc].
  - apply elem_of_singleton in Hc. subst c.
    destruct (Hready Hnin t Hct) as (Ht & q & Hq & Hy). simpl in Ht, Hq.
    split; [set_solver|]. exists (mkPosition x y), q.
    split; [done|]. split; [|done].
    simpl. rewrite nodepos_set_ne; [done|]. intros E. by subst t.
  - destruct (Hedges c t Hct Hc) as (Ht & p & q & Hp & Hq & Hpq).
    split; [set_solver|]. exists p, q. simpl.
    rewrite !nodepos_set_ne; [done| |]; intros E; by subst. }
assert (Hgeo1 : geo_inv es sw st1).
{ split.
  - intros c t Hct Hc. simpl in Hc. apply elem_of_union in Hc as [Hc|Hc].
    + apply elem_of_singleton in Hc. subst c.
      destruct (Hgr1 t Hct) as (q & Hq & Hx).
      destruct (Hready Hnin t Hct) as (Ht & _). simpl in Ht.
      exists (mkPosition x y), q. split; [done|]. split; [|done].
      simpl. rewrite nodepos_set_ne; [done|]. intros E. by subst t.
    + destruct (Hg1 c t Hct Hc) as (p & q & Hp & Hq & Hpq).
      destruct (Hedges c t Hct Hc) as (Ht & _).
      exists p, q. simpl.
      rewrite !nodepos_set_ne; [done| |]; intros E; by subst.
  - intros s Hs Hroot. simpl in Hs. apply elem_of_union in Hs as [Hs|Hs].
    + apply elem_of_singleton in Hs. subst s.
      exists (mkPosition x y). split; [done|]. simpl. by apply Hgr2.
    + destruct (Hg2 s Hs Hroot) as (p & Hp & Hy). exists p.
      split; [|done]. simpl. rewrite nodepos_set_ne; [done|].
      intros E. by subst s. }
assert (Hcl1 : closed_except es ({[node_name k]} ∪ S) st1).
{ intros c t Hct Ht HtS. simpl in *.
  apply elem_of_union in Ht as [Ht|Ht]; [set_solver|].
  apply elem_of_union. right. apply (Hcl c t Hct Ht). set_solver. }
pose proof (children_later_names ns es Hes k) as Hch.
pose proof (fun c => proj1 (children_of es (node_name k) c)) as Hchof.
pose proof (fun c => proj2 (children_of es (node_name k) c)) as Hofch.
pose proof (sources_to_NoDup es (node_name k) (sources_NoDup ns es Hes)) as Hnd.
rewrite adjacency_children in *.
destruct (sources_to es (node_name k)) as [|c0 cs0] eqn:Echs.
{ exists st1. split; [done|]. split; [|split; [done|by intros _]].
  split; [done|]. split; [|split; [done|set_solver]].
  intros c t Hct Ht HtS. simpl in *.
  apply elem_of_union in Ht as [Ht|Ht].
  - apply elem_of_singleton in Ht. subst t. apply Hofch in Hct.
    by apply elem_of_nil in Hct.
  - apply elem_of_union. right. by apply (Hcl c t Hct Ht). }
cbv beta iota zeta.
remember (c0 :: cs0) as chs eqn:Hchs. clear Hchs c0 cs0.
change (fold_left _ chs (- horizontalGap)) with (children_width sw chs).
set (cx0 := x + (nodeWidth - children_width sw chs) / 2).
assert (Hloop : forall cs pre cx sti,
  chs = pre ++ cs -> cx = cx0 + slot_width sw pre ->
  lay_inv ns es sti -> closed_except es ({[node_name k]} ∪ S) sti ->
  frame st1 sti -> geo_inv es sw sti ->
  exists cx' st',
    foldM (fun acc childId =>
             let '(childX, st) := acc in
             match positionNode childrenMap sw fuel childId
                     (childX + width_or_default sw childId / 2 - nodeWidth / 2)
                     (y + nodeHeight + verticalGap) st with
             | Some st =>
                 Some (childX + width_or_default sw childId + horizontalGap, st)
             | None => None
             end) cs (cx, sti) = Some (cx', st') /\
    lay_inv ns es st' /\ closed_except es ({[node_name k]} ∪ S) st' /\
    frame sti st' /\ (forall c, c ∈ cs -> c ∈ fst st') /\ geo_inv es sw st').
{ induction cs as [|c cs IHcs];
    intros pre cx sti Hpre Hcx Hinvi Hcli Hfri Hgeoi; cbn [foldM].
  - exists cx, sti. split; [done|]. split; [done|]. split; [done|].
    split; [apply frame_refl|]. split; [|done].
    intros c Hc. by apply elem_of_nil in Hc.
  - assert (Hc : c ∈ chs).
    { rewrite Hpre. apply elem_of_app. right. apply elem_of_cons. by left. }
    assert (Hcpre : c ∉ pre).
    { rewrite Hpre in Hnd. apply NoDup_app in Hnd as (_ & Hdis & _).
      intros Hin. apply (Hdis c Hin). apply elem_of_cons. by left. }
    destruct (Hch c Hc) as (j & -> & Hj).
    destruct (IH j (cx + width_or_default sw (node_name j) / 2 - nodeWidth / 2)
                 (y + nodeHeight + verticalGap) sti ({[node_name k]} ∪ S))
      as (st2 & E2 & (Hinv2 & Hcl2 & Hfr2 & Hin2) & Hgeo2 & _);
      [lia|lia|done|done| |done| |].
    { intros Hnot t Hct.
      assert (t = node_name k) as ->.
      { eapply (parent_unique ns es Hes); [exact Hct|]. by apply Hchof. }
      destruct Hfri as [Hsub Hsame]. split; [apply Hsub; simpl; set_solver|].
      exists (mkPosition x y). split; [|done].
      rewrite Hsame; [done|]. simpl. set_solver. }
    { intros Hnot. split.
      - intros t Hct.
        assert (t = node_name k) as ->.
        { eapply (parent_unique ns es Hes); [exact Hct|]. by apply Hchof. }
        destruct Hfri as [Hsub Hsame]. exists (mkPosition x y).
        split; [rewrite Hsame; [done|]; simpl; set_solver|].
        rewrite Echs. unfold child_x. simpl.
        rewrite Hpre, (slot_start_app sw pre cs (node_name j) Hcpre).
        rewrite <- Hpre. fold cx0. lia.
      - intros Hroot. exfalso. apply Hroot.
        apply list_elem_of_fmap.
        exists (mkPlanEdge (node_name j) (node_name k)).
        split; [done|]. by apply Hchof. }
    rewrite E2.
    destruct (IHcs (pre ++ [node_name j])
                   (cx + width_or_default sw (node_name j) + horizontalGap) st2)
      as (cx' & st3 & E3 & Hinv3 & Hcl3 & Hfr3 & Hin3 & Hgeo3).
    { by rewrite <- app_assoc. }
    { rewrite slot_width_app. simpl. lia. }
    { done. } { done. } { by eapply frame_trans. } { done. }
    exists cx', st3. split; [done|]. split; [done|]. split; [done|].
    split; [by eapply frame_trans|]. split; [|done].
    intros c' Hc'. apply elem_of_cons in Hc' as [->|Hc']; [|by apply Hin3].
    destruct Hfr3 as [Hsub _]. by apply Hsub. }
destruct (Hloop chs [] cx0 st1 eq_refl) as
  (cx' & st' & E & Hinv' & Hcl' & Hfr' & Hin' & Hgeo');
  [simpl; lia|done|done|apply frame_refl|done|].
match goal with |- exists st0, snd <$> ?f = Some st0 /\ _ =>
  replace f with (Some (cx', st')) by (symmetry; exact E) end.
simpl. exists st'. split; [done|]. split; [|split; [done|]].
- split; [done|]. split; [|split; [by eapply frame_trans|]].
  + intros c t Hct Ht HtS.
    destruct (decide (t = node_name k)) as [->|Hne].
    * apply Hin'. by apply Hofch.
    * apply (Hcl' c t Hct Ht). set_solver.
  + destruct Hfr' as [Hsub _]. apply Hsub. simpl. set_solver.
- intros _. destruct Hfr' as [_ Hsame]. rewrite Hsame; [done|].
  simpl. set_solver.
Qed.

Lemma position_roots_geo (rs : list FlowNode) (rx : Z) (st : LayoutState) :
(forall r, r ∈ rs -> r ∈ ns /\ node_id r ∉ map source es) ->
lay_inv ns es st -> closed_except es ∅ st -> geo_inv es sw st ->
exists rx' st',
  foldM (fun acc root =>
           let '(rootX, st) := acc in
           let width := width_or_default sw (node_id root) in
           match positionNode childrenMap sw (S (N + length es))
                   (node_id root) rootX 0 st with
           | Some st => Some (rootX + width + horizontalGap * 2, st)
           | None => None
           end) rs (rx, st) = Some (rx', st') /\
  lay_inv ns es st' /\ closed_except es ∅ st' /\ frame st st' /\
  (forall r, r ∈ rs -> node_id r ∈ fst st') /\ geo_inv es sw st' /\
  (forall r0 rest, rs = r0 :: rest -> node_id r0 ∉ fst st ->
     nodepos (snd st') (node_id r0) = Some (mkPosition rx 0)).
Proof.
revert rx st. induction rs as [|r rs IH]; intros rx st Hrs Hinv Hcl Hgeo;
  cbn [foldM].
- exists rx, st. split; [done|]. split; [done|]. split; [done|].
  split; [apply frame_refl|]. split; [|split; [done|done]].
  intros r Hr. by apply elem_of_nil in Hr.
- destruct (Hrs r) as [Hr Hroot]; [apply elem_of_cons; by left|].
  assert (Hid : node_id r ∈ map node_id ns).
  { apply list_elem_of_fmap. by exists r. }
  rewrite Hids in Hid. apply list_elem_of_fmap in Hid as (k & Ek & Hk).
  apply elem_of_seq in Hk. rewrite Ek in *.
  destruct (positionNode_geo (S (N + length es)) k rx 0 st ∅)
    as (st1 & E1 & (Hinv1 & Hcl1 & Hfr1 & Hin1) & Hgeo1 & Hpos1);
    [lia|lia|done|done| |done| |].
  { intros _ t Hct. exfalso. apply Hroot.
    apply list_elem_of_fmap. by exists (mkPlanEdge (node_name k) t). }
  { intros _. split; [|done]. intros t Hct. exfalso. apply Hroot.
    apply list_elem_of_fmap. by exists (mkPlanEdge (node_name k) t). }
  cbv zeta. rewrite E1.
  destruct (IH (rx + width_or_default sw (node_name k) + horizontalGap * 2) st1)
    as (rx' & st2 & E2 & Hinv2 & Hcl2 & Hfr2 & Hin2 & Hgeo2 & _);
    [|done|done|done|].
  { intros r' Hr'. apply Hrs, elem_of_cons. by right. }
  exists rx', st2. split; [done|]. split; [done|]. split; [done|].
  split; [by eapply frame_trans|]. split; [|split; [done|]].
  + intros r' Hr'. apply elem_of_cons in Hr' as [->|Hr']; [|by apply Hin2].
    rewrite Ek. destruct Hfr2 as [Hsub _]. by apply Hsub.
  + intros r0 rest [= <- <-] Hnot. rewrite Ek in *.
    destruct Hfr2 as [_ Hsame]. rewrite Hsame; [by apply Hpos1|done].
Qed.

(** On the graph of a parse, with the widths that the first pass stored:
  the layout puts every producer one row below its consumer, at the
  place of its slot under it, every node without a consumer in the top
  row, and the first node at the origin. *)
Lemma applyLayout_geo :
layout_widths ns es = Some sw ->
exists l,
  applyLayout ns es = Some l /\ map node_id l = map node_id ns /\
  (forall c t, child_of es c t ->
     exists p q, nodepos l c = Some p /\ nodepos l t = Some q /\
                 row_below p q /\
                 pos_x p = child_x sw (sources_to es t) (pos_x q) c) /\
  (forall k, (1 <= k <= N)%nat -> node_name k ∉ map source es ->
     exists p, nodepos l (node_name k) = Some p /\ pos_y p = 0) /\
  ((1 <= N)%nat -> nodepos l (node_name 1) = Some (mkPosition 0 0)).
Proof.
unfold layout_widths, layout_roots. intros Esw. unfold applyLayout.
rewrite (surjective_pairing (adjacency es)).
set (roots := filter (fun n => snd (adjacency es) !! node_id n = None) ns) in *.
assert (Hroots : forall r, r ∈ roots <-> r ∈ ns /\ node_id r ∉ map source es).
{ intros r. unfold roots. rewrite list_elem_of_filter, adjacency_parent.
  tauto. }
rewrite Esw.
destruct (position_roots_geo roots 0 (∅, ns))
  as (rx & [positioned l] & E & Hinv & Hcl & _ & Hin & Hgeo & Hfirst).
{ intros r Hr. by apply Hroots. }
{ split; [done|]. split; [done|]. intros c t _ Hc. simpl in Hc. set_solver. }
{ intros c t _ Ht. simpl in Ht. set_solver. }
{ split; [intros c t _ Hc|intros s Hs]; simpl in *; set_solver. }
match goal with |- context [match ?f with Some _ => _ | None => None end] =>
  replace f with (Some (rx, (positioned, l))) by (symmetry; exact E) end.
pose proof (all_positioned ns es Hids Hes (positioned, l) Hcl) as Hall.
destruct Hinv as (Hl & Hd & Hedges). destruct Hgeo as [Hg1 Hg2]. simpl in *.
assert (Hevery : forall k, (1 <= k <= N)%nat -> node_name k ∈ positioned).
{ intros k Hk. apply Hall; [|done].
  intros r Hr Hroot. apply Hin, Hroots. by split. }
assert (Hevery' : forall n, n ∈ l -> node_id n ∈ positioned).
{ intros n Hn. assert (Hid : node_id n ∈ map node_id l).
  { apply list_elem_of_fmap. by exists n. }
  rewrite Hl, Hids in Hid. apply list_elem_of_fmap in Hid as (k & -> & Hk).
  apply elem_of_seq in Hk. apply Hevery. lia. }
rewrite orphans_none by done. simpl. exists l.
split; [done|]. split; [done|]. split; [|split].
- intros c t Hct.
  destruct (child_of_names ns es Hes _ _ Hct) as (k & i & -> & _ & Hi & Hk).
  assert (Hc : node_name k ∈ positioned) by (apply Hevery; lia).
  destruct (Hedges _ _ Hct Hc) as (_ & p & q & Hp & Hq & Hrow).
  destruct (Hg1 _ _ Hct Hc) as (p' & q' & Hp' & Hq' & Hx).
  rewrite Hp in Hp'. rewrite Hq in Hq'. inversion Hp'; inversion Hq'; subst.
  by exists p', q'.
- intros k Hk Hroot. apply Hg2; [by apply Hevery|done].
- intros HN. destruct ns as [|n1 rest] eqn:Ens; [simpl in HN; lia|].
  assert (Hn1 : node_id n1 = node_name 1).
  { rewrite <- Ens in Hids. rewrite Ens in Hids. simpl in Hids.
    by inversion Hids. }
  assert (Hroot1 : node_name 1 ∉ map source es).
  { intros Hsrc. apply list_elem_of_fmap in Hsrc as (e & Es & He).
    assert (Hct : child_of es (node_name 1) (target e)).
    { unfold child_of. rewrite Es. by destruct e. }
    destruct (child_of_names _ es Hes _ _ Hct) as (k & i & E1 & _ & Hi & _).
    apply node_name_inj in E1. lia. }
  assert (Er : roots = n1 :: filter
                 (fun n => snd (adjacency es) !! node_id n = None) rest).
  { unfold roots. rewrite filter_cons.
    destruct (decide (snd (adjacency es) !! node_id n1 = None)) as [|Hno];
      [done|].
    exfalso. apply Hno. apply adjacency_parent. by rewrite Hn1. }
  rewrite <- Hn1. apply (Hfirst _ _ Er). simpl. set_solver.
Qed.
End LayoutGeometry.

(** ** Subtree widths *)

Lemma fold_widths_ext (f g : string -> Z) (chs : list string) (a : Z) :
  (forall c, c ∈ chs -> f c = g c) ->
  fold_left (fun sum c => sum + f c + horizontalGap) chs a
  = fold_left (fun sum c => sum + g c + horizontalGap) chs a.
Proof.
  revert a. induction chs as [|c chs IH]; intros a H; simpl; [done|].
  rewrite (H c) by (apply elem_of_cons; by left).
  apply IH. intros c' Hc'. apply H, elem_of_cons. by right.
Qed.

Lemma fold_widths_bounds (f : string -> Z) (chs : list string) (a : Z) :
  (forall c, c ∈ chs -> Z.even (f c) = true) -> Z.even a = true ->
  Z.even (fold_left (fun sum c => sum + f c + horizontalGap) chs a) = true.
Proof.
  revert a. induction chs as [|c chs IH]; intros a H Ha; simpl; [done|].
  apply IH; [intros c' Hc'; apply H, elem_of_cons; by right|].
  rewrite !Z.even_add, Ha, (H c) by (apply elem_of_cons; by left). done.
Qed.

Lemma subtree_width_wide (es : list PlanEdge) (fuel : nat) (i : string) :
  nodeWidth <= subtree_width es fuel i.
Proof. destruct fuel; simpl; lia. Qed.

Lemma subtree_width_even (es : list PlanEdge) (fuel : nat) (i : string) :
  Z.even (subtree_width es fuel i) = true.
Proof.
  revert i. induction fuel as [|fuel IH]; intros i; [done|].
  cbn [subtree_width].
  match goal with |- Z.even (Z.max _ ?t) = true =>
    assert (Ht : Z.even t = true) by (by apply fold_widths_bounds);
    destruct (Z.max_spec nodeWidth t) as [[_ ->]|[_ ->]]; done
  end.
Qed.

Section Widths.
Variable ns : list FlowNode.
Variable es : list PlanEdge.
Hypothesis Hids : map node_id ns = node_name <$> seq 1 (length ns).
Hypothesis Hes : exists ks,
Forall2 plan_edge_ok ks es /\ increasing 0 ks (length ns).

Local Abbreviation N := (length ns).
Local Abbreviation childrenMap := (fst (adjacency es)).

Lemma sources_later (k : nat) (c : string) :
c ∈ sources_to es (node_name k) ->
exists j, c = node_name j /\ (k < j <= N)%nat.
Proof.
intros Hc. apply (children_later_names ns es Hes).
by rewrite adjacency_children.
Qed.

Lemma subtree_width_stable (f1 f2 k : nat) :
(1 <= k <= N)%nat -> (N < f1 + k)%nat -> (N < f2 + k)%nat ->
subtree_width es f1 (node_name k) = subtree_width es f2 (node_name k).
Proof.
revert f2 k. induction f1 as [|f1 IH]; intros f2 k Hk H1 H2; [lia|].
destruct f2 as [|f2]; [lia|]. cbn [subtree_width]. f_equal.
apply fold_widths_ext. intros c Hc.
destruct (sources_later k c Hc) as (j & -> & Hj). apply IH; lia.
Qed.

Lemma subtree_width_eq (k : nat) :
(1 <= k <= N)%nat ->
subtree_width es (S N) (node_name k)
= Z.max nodeWidth
    (fold_left (fun sum c => sum + subtree_width es (S N) c + horizontalGap)
               (sources_to es (node_name k)) (- horizontalGap)).
Proof.
intros Hk.
transitivity
  (Z.max nodeWidth
     (fold_left (fun sum c => sum + subtree_width es N c + horizontalGap)
                (sources_to es (node_name k)) (- horizontalGap)));
  [reflexivity|].
f_equal. apply fold_widths_ext.
intros c Hc. destruct (sources_later k c Hc) as (j & -> & Hj).
apply subtree_width_stable; lia.
Qed.

Lemma calcWidth_spec (fuel k : nat) (sw : gmap string Z) :
(1 <= k <= N)%nat -> (N < fuel + k)%nat ->
widths_ok ns es sw -> widths_closed es sw ->
exists sw',
  calcWidth childrenMap fuel (node_name k) sw
  = Some (subtree_width es (S N) (node_name k), sw') /\
  widths_ok ns es sw' /\ widths_closed es sw' /\
  is_Some (sw' !! node_name k) /\
  (forall key, is_Some (sw !! key) -> is_Some (sw' !! key)).
Proof.
revert k sw. induction fuel as [|fuel IH]; intros k sw Hk Hf Hok Hcl; [lia|].
cbn [calcWidth]. rewrite adjacency_children.
pose proof (sources_later k) as Hch.
pose proof (subtree_width_eq k Hk) as Heq.
pose proof (fun c => proj1 (elem_of_sources_to es c (node_name k))) as Hof.
pose proof (fun c => proj2 (elem_of_sources_to es c (node_name k))) as Hto.
assert (Hins : forall sw1 w,
          w = subtree_width es (S N) (node_name k) ->
          widths_ok ns es sw1 -> widths_closed es sw1 ->
          (forall c, c ∈ sources_to es (node_name k) -> is_Some (sw1 !! c)) ->
          widths_ok ns es (<[node_name k := w]> sw1) /\
          widths_closed es (<[node_name k := w]> sw1)).
{ intros sw1 w Hw Hok1 Hcl1 Hcs. split.
  - intros key v. destruct (decide (node_name k = key)) as [<-|Hne].
    + rewrite lookup_insert_eq. intros [= <-]. done.
    + rewrite lookup_insert_ne by done. apply Hok1.
  - intros c t Hct [v Hv].
    destruct (decide (node_name k = t)) as [<-|Hne].
    + destruct (Hcs c (Hto c Hct)) as [v' Hv'].
      destruct (decide (node_name k = c)) as [<-|Hne'].
      * rewrite lookup_insert_eq. by eexists.
      * rewrite lookup_insert_ne by done. by eexists.
    + rewrite lookup_insert_ne in Hv by done.
      destruct (Hcl1 c t Hct) as [v' Hv']; [by eexists|].
      destruct (decide (node_name k = c)) as [<-|Hne'].
      * rewrite lookup_insert_eq. by eexists.
      * rewrite lookup_insert_ne by done. by eexists. }
destruct (sources_to es (node_name k)) as [|c0 cs0] eqn:Echs.
{ exists (<[node_name k := nodeWidth]> sw).
  assert (Hw : nodeWidth = subtree_width es (S N) (node_name k)).
  { rewrite Heq. simpl. unfold nodeWidth, horizontalGap. lia. }
  split; [by rewrite <- Hw|].
  destruct (Hins sw nodeWidth Hw Hok Hcl) as [H1 H2].
  { intros c Hc. by apply elem_of_nil in Hc. }
  split; [done|]. split; [done|]. split; [rewrite lookup_insert_eq; by eexists|].
  intros key [v Hv]. destruct (decide (node_name k = key)) as [<-|Hne].
  - rewrite lookup_insert_eq. by eexists.
  - rewrite lookup_insert_ne by done. by eexists. }
cbv beta iota zeta. rewrite <- Echs in Heq.
remember (c0 :: cs0) as chs eqn:Hchs. clear Hchs c0 cs0.
assert (Hloop : forall cs a sw0,
  (forall c, c ∈ cs -> c ∈ chs) ->
  widths_ok ns es sw0 -> widths_closed es sw0 ->
  exists sw1,
    foldM (fun st childId =>
             match calcWidth childrenMap fuel childId (snd st) with
             | Some (w, sw) => Some (fst st + w + horizontalGap, sw)
             | None => None
             end) cs (a, sw0)
    = Some (fold_left (fun sum c => sum + subtree_width es (S N) c + horizontalGap)
                      cs a, sw1) /\
    widths_ok ns es sw1 /\ widths_closed es sw1 /\
    (forall c, c ∈ cs -> is_Some (sw1 !! c)) /\
    (forall key, is_Some (sw0 !! key) -> is_Some (sw1 !! key))).
{ induction cs as [|c cs IHcs]; intros a sw0 Hcs Hok0 Hcl0; cbn [foldM].
  - exists sw0. split; [done|]. split; [done|]. split; [done|].
    split; [intros c Hc; by apply elem_of_nil in Hc|done].
  - assert (Hc : c ∈ chs) by (apply Hcs, elem_of_cons; by left).
    destruct (Hch c Hc) as (j & -> & Hj).
    destruct (IH j sw0) as (sw1 & E1 & Hok1 & Hcl1 & Hin1 & Hgrow1);
      [lia|lia|done|done|].
    simpl. rewrite E1. simpl.
    destruct (IHcs (a + subtree_width es (S N) (node_name j) + horizontalGap) sw1)
      as (sw2 & E2 & Hok2 & Hcl2 & Hin2 & Hgrow2); [|done|done|].
    { intros c' Hc'. apply Hcs, elem_of_cons. by right. }
    exists sw2. split; [done|]. split; [done|]. split; [done|]. split.
    + intros c' Hc'. apply elem_of_cons in Hc' as [->|Hc']; [|by apply Hin2].
      by apply Hgrow2.
    + intros key Hkey. by apply Hgrow2, Hgrow1. }
destruct (Hloop chs (- horizontalGap) sw (fun c Hc => Hc) Hok Hcl)
  as (sw1 & E & Hok1 & Hcl1 & Hin1 & Hgrow1).
rewrite E. clear E. rewrite Echs in Heq. rewrite <- Heq.
destruct (Hins sw1 _ eq_refl Hok1 Hcl1 Hin1) as [H1 H2].
eexists. split; [reflexivity|]. split; [done|]. split; [done|].
split; [rewrite lookup_insert_eq; by eexists|].
intros key Hkey. apply Hgrow1 in Hkey as [v Hv].
destruct (decide (node_name k = key)) as [<-|Hne].
- rewrite lookup_insert_eq. by eexists.
- rewrite lookup_insert_ne by done. by eexists.
Qed.

Lemma calcWidth_roots_spec (rs : list FlowNode) (sw : gmap string Z) :
(forall r, r ∈ rs -> r ∈ ns) ->
widths_ok ns es sw -> widths_closed es sw ->
exists sw',
  foldM (fun sw root =>
           snd <$> calcWidth childrenMap (S (N + length es))
                     (node_id root) sw) rs sw = Some sw' /\
  widths_ok ns es sw' /\ widths_closed es sw' /\
  (forall r, r ∈ rs -> is_Some (sw' !! node_id r)) /\
  (forall key, is_Some (sw !! key) -> is_Some (sw' !! key)).
Proof.
revert sw. induction rs as [|r rs IH]; intros sw Hrs Hok Hcl; cbn [foldM].
- exists sw. split; [done|]. split; [done|]. split; [done|].
  split; [intros r Hr; by apply elem_of_nil in Hr|done].
- assert (Hr : node_id r ∈ map node_id ns).
  { apply list_elem_of_fmap. exists r. split; [done|].
    apply Hrs, elem_of_cons. by left. }
  rewrite Hids in Hr. apply list_elem_of_fmap in Hr as (k & Ek & Hk).
  apply elem_of_seq in Hk. rewrite Ek.
  destruct (calcWidth_spec (S (N + length es)) k sw)
    as (sw1 & E1 & Hok1 & Hcl1 & Hin1 & Hgrow1); [lia|lia|done|done|].
  rewrite E1. simpl.
  destruct (IH sw1) as (sw2 & E2 & Hok2 & Hcl2 & Hin2 & Hgrow2); [|done|done|].
  { intros r' Hr'. apply Hrs, elem_of_cons. by right. }
  exists sw2. split; [done|]. split; [done|]. split; [done|]. split.
  + intros r' Hr'. apply elem_of_cons in Hr' as [->|Hr']; [|by apply Hin2].
    rewrite Ek. by apply Hgrow2.
  + intros key Hkey. by apply Hgrow2, Hgrow1.
Qed.

(** The first pass terminates on the graph of a parse and stores, for every
  node, the width that [subtree_width] reads off the edges. *)
Lemma layout_widths_spec :
exists sw,
  layout_widths ns es = Some sw /\
  forall k, (1 <= k <= N)%nat ->
    sw !! node_name k = Some (subtree_width es (S N) (node_name k)).
Proof.
unfold layout_widths, layout_roots.
destruct (calcWidth_roots_spec
            (filter (fun n => snd (adjacency es) !! node_id n = None) ns) ∅)
  as (sw & E & Hok & Hcl & Hin & _).
{ intros r Hr. by apply list_elem_of_filter in Hr as [_ ?]. }
{ intros key w Hw. by rewrite lookup_empty in Hw. }
{ intros c t _ [w Hw]. by rewrite lookup_empty in Hw. }
exists sw. split; [exact E|].
assert (Hall : forall k, (1 <= k <= N)%nat -> is_Some (sw !! node_name k)).
{ intros k. induction k as [k IH] using lt_wf_ind. intros Hk.
  destruct (decide (node_name k ∈ map source es)) as [Hsrc|Hnot].
  - apply list_elem_of_fmap in Hsrc as (e & Es & He).
    assert (Hct : child_of es (node_name k) (target e)).
    { unfold child_of. rewrite Es. by destruct e. }
    destruct (child_of_names ns es Hes _ _ Hct) as (k' & i & E1 & Et & Hi & Hk').
    apply node_name_inj in E1 as <-.
    apply (Hcl _ _ Hct). rewrite Et. apply IH; lia.
  - pose proof (name_in_ids ns Hids k Hk) as Hid.
    apply list_elem_of_fmap in Hid as (r & Er & Hr).
    rewrite Er. apply Hin. apply list_elem_of_filter. split; [|done].
    apply adjacency_parent. by rewrite <- Er. }
intros k Hk. destruct (Hall k Hk) as [w Hw]. rewrite Hw. f_equal.
by apply Hok.
Qed.
End Widths.

(** ** Slots *)

Lemma slot_width_nonneg (sw : gmap string Z) (chs : list string) :
  (forall c, c ∈ chs -> 0 <= width_or_default sw c) ->
  0 <= slot_width sw chs.
Proof.
  induction chs as [|c chs IH]; intros H; simpl; [lia|].
  assert (0 <= width_or_default sw c) by (apply H, elem_of_cons; by left).
  assert (0 <= slot_width sw chs).
  { apply IH. intros c' Hc'. apply H, elem_of_cons. by right. }
  unfold horizontalGap. lia.
Qed.

Lemma slot_start_before (sw : gmap string Z) (l1 l2 l3 : list string)
    (c1 c2 : string) :
  NoDup (l1 ++ c1 :: l2 ++ c2 :: l3) ->
  (forall c, c ∈ l2 -> 0 <= width_or_default sw c) ->
  slot_start sw (l1 ++ c1 :: l2 ++ c2 :: l3) c1
  + width_or_default sw c1 + horizontalGap
  <= slot_start sw (l1 ++ c1 :: l2 ++ c2 :: l3) c2.
Proof.
  intros Hnd Hw.
  assert (H1 : c1 ∉ l1).
  { apply NoDup_app in Hnd as (_ & Hdis & _). intros Hin.
    apply (Hdis c1 Hin). apply elem_of_cons. by left. }
  assert (H2 : c2 ∉ l1 ++ c1 :: l2).
  { replace (l1 ++ c1 :: l2 ++ c2 :: l3) with ((l1 ++ c1 :: l2) ++ c2 :: l3)
      in Hnd by (by rewrite <- app_assoc).
    apply NoDup_app in Hnd as (_ & Hdis & _). intros Hin.
    apply (Hdis c2 Hin). apply elem_of_cons. by left. }
  rewrite (slot_start_app sw l1 _ c1 H1).
  replace (l1 ++ c1 :: l2 ++ c2 :: l3) with ((l1 ++ c1 :: l2) ++ c2 :: l3)
    by (by rewrite <- app_assoc).
  rewrite (slot_start_app sw _ l3 c2 H2), slot_width_app. simpl.
  pose proof (slot_width_nonneg sw l2 Hw). lia.
Qed.

Lemma slot_start_within (sw : gmap string Z) (chs : list string) (c : string) :
  (forall c, c ∈ chs -> 0 <= width_or_default sw c) -> c ∈ chs ->
  0 <= slot_start sw chs c /\
  slot_start sw chs c + width_or_default sw c + horizontalGap
  <= slot_width sw chs.
Proof.
  induction chs as [|h chs IH]; intros Hw Hc; [by apply elem_of_nil in Hc|].
  simpl. assert (Hh : 0 <= width_or_default sw h) by (apply Hw, elem_of_cons; by left).
  assert (Hrest : 0 <= slot_width sw chs).
  { apply slot_width_nonneg. intros c' Hc'. apply Hw, elem_of_cons. by right. }
  destruct (String.eqb_spec h c) as [->|Hne]; [unfold horizontalGap in *; lia|].
  apply elem_of_cons in Hc as [->|Hc]; [done|].
  destruct IH as [H1 H2]; [|done|unfold horizontalGap in *; lia].
  intros c' Hc'. apply Hw, elem_of_cons. by right.
Qed.

Lemma two_elements_split {A} (l : list A) (a b : A) :
  a ∈ l -> b ∈ l -> a <> b ->
  (exists l1 l2 l3, l = l1 ++ a :: l2 ++ b :: l3) \/
  (exists l1 l2 l3, l = l1 ++ b :: l2 ++ a :: l3).
Proof.
  intros Ha Hb Hne. apply list_elem_of_split in Ha as (l1 & l2 & ->).
  apply elem_of_app in Hb as [Hb|Hb].
  - right. apply list_elem_of_split in Hb as (k1 & k2 & ->).
    exists k1, k2, l2. by rewrite <- app_assoc.
  - left. apply elem_of_cons in Hb as [->|Hb]; [done|].
    apply list_elem_of_split in Hb as (k1 & k2 & ->). by exists l1, k1, k2.
Qed.

Lemma descends_top (es : list PlanEdge) (n : nat) (a t : string) :
  descends es (S n) a t ->
  exists c, child_of es c t /\ descends es n a c.
Proof.
  revert a. induction n as [|n IH]; intros a H;
    inversion H as [|n0 d t' t0 Hct Hd]; subst.
  - inversion Hd; subst. exists a. split; [done|constructor].
  - destruct (IH _ Hd) as (c & Hc & Hdc). exists c. split; [done|].
    by eapply descends_step.
Qed.

Section Rows.
Variable ns : list FlowNode.
Variable es : list PlanEdge.
Hypothesis Hids : map node_id ns = node_name <$> seq 1 (length ns).
Hypothesis Hes : exists ks,
Forall2 plan_edge_ok ks es /\ increasing 0 ks (length ns).
Variable sw : gmap string Z.
Hypothesis Hsw : forall k, (1 <= k <= length ns)%nat ->
sw !! node_name k = Some (subtree_width es (S (length ns)) (node_name k)).
Variable l : list FlowNode.
Hypothesis Hpl : forall c t, child_of es c t ->
exists p q, nodepos l c = Some p /\ nodepos l t = Some q /\
            row_below p q /\
            pos_x p = child_x sw (sources_to es t) (pos_x q) c.

Local Abbreviation N := (length ns).

Lemma stored_width (k : nat) :
(1 <= k <= N)%nat ->
width_or_default sw (node_name k) = subtree_width es (S N) (node_name k).
Proof.
intros Hk. unfold width_or_default. rewrite (Hsw k Hk).
pose proof (subtree_width_wide es (S N) (node_name k)) as Hw.
destruct (Z.eqb_spec (subtree_width es (S N) (node_name k)) 0) as [E|E];
  [unfold nodeWidth in Hw; lia|done].
Qed.

Lemma stored_width_bounds (k : nat) :
(1 <= k <= N)%nat ->
nodeWidth <= width_or_default sw (node_name k) /\
Z.even (width_or_default sw (node_name k)) = true /\
width_or_default sw (node_name k)
= Z.max nodeWidth (children_width sw (sources_to es (node_name k))).
Proof.
intros Hk. rewrite (stored_width k Hk).
split; [apply subtree_width_wide|]. split; [apply subtree_width_even|].
rewrite (subtree_width_eq ns es Hes k Hk). f_equal. unfold children_width.
apply fold_widths_ext. intros c Hc.
destruct (sources_later ns es Hes k c Hc) as (j & -> & Hj).
symmetry. apply stored_width. lia.
Qed.

Lemma sources_widths (k : nat) (c : string) :
c ∈ sources_to es (node_name k) ->
nodeWidth <= width_or_default sw c /\ Z.even (width_or_default sw c) = true.
Proof.
intros Hc. destruct (sources_later ns es Hes k c Hc) as (j & -> & Hj).
destruct (stored_width_bounds j) as (H1 & H2 & _); [lia|done].
Qed.

Lemma slot_width_even (k : nat) :
Z.even (slot_width sw (sources_to es (node_name k))) = true.
Proof.
pose proof (sources_widths k) as Hw.
induction (sources_to es (node_name k)) as [|c chs IH]; [done|].
simpl. rewrite !Z.even_add, IH.
- destruct (Hw c) as [_ ->]; [apply elem_of_cons; by left|done].
- intros c' Hc'. apply Hw, elem_of_cons. by right.
Qed.

(** The slot of a producer lies inside the slot of its consumer. *)
Lemma child_slot (c t : string) (p q : Position) :
child_of es c t -> nodepos l c = Some p -> nodepos l t = Some q ->
slot_left sw t q <= slot_left sw c p /\
slot_right sw c p <= slot_right sw t q.
Proof.
intros Hct Hp Hq.
destruct (Hpl c t Hct) as (p' & q' & Hp' & Hq' & _ & Hx).
rewrite Hp in Hp'. rewrite Hq in Hq'. inversion Hp'; inversion Hq'; subst p' q'.
destruct (child_of_names ns es Hes _ _ Hct) as (k & i & -> & -> & Hi & Hk).
pose proof (proj2 (elem_of_sources_to es _ _) Hct) as Hin.
destruct (stored_width_bounds i) as (Hwt & Het & Heq); [lia|].
destruct (stored_width_bounds k) as (Hwc & Hec & _); [lia|].
pose proof (slot_width_even i) as Hes'.
destruct (slot_start_within sw (sources_to es (node_name i)) (node_name k))
  as [Hs1 Hs2]; [|done|].
{ intros c Hc. destruct (sources_widths i c Hc) as [H _].
  unfold nodeWidth in H. lia. }
unfold slot_left, slot_right. rewrite Hx. unfold child_x.
rewrite children_width_slots in *.
apply Z.even_spec in Het as [ht Eht], Hec as [hc Ehc], Hes' as [hs Ehs].
rewrite Eht, Ehc, Ehs in *.
unfold nodeWidth, horizontalGap in *.
Z.div_mod_to_equations. lia.
Qed.

(** The slots of two producers of one consumer are a gap apart, in the
  order of the edges. *)
Lemma sibling_slots (c1 c2 t : string) (l1 l2 l3 : list string)
  (p1 p2 : Position) :
sources_to es t = l1 ++ c1 :: l2 ++ c2 :: l3 ->
nodepos l c1 = Some p1 -> nodepos l c2 = Some p2 ->
pos_y p1 = pos_y p2 /\
slot_right sw c1 p1 + horizontalGap <= slot_left sw c2 p2.
Proof.
intros Echs Hp1 Hp2.
assert (Hin1 : c1 ∈ sources_to es t).
{ rewrite Echs. apply elem_of_app. right. apply elem_of_cons. by left. }
assert (Hin2 : c2 ∈ sources_to es t).
{ rewrite Echs. apply elem_of_app. right. apply elem_of_cons. right.
  apply elem_of_app. right. apply elem_of_cons. by left. }
pose proof (proj1 (elem_of_sources_to es _ _) Hin1) as Hct1.
pose proof (proj1 (elem_of_sources_to es _ _) Hin2) as Hct2.
destruct (Hpl c1 t Hct1) as (p1' & q & Hp1' & Hq & Hr1 & Hx1).
destruct (Hpl c2 t Hct2) as (p2' & q' & Hp2' & Hq' & Hr2 & Hx2).
rewrite Hp1 in Hp1'. rewrite Hp2 in Hp2'. rewrite Hq in Hq'.
inversion Hp1'; inversion Hp2'; inversion Hq'; subst p1' p2' q'.
unfold row_below in *. split; [lia|].
destruct (child_of_names ns es Hes _ _ Hct1) as (k1 & i & -> & -> & Hi & Hk1).
pose proof (sources_NoDup ns es Hes) as Hnd.
apply (sources_to_NoDup es (node_name i)) in Hnd.
rewrite Echs in Hnd.
pose proof (slot_start_before sw l1 l2 l3 (node_name k1) c2 Hnd) as Hord.
rewrite <- Echs in Hord.
destruct (sources_widths i _ Hin1) as [Hw1 He1].
destruct (sources_widths i _ Hin2) as [Hw2 He2].
assert (Hmid : forall c, c ∈ l2 -> 0 <= width_or_default sw c).
{ intros c Hc. destruct (sources_widths i c) as [H _]; [|unfold nodeWidth in H; lia].
  rewrite Echs. apply elem_of_app. right. apply elem_of_cons. right.
  apply elem_of_app. by left. }
specialize (Hord Hmid).
unfold slot_left, slot_right. rewrite Hx1, Hx2. unfold child_x.
apply Z.even_spec in He1 as [h1 Eh1], He2 as [h2 Eh2].
rewrite Eh1, Eh2 in *.
unfold nodeWidth, horizontalGap in *.
Z.div_mod_to_equations. lia.
Qed.

(** A node stands inside its slot. *)
Lemma box_in_slot (k : nat) (p : Position) :
(1 <= k <= N)%nat ->
slot_left sw (node_name k) p <= pos_x p /\
pos_x p + nodeWidth <= slot_right sw (node_name k) p.
Proof.
intros Hk. destruct (stored_width_bounds k Hk) as (Hw & He & _).
unfold slot_left, slot_right.
apply Z.even_spec in He as [h Eh]. rewrite Eh in *.
unfold nodeWidth in *. Z.div_mod_to_equations. lia.
Qed.

Lemma descends_slot (n : nat) (d t : string) (q : Position) :
descends es n d t -> nodepos l t = Some q ->
exists p, nodepos l d = Some p /\
          pos_y p = pos_y q + (nodeHeight + verticalGap) * Z.of_nat n /\
          slot_left sw t q <= slot_left sw d p /\
          slot_right sw d p <= slot_right sw t q.
Proof.
intros Hd Hq. induction Hd as [t|n d t' t Hct Hd IH].
- exists q. split; [done|]. split; [lia|]. lia.
- destruct (IH Hq) as (p' & Hp' & Hy & Hl & Hr).
  destruct (Hpl d t' Hct) as (p & q' & Hp & Hq' & Hrow & _).
  rewrite Hp' in Hq'. inversion Hq'; subst q'.
  destruct (child_slot d t' p p' Hct Hp Hp') as [Hl' Hr'].
  exists p. split; [done|]. unfold row_below in Hrow.
  split; [lia|]. lia.
Qed.

Lemma descends_name (n : nat) (d t : string) :
descends es (S n) d t -> exists k, d = node_name k /\ (1 <= k <= N)%nat.
Proof.
intros H. inversion H as [|n0 d0 t' t0 Hct _]; subst.
destruct (child_of_names ns es Hes _ _ Hct) as (k & i & -> & _ & Hi & Hk).
exists k. split; [done|lia].
Qed.

(** Two different nodes that descend from one node by the same number of
  edges stand in the same row, a gap apart. *)
Lemma same_depth_apart (n : nat) :
forall a b t,
  descends es n a t -> descends es n b t -> a <> b ->
  exists pa pb, nodepos l a = Some pa /\ nodepos l b = Some pb /\
                pos_y pa = pos_y pb /\ apart pa pb.
Proof.
induction n as [|n IH]; intros a b t Ha Hb Hne.
- inversion Ha; inversion Hb; subst. done.
- destruct (descends_top es n a t Ha) as (ca & Hca & Hda).
  destruct (descends_top es n b t Hb) as (cb & Hcb & Hdb).
  destruct (decide (ca = cb)) as [->|Hc]; [by apply (IH a b cb)|].
  destruct (Hpl ca t Hca) as (pca & q & Hpca & Hq & Hrowa & _).
  destruct (Hpl cb t Hcb) as (pcb & q' & Hpcb & Hq' & Hrowb & _).
  rewrite Hq in Hq'. inversion Hq'; subst q'.
  destruct (descends_slot n a ca pca Hda Hpca) as (pa & Hpa & Hya & Hla & Hra).
  destruct (descends_slot n b cb pcb Hdb Hpcb) as (pb & Hpb & Hyb & Hlb & Hrb).
  destruct (descends_name n a t Ha) as (ka & -> & Hka).
  destruct (descends_name n b t Hb) as (kb & -> & Hkb).
  destruct (box_in_slot ka pa Hka) as [Ha1 Ha2].
  destruct (box_in_slot kb pb Hkb) as [Hb1 Hb2].
  exists pa, pb. split; [done|]. split; [done|].
  unfold row_below in *. split; [lia|].
  pose proof (proj2 (elem_of_sources_to es _ _) Hca) as Hina.
  pose proof (proj2 (elem_of_sources_to es _ _) Hcb) as Hinb.
  destruct (two_elements_split _ ca cb Hina Hinb Hc)
    as [(l1 & l2 & l3 & E)|(l1 & l2 & l3 & E)].
  + destruct (sibling_slots ca cb t l1 l2 l3 pca pcb E Hpca Hpcb) as [_ Hs].
    left. lia.
  + destruct (sibling_slots cb ca t l1 l2 l3 pcb pca E Hpcb Hpca) as [_ Hs].
    right. lia.
Qed.

Lemma descends_depth (n m : nat) (a b t : string) (pa pb : Position) :
descends es n a t -> descends es m b t ->
nodepos l a = Some pa -> nodepos l b = Some pb -> pos_y pa = pos_y pb ->
is_Some (nodepos l t) -> n = m.
Proof.
intros Ha Hb Hpa Hpb Hy [q Hq].
destruct (descends_slot n a t q Ha Hq) as (pa' & Hpa' & Hya & _).
destruct (descends_slot m b t q Hb Hq) as (pb' & Hpb' & Hyb & _).
rewrite Hpa in Hpa'. rewrite Hpb in Hpb'. inversion Hpa'; inversion Hpb'; subst.
unfold nodeHeight, verticalGap in *. lia.
Qed.
End Rows.

(** ** The layout of a parsed plan *)

Lemma sources_to_order (es : list PlanEdge) (i j : nat) (e1 e2 : PlanEdge)
    (t : string) :
  es !! i = Some e1 -> es !! j = Some e2 -> (i < j)%nat ->
  target e1 = t -> target e2 = t ->
  exists l1 l2 l3, sources_to es t = l1 ++ source e1 :: l2 ++ source e2 :: l3.
Proof.
  intros Hi Hj Hij Ht1 Ht2.
  pose proof (take_drop_middle es i e1 Hi) as E1.
  assert (Hj' : drop (S i) es !! (j - S i)%nat = Some e2).
  { rewrite lookup_drop. rewrite <- Hj. f_equal. lia. }
  pose proof (take_drop_middle _ _ e2 Hj') as E2.
  rewrite <- E2 in E1. rewrite <- E1. unfold sources_to.
  rewrite filter_app, filter_cons, filter_app, filter_cons.
  destruct (decide (target e1 = t)); [|done].
  destruct (decide (target e2 = t)); [|done].
  rewrite !map_app. simpl. rewrite !map_app. simpl. by eexists _, _, _.
Qed.

Lemma nodepos_head (l : list FlowNode) (fn : FlowNode) :
  l !! 0%nat = Some fn -> nodepos l (node_id fn) = Some (position fn).
Proof.
  destruct l as [|n l]; [done|]. simpl. intros [= ->].
  unfold nodepos. simpl. by rewrite String.eqb_refl.
Qed.

(** What the layout of a parsed plan satisfies: the stored widths are the
    subtree widths, every producer stands one row below its consumer in
    its slot, nodes without consumer stand in the top row, and the first
    node at the origin. *)
Lemma pipeline_geometry (json : MySQLExplainJSON) (counter : nat) :
  let es := edges (emitted json) in
  let N := length (nodes (emitted json)) in
  exists r c' fl sw,
    parseExplainJSON json counter = Some (r, c') /\
    length (planNodes r) = N /\
    map node_id fl = node_name <$> seq 1 (length fl) /\ length fl = N /\
    (exists ks, Forall2 plan_edge_ok ks es /\ increasing 0 ks (length fl)) /\
    map node_id (flowNodes r) = node_name <$> seq 1 N /\
    (forall k, (1 <= k <= length fl)%nat ->
       sw !! node_name k = Some (subtree_width es (S (length fl)) (node_name k))) /\
    (forall c t, child_of es c t ->
       exists p q, nodepos (flowNodes r) c = Some p /\
                   nodepos (flowNodes r) t = Some q /\ row_below p q /\
                   pos_x p = child_x sw (sources_to es t) (pos_x q) c) /\
    (forall k, (1 <= k <= N)%nat -> node_name k ∉ map source es ->
       exists p, nodepos (flowNodes r) (node_name k) = Some p /\ pos_y p = 0) /\
    ((1 <= N)%nat ->
     nodepos (flowNodes r) (node_name 1) = Some (mkPosition 0 0)).
Proof.
  intros es N.
  destruct (parseExplainJSON_ok json counter) as (r & E & _ & Hmo & _).
  destruct (parseExplainJSON_inv _ _ _ _ E) as (_ & El & _).
  destruct (emitted_graph json) as [(Hid & _ & Hes & _) _].
  fold es N in Hid, Hes, El.
  set (fl := map (fun n => mkFlowNode (id n) (mkPosition 0 0) n
                     (Math_max NInf (map cost (planNodes r) ++ [Fin 1])))
                 (planNodes r)) in *.
  pose proof (Forall2_length _ _ _ Hmo) as Hlen. fold N in Hlen.
  assert (Hfl : length fl = N) by (unfold fl; by rewrite length_map).
  assert (Hfid : map node_id fl = node_name <$> seq 1 (length fl)).
  { unfold fl at 1. rewrite map_map. simpl.
    change (map (fun x => id x) (planNodes r)) with (ids_of (planNodes r)).
    by rewrite (marked_of_ids _ _ Hmo), Hfl. }
  assert (Hes' : exists ks, Forall2 plan_edge_ok ks es /\
                            increasing 0 ks (length fl)) by (by rewrite Hfl).
  destruct (layout_widths_spec fl es Hfid Hes') as (sw & Esw & Hsw).
  destruct (applyLayout_geo fl es Hfid Hes' sw Esw)
    as (l & El' & Hlid & Hpl & Htop & Horigin).
  rewrite El in El'. inversion El'; subst l.
  exists r, N, fl, sw. split; [exact E|]. split; [by symmetry|].
  split; [done|]. split; [done|]. split; [done|].
  split; [by rewrite Hlid, Hfid, Hfl|]. split; [done|]. split; [done|].
  rewrite Hfl in Htop, Horigin. by split.
Qed.

(** X8: two producers of the same consumer stand in the same row, from left
    to right in the order of their edges, and at least the width of a node
    plus the horizontal gap apart: siblings never overlap. *)
Theorem siblings_left_to_right (json : MySQLExplainJSON) (counter : nat) :
  exists r c',
    parseExplainJSON json counter = Some (r, c') /\
    forall i j e1 e2,
      flowEdges r !! i = Some e1 -> flowEdges r !! j = Some e2 ->
      (i < j)%nat -> edge_target e1 = edge_target e2 ->
      exists p1 p2,
        nodepos (flowNodes r) (edge_source e1) = Some p1 /\
        nodepos (flowNodes r) (edge_source e2) = Some p2 /\
        pos_y p1 = pos_y p2 /\
        pos_x p1 + nodeWidth + horizontalGap <= pos_x p2.
Proof.
  destruct (pipeline_geometry json counter)
    as (r & c' & fl & sw & E & _ & Hfid & _ & Hes & _ & Hsw & Hpl & _).
  destruct (parseExplainJSON_inv _ _ _ _ E) as (_ & _ & Hfe & _).
  exists r, c'. split; [exact E|].
  intros i j e1 e2 H1 H2 Hij Ht. rewrite Hfe in H1, H2.
  apply list_lookup_imap_Some in H1 as (pe1 & Hpe1 & ->).
  apply list_lookup_imap_Some in H2 as (pe2 & Hpe2 & ->).
  simpl in *.
  destruct (sources_to_order _ i j pe1 pe2 (target pe2) Hpe1 Hpe2 Hij Ht eq_refl)
    as (l1 & l2 & l3 & Echs).
  assert (Hc1 : child_of (edges (emitted json)) (source pe1) (target pe2)).
  { apply elem_of_sources_to. rewrite Echs. apply elem_of_app. right.
    apply elem_of_cons. by left. }
  assert (Hc2 : child_of (edges (emitted json)) (source pe2) (target pe2)).
  { apply list_elem_of_lookup_2 in Hpe2. unfold child_of. by destruct pe2. }
  destruct (Hpl _ _ Hc1) as (p1 & q & Hp1 & _).
  destruct (Hpl _ _ Hc2) as (p2 & q' & Hp2 & _).
  destruct (sibling_slots fl _ Hes sw Hsw (flowNodes r) Hpl
              _ _ _ l1 l2 l3 p1 p2 Echs Hp1 Hp2) as [Hy Hs].
  exists p1, p2. split; [done|]. split; [done|]. split; [done|].
  destruct (child_of_names fl _ Hes _ _ Hc1) as (k1 & i1 & Ek1 & _ & Hi1 & Hk1).
  destruct (child_of_names fl _ Hes _ _ Hc2) as (k2 & i2 & Ek2 & _ & Hi2 & Hk2).
  rewrite Ek1, Ek2 in *.
  destruct (box_in_slot fl _ Hes sw Hsw k1 p1) as [_ Hb1]; [lia|].
  destruct (box_in_slot fl _ Hes sw Hsw k2 p2) as [Hb2 _]; [lia|].
  lia.
Qed.

(** X9: the rows of the layout.  Every node stands in a row [200 * d]
    below the top ([nodeHeight + verticalGap = 200]), where [d = 0] exactly
    for the nodes that are the source of no edge; no y-coordinate is
    negative; and the first node stands at the origin. *)
Theorem rows_of_layout (json : MySQLExplainJSON) (counter : nat) :
  exists r c',
    parseExplainJSON json counter = Some (r, c') /\
    (forall k, (1 <= k <= length (planNodes r))%nat ->
       exists p (d : nat),
         nodepos (flowNodes r) (node_name k) = Some p /\
         pos_y p = (nodeHeight + verticalGap) * Z.of_nat d /\
         (d = 0%nat <-> node_name k ∉ map edge_source (flowEdges r))) /\
    (forall fn, flowNodes r !! 0%nat = Some fn -> position fn = mkPosition 0 0).
Proof.
  destruct (pipeline_geometry json counter)
    as (r & c' & fl & sw & E & Hlen & Hfid & Hfl & Hes & Hrid & _ & Hpl & Htop & Ho).
  destruct (parseExplainJSON_inv _ _ _ _ E) as (_ & _ & Hfe & _).
  assert (Hsrc : map edge_source (flowEdges r) = map source (edges (emitted json))).
  { rewrite Hfe. change (map edge_source ?l) with (edge_source <$> l).
    rewrite fmap_imap. apply list_eq. intros i.
    rewrite list_lookup_imap. change (map source ?l) with (source <$> l).
    by rewrite list_lookup_fmap. }
  exists r, c'. split; [exact E|]. split.
  - rewrite Hlen, Hsrc. intros k. induction k as [k IH] using lt_wf_ind. intros Hk.
    destruct (decide (node_name k ∈ map source (edges (emitted json))))
      as [Hin|Hnot].
    + apply list_elem_of_fmap in Hin as (e & Es & He).
      assert (Hct : child_of (edges (emitted json)) (node_name k) (target e)).
      { unfold child_of. rewrite Es. by destruct e. }
      destruct (child_of_names fl _ Hes _ _ Hct) as (k' & i & E1 & Et & Hi & Hk').
      apply node_name_inj in E1 as <-.
      destruct (Hpl _ _ Hct) as (p & q & Hp & Hq & Hrow & _).
      destruct (IH i) as (q' & d & Hq' & Hy & _); [lia|lia|].
      rewrite Et in Hq. rewrite Hq in Hq'. inversion Hq'; subst q'.
      exists p, (S d). split; [done|]. unfold row_below in Hrow.
      split; [lia|]. split; [done|]. intros Hno. exfalso. apply Hno.
      apply list_elem_of_fmap. by exists e.
    + destruct (Htop k Hk Hnot) as (p & Hp & Hy).
      exists p, 0%nat. split; [done|]. split; [lia|done].
  - intros fn Hfn.
    assert (Hn : (1 <= length (nodes (emitted json)))%nat).
    { apply lookup_lt_Some in Hfn.
      apply (f_equal length) in Hrid.
      rewrite length_map, length_fmap, length_seq in Hrid. lia. }
    assert (Hid1 : node_id fn = node_name 1).
    { assert (H : map node_id (flowNodes r) !! 0%nat = Some (node_id fn)).
      { change (map node_id ?l) with (node_id <$> l).
        by rewrite list_lookup_fmap, Hfn. }
      rewrite Hrid in H. destruct (nodes (emitted json)); [simpl in Hn; lia|].
      simpl in H. by inversion H. }
    pose proof (nodepos_head _ _ Hfn) as Hh. rewrite Hid1, (Ho Hn) in Hh.
    by inversion Hh.
Qed.

Lemma all_descend (es : list PlanEdge) (N : nat) :
  (forall c t, child_of es c t ->
     exists k i, c = node_name k /\ t = node_name i /\ (0 < i < k)%nat) ->
  (forall k, (2 <= k <= N)%nat -> node_name k ∈ map source es) ->
  forall k, (1 <= k <= N)%nat -> exists n, descends es n (node_name k) (node_name 1).
Proof.
  intros Hnames Hsingle k. induction k as [k IH] using lt_wf_ind. intros Hk.
  destruct (decide (k = 1%nat)) as [->|Hne]; [exists 0%nat; constructor|].
  pose proof (Hsingle k) as Hin.
  assert (Hk2 : (2 <= k <= N)%nat) by lia. specialize (Hin Hk2).
  apply list_elem_of_fmap in Hin as (e & Es & He).
  assert (Hct : child_of es (node_name k) (target e)).
  { unfold child_of. rewrite Es. by destruct e. }
  destruct (Hnames _ _ Hct) as (k' & i & E1 & Et & Hi).
  apply node_name_inj in E1 as <-.
  destruct (IH i) as [n Hn]; [lia|lia|].
  exists (S n). eapply descends_step; [exact Hct|]. by rewrite Et.
Qed.

(** X10: within one tree of the layout no two nodes of a row overlap: two
    different nodes that descend from a common node and have the same
    y-coordinate stand at least the width of a node plus the horizontal gap
    apart.  So when only the first node is the source of no edge (the plan
    has a single root), no two nodes of the same row overlap at all. *)
Theorem same_row_apart (json : MySQLExplainJSON) (counter : nat) :
  let es := edges (emitted json) in
  exists r c',
    parseExplainJSON json counter = Some (r, c') /\
    (forall n m a b t pa pb,
       descends es n a t -> descends es m b t -> a <> b ->
       nodepos (flowNodes r) a = Some pa -> nodepos (flowNodes r) b = Some pb ->
       pos_y pa = pos_y pb -> apart pa pb) /\
    ((forall k, (2 <= k <= length (planNodes r))%nat ->
        node_name k ∈ map source es) ->
     forall j k pa pb,
       (1 <= j <= length (planNodes r))%nat ->
       (1 <= k <= length (planNodes r))%nat -> j <> k ->
       nodepos (flowNodes r) (node_name j) = Some pa ->
       nodepos (flowNodes r) (node_name k) = Some pb ->
       pos_y pa = pos_y pb -> apart pa pb).
Proof.
  intros es.
  destruct (pipeline_geometry json counter)
    as (r & c' & fl & sw & E & Hlen & Hfid & Hfl & Hes & Hrid & Hsw & Hpl & _).
  fold es in Hes, Hsw, Hpl.
  assert (Hmain : forall n m a b t pa pb,
            descends es n a t -> descends es m b t -> a <> b ->
            nodepos (flowNodes r) a = Some pa ->
            nodepos (flowNodes r) b = Some pb ->
            pos_y pa = pos_y pb -> apart pa pb).
  { intros n m a b t pa pb Ha Hb Hne Hpa Hpb Hy.
    assert (Ht : is_Some (nodepos (flowNodes r) t)).
    { destruct n as [|n].
      - inversion Ha; subst. by eexists.
      - destruct (descends_top es n a t Ha) as (c & Hc & _).
        destruct (Hpl _ _ Hc) as (p & q & _ & Hq & _). by eexists. }
    pose proof (descends_depth fl es Hes sw Hsw (flowNodes r) Hpl
                  n m a b t pa pb Ha Hb Hpa Hpb Hy Ht) as <-.
    destruct (same_depth_apart fl es Hes sw Hsw (flowNodes r) Hpl n a b t Ha Hb Hne)
      as (pa' & pb' & Hpa' & Hpb' & _ & Hap).
    rewrite Hpa in Hpa'. rewrite Hpb in Hpb'.
    by inversion Hpa'; inversion Hpb'; subst. }
  exists r, c'. split; [exact E|]. split; [exact Hmain|].
  intros Hsingle j k pa pb Hj Hk Hjk Hpa Hpb Hy.
  assert (Hnames : forall c t, child_of es c t ->
            exists k i, c = node_name k /\ t = node_name i /\ (0 < i < k)%nat).
  { intros c t Hct.
    destruct (child_of_names fl es Hes _ _ Hct) as (k0 & i0 & -> & -> & Hi & _).
    by exists k0, i0. }
  destruct (all_descend es _ Hnames Hsingle j Hj) as [n Hn].
  destruct (all_descend es _ Hnames Hsingle k Hk) as [m Hm].
  apply (Hmain n m _ _ _ pa pb Hn Hm); try done.
  intros Eq. by apply node_name_inj in Eq.
Qed.

(** ** The details panel *)

(** X11: a click on a node of the returned graph selects the plan node that
    the flow node carries as its data; a node whose id is not the id of a
    plan node selects nothing. *)
Theorem clicked_node_found (json : MySQLExplainJSON) (counter : nat) :
  exists r c',
    parseExplainJSON json counter = Some (r, c') /\
    (forall fn, fn ∈ flowNodes r ->
       handleNodeClick (planNodes r) fn = Some (data fn)) /\
    (forall fn, node_id fn ∉ ids_of (planNodes r) ->
       handleNodeClick (planNodes r) fn = None).
Proof.
  destruct (parseExplainJSON_ok json counter)
    as (r & E & _ & Hmo & Hfid & Hfd & _).
  destruct (emitted_graph json) as [(Hid & _) _].
  pose proof (marked_of_ids _ _ Hmo) as Hpid.
  eexists r, _. split; [exact E|]. split.
  - intros fn Hfn. apply list_elem_of_lookup in Hfn as [p Hp].
    unfold handleNodeClick.
    assert (Hd : planNodes r !! p = Some (data fn)).
    { rewrite <- Hfd. change (map data ?l) with (data <$> l).
      by rewrite list_lookup_fmap, Hp. }
    assert (Hi : node_id fn = id (data fn)).
    { assert (H1 : ids_of (planNodes r) !! p = Some (id (data fn))).
      { unfold ids_of. change (map id ?l) with (id <$> l).
        by rewrite list_lookup_fmap, Hd. }
      assert (H2 : map node_id (flowNodes r) !! p = Some (node_id fn)).
      { change (map node_id ?l) with (node_id <$> l).
        by rewrite list_lookup_fmap, Hp. }
      rewrite Hfid, <- Hpid, H1 in H2. by inversion H2. }
    rewrite Hi. eapply find_node_lookup; [|exact Hd].
    rewrite Hpid. by apply ids_NoDup.
  - intros fn Hfn. by apply find_node_None.
Qed.

(** ** The statements above on the join of the repository's test *)

Lemma marked_nodes_form_path_witness :
  exists r c' root path,
    parseExplainJSON cheap_expensive_plan 0 = Some (r, c') /\
    root ∈ roots_of (nodes (emitted cheap_expensive_plan)) /\
    child_chain (nodes (emitted cheap_expensive_plan)) (id root) path /\
    forall n, n ∈ planNodes r ->
      (isCriticalPath n = Some true <-> id n ∈ path).
Proof.
  apply (marked_nodes_form_path cheap_expensive_plan 0).
  vm_compute. discriminate.
Defined.

Lemma siblings_left_to_right_witness :
  exists r c' p1 p2,
    parseExplainJSON cheap_expensive_plan 0 = Some (r, c') /\
    nodepos (flowNodes r) "node-2" = Some p1 /\
    nodepos (flowNodes r) "node-3" = Some p2 /\
    pos_y p1 = pos_y p2 /\ pos_x p1 + nodeWidth + horizontalGap <= pos_x p2.
Proof.
  destruct (siblings_left_to_right cheap_expensive_plan 0) as (r & c' & E & H).
  remember (parseExplainJSON cheap_expensive_plan 0) as o eqn:Ho.
  vm_compute in Ho. subst o. inversion E; subst r c'. clear E.
  edestruct (H 0%nat 1%nat) as (p1 & p2 & H1 & H2 & Hy & Hx);
    [reflexivity|reflexivity|lia|reflexivity|].
  eexists _, _, p1, p2. split; [vm_compute; reflexivity|].
  split; [exact H1|]. split; [exact H2|]. by split.
Defined.

Lemma same_row_apart_witness :
  exists r c' pa pb,
    parseExplainJSON cheap_expensive_plan 0 = Some (r, c') /\
    nodepos (flowNodes r) "node-2" = Some pa /\
    nodepos (flowNodes r) "node-3" = Some pb /\ apart pa pb.
Proof.
  pose proof (same_row_apart cheap_expensive_plan 0) as H0. cbv zeta in H0.
  destruct H0 as (r & c' & E & _ & H).
  remember (parseExplainJSON cheap_expensive_plan 0) as o eqn:Ho.
  vm_compute in Ho. subst o. inversion E; subst r c'. clear E.
  eexists _, _, _, _. split; [vm_compute; reflexivity|].
  split; [vm_compute; reflexivity|]. split; [vm_compute; reflexivity|].
  apply (H ltac:(
           intros k Hk; change (length (planNodes _)) with 3%nat in Hk;
           assert (Hk' : k = 2%nat \/ k = 3%nat) by lia;
           destruct Hk' as [-> | ->]; vm_compute; repeat constructor)
           2%nat 3%nat).
  - simpl. lia.
  - simpl. lia.
  - lia.
  - vm_compute. reflexivity.
  - vm_compute. reflexivity.
  - reflexivity.
Defined.
